(** * searchable-encryption: a shallow embedding and its verified properties

    The package (npm [searchable-encryption]) is a thin layer of JavaScript
    over two platform libraries: Node's [Buffer] (text encodings) and the
    WebCrypto API (SHA digests, PBKDF2, AES-CBC).  The development has three
    layers:

    - [Platform]: the parts of ECMAScript typed arrays, of Node's [Buffer]
      and of WebCrypto that the package calls, written out as executable
      functions (FIPS 180-4, RFC 2104, RFC 8018, FIPS 197, SP 800-38A,
      WHATWG Encoding);
    - [Main]: the package's functions, one definition per source function
      ([buildIndex], [trapdoor], [genSecretKey], [encrypt], [decrypt],
      [digest], [abConcat], [ab2str], [str2ab]);
    - [CryptoJs]: the older [encrypt]/[decrypt]/[generateSecretKey] of
      [src/crypto.js].

    Asynchronous functions are modelled by their settled value: a fulfilled
    promise is [Ok v], a rejected one is [Throw e]. *)

From Stdlib Require Import Strings.Byte Strings.Ascii Strings.String.
From Stdlib Require Import ZArith NArith List Bool Lia QArith Qround Btauto.
From AAC_tactics Require Import AAC.
Import ListNotations.

#[local] Open Scope Z_scope.
#[local] Set Implicit Arguments.

(* ================================================================== *)
(** * Results of calls that may throw *)

(** The exceptions that the modelled code paths can raise.  The names are
    those of the JavaScript error objects; the argument of a [TypeError]
    records the expression that was not callable. *)
Inductive exn : Type :=
| TypeError (what : string)
| RangeError
| OperationError
| DataError
| InvalidAccessError
| NotSupportedError.

Inductive result (A : Type) : Type :=
| Ok (a : A)
| Throw (e : exn).
Arguments Ok {A} a.
Arguments Throw {A} e.

Definition bind {A B} (r : result A) (k : A -> result B) : result B :=
  match r with
  | Ok a => k a
  | Throw e => Throw e
  end.

Notation "'let*' x ':=' r 'in' k" := (bind r (fun x => k))
  (at level 10, x pattern, r at level 100, k at level 200).

Definition is_ok {A} (r : result A) : bool :=
  match r with Ok _ => true | Throw _ => false end.

(* ================================================================== *)
(** * Bytes and JavaScript strings *)

Definition bytes := list byte.

Definition Z_of_byte (b : byte) : Z := Z.of_N (Byte.to_N b).

Definition byte_of_Z (z : Z) : byte :=
  match Byte.of_N (Z.to_N (z mod 256)) with
  | Some b => b
  | None => x00
  end.

(** A JavaScript string is a sequence of UTF-16 code units. *)
Definition jsstring := list Z.

(** ASCII literals as JavaScript strings. *)
Definition js (s : string) : jsstring :=
  List.map (fun a => Z.of_N (N_of_ascii a)) (list_ascii_of_string s).

(** Binary values: a raw [ArrayBuffer] (what [crypto.subtle] returns and
    what [ArrayBuffer.prototype.slice] gives), or a typed-array view of one
    ([Uint8Array], of which Node's [Buffer] is a subclass). *)
Inductive buffer : Type :=
| ArrayBuffer (b : bytes)
| Uint8Array (b : bytes).

(** The values that reach the package's functions where the source tests
    [typeof x === "string"]: a string or a binary value. *)
Inductive data : Type :=
| Str (s : jsstring)
| Buf (b : buffer).

Definition is_string (d : data) : bool :=
  match d with Str _ => true | Buf _ => false end.

(** [x.byteLength], and the bytes a WebCrypto [BufferSource] denotes. *)
Definition contents (x : buffer) : bytes :=
  match x with ArrayBuffer b | Uint8Array b => b end.

Definition byteLength (x : buffer) : nat := length (contents x).

(** The encodings the documentation of [ab2str]/[str2ab] lists. *)
Inductive Encoding : Type := Hex | Utf8 | Ascii | Base64.

Module Platform.

(* ------------------------------------------------------------------ *)
(** ** Typed arrays *)

(** [target.set(source, offset)] of %TypedArray%: a typed-array source is
    copied element by element; any other object is read as an array-like
    through its [length] property, which an [ArrayBuffer] does not have, so
    nothing is copied from it (LengthOfArrayLike gives 0). *)
Definition array_like (src : buffer) : bytes :=
  match src with
  | Uint8Array b => b
  | ArrayBuffer _ => []
  end.

Fixpoint write_at (target : bytes) (offset : nat) (src : bytes) : bytes :=
  match offset, target with
  | O, _ =>
      match src, target with
      | s :: src', _ :: target' => s :: write_at target' O src'
      | _, _ => target
      end
  | S o, t :: target' => t :: write_at target' o src
  | S _, [] => []
  end.

Definition typed_array_set (target : bytes) (src : buffer) (offset : nat) : result bytes :=
  let elems := array_like src in
  if (length target <? offset + length elems)%nat then Throw RangeError
  else Ok (write_at target offset elems).

(* ------------------------------------------------------------------ *)
(** ** Buffer: hexadecimal *)

Definition hex_digit (n : Z) : Z :=
  if n <? 10 then 48 + n else 87 + n.

(** The binary decoders of [Buffer] read a string one code unit at a time
    and keep the low byte of each ([static_cast<uint8_t>]): the letter
    U+0131 is read as the digit 1 (0x31). *)
Definition low_byte (c : Z) : Z := c mod 256.

(** The value of a byte that is a hexadecimal digit, upper or lower case. *)
Definition hex_value (b : Z) : option Z :=
  if (48 <=? b) && (b <=? 57) then Some (b - 48)
  else if (97 <=? b) && (b <=? 102) then Some (b - 87)
  else if (65 <=? b) && (b <=? 70) then Some (b - 55)
  else None.

(** [unhex]: the value of the hexadecimal digit that the low byte of a code
    unit stands for, if it is one. *)
Definition unhex (c : Z) : option Z := hex_value (low_byte c).

(** [buf.toString('hex')]: two lower-case digits per byte. *)
Fixpoint hex_encode (b : bytes) : jsstring :=
  match b with
  | [] => []
  | x :: b' =>
      hex_digit (Z_of_byte x / 16) :: hex_digit (Z_of_byte x mod 16) :: hex_encode b'
  end.

(** [Buffer.from(s, 'hex')]: pairs of digits (code units read by their low
    byte) are decoded from the left; the decoding stops, without an error,
    at the first pair that is not two hexadecimal digits, and a trailing
    single character is dropped. *)
Fixpoint hex_decode (s : jsstring) : bytes :=
  match s with
  | c1 :: c2 :: s' =>
      match unhex c1, unhex c2 with
      | Some h, Some l => byte_of_Z (16 * h + l) :: hex_decode s'
      | _, _ => []
      end
  | _ => []
  end.

(* ------------------------------------------------------------------ *)
(** ** Buffer: UTF-8 *)

Definition is_high_surrogate (c : Z) : bool := (0xD800 <=? c) && (c <=? 0xDBFF).
Definition is_low_surrogate (c : Z) : bool := (0xDC00 <=? c) && (c <=? 0xDFFF).

(** The UTF-8 bytes of one code point. *)
Definition utf8_of_code_point (cp : Z) : bytes :=
  if cp <? 0x80 then [byte_of_Z cp]
  else if cp <? 0x800 then
    [byte_of_Z (0xC0 + cp / 64); byte_of_Z (0x80 + cp mod 64)]
  else if cp <? 0x10000 then
    [byte_of_Z (0xE0 + cp / 4096); byte_of_Z (0x80 + (cp / 64) mod 64);
     byte_of_Z (0x80 + cp mod 64)]
  else
    [byte_of_Z (0xF0 + cp / 262144); byte_of_Z (0x80 + (cp / 4096) mod 64);
     byte_of_Z (0x80 + (cp / 64) mod 64); byte_of_Z (0x80 + cp mod 64)].

Definition replacement_bytes : bytes := [xef; xbf; xbd].

(** [Buffer.from(s, 'utf-8')]: a surrogate pair is one code point of four
    bytes; a surrogate that is not part of a pair is written as U+FFFD. *)
Fixpoint utf8_encode (s : jsstring) : bytes :=
  match s with
  | [] => []
  | c :: s' =>
      if is_high_surrogate c then
        match s' with
        | d :: s'' =>
            if is_low_surrogate d then
              utf8_of_code_point (0x10000 + (c - 0xD800) * 1024 + (d - 0xDC00))
                ++ utf8_encode s''
            else replacement_bytes ++ utf8_encode s'
        | [] => replacement_bytes
        end
      else if is_low_surrogate c then replacement_bytes ++ utf8_encode s'
      else utf8_of_code_point c ++ utf8_encode s'
  end.

(** The decoder of the WHATWG Encoding standard, which V8 follows: a state
    machine fed one byte at a time; an ill-formed sequence gives U+FFFD and
    the byte that ended it is read again as the start of a sequence.  The
    standard's [byte & 0x1F] is written [b mod 32], and its
    [(code point << 6) | (byte & 0x3F)] is written [cp * 64 + b mod 64]. *)
Record utf8_state : Type := Utf8State {
  u_cp : Z;
  u_needed : nat;
  u_seen : nat;
  u_lower : Z;
  u_upper : Z
}.

Definition utf8_init : utf8_state := Utf8State 0 0 0 0x80 0xBF.

Definition utf8_lead (b : Z) : utf8_state * list Z :=
  if b <=? 0x7F then (utf8_init, [b])
  else if (0xC2 <=? b) && (b <=? 0xDF) then
    (Utf8State (b mod 32) 1 0 0x80 0xBF, [])
  else if (0xE0 <=? b) && (b <=? 0xEF) then
    (Utf8State (b mod 16) 2 0
       (if b =? 0xE0 then 0xA0 else 0x80) (if b =? 0xED then 0x9F else 0xBF), [])
  else if (0xF0 <=? b) && (b <=? 0xF4) then
    (Utf8State (b mod 8) 3 0
       (if b =? 0xF0 then 0x90 else 0x80) (if b =? 0xF4 then 0x8F else 0xBF), [])
  else (utf8_init, [0xFFFD]).

Definition utf8_step (st : utf8_state) (b : Z) : utf8_state * list Z :=
  match u_needed st with
  | O => utf8_lead b
  | S _ =>
      if (b <? u_lower st) || (u_upper st <? b) then
        let (st', out) := utf8_lead b in (st', 0xFFFD :: out)
      else
        let cp := u_cp st * 64 + b mod 64 in
        if (S (u_seen st) =? u_needed st)%nat then (utf8_init, [cp])
        else (Utf8State cp (u_needed st) (S (u_seen st)) 0x80 0xBF, [])
  end.

Fixpoint utf8_run (st : utf8_state) (b : bytes) : list Z :=
  match b with
  | [] => match u_needed st with O => [] | S _ => [0xFFFD] end
  | x :: b' =>
      let (st', out) := utf8_step st (Z_of_byte x) in
      out ++ utf8_run st' b'
  end.

(** The machine run over a part of the input, with the state it reaches;
    [utf8_run] is this followed by the end-of-input check. *)
Fixpoint utf8_feed (st : utf8_state) (b : list Z) : utf8_state * list Z :=
  match b with
  | [] => (st, [])
  | x :: b' =>
      let (st', out) := utf8_step st x in
      let (st'', out') := utf8_feed st' b' in
      (st'', out ++ out')
  end.

(** The UTF-16 code units of one code point. *)
Definition utf16_of_code_point (cp : Z) : jsstring :=
  if cp <? 0x10000 then [cp]
  else [0xD800 + (cp - 0x10000) / 1024; 0xDC00 + (cp - 0x10000) mod 1024].

(** [buf.toString('utf-8')]. *)
Definition utf8_decode (b : bytes) : jsstring :=
  flat_map utf16_of_code_point (utf8_run utf8_init b).

(* ------------------------------------------------------------------ *)
(** ** Buffer: ascii *)

(** [buf.toString('ascii')] clears the high bit of every byte;
    [Buffer.from(s, 'ascii')] keeps the low byte of every code unit. *)
Definition ascii_decode (b : bytes) : jsstring :=
  List.map (fun x => Z.land (Z_of_byte x) 0x7F) b.

Definition ascii_encode (s : jsstring) : bytes :=
  List.map byte_of_Z s.

(* ------------------------------------------------------------------ *)
(** ** Buffer: base64 *)

Definition base64_char (v : Z) : Z :=
  if v <? 26 then 65 + v
  else if v <? 52 then 97 + (v - 26)
  else if v <? 62 then 48 + (v - 52)
  else if v =? 62 then 43
  else 47.

(** Both the standard and the URL alphabet are read; as for 'hex', a code
    unit is read by its low byte. *)
Definition base64_value (b : Z) : option Z :=
  if (65 <=? b) && (b <=? 90) then Some (b - 65)
  else if (97 <=? b) && (b <=? 122) then Some (b - 97 + 26)
  else if (48 <=? b) && (b <=? 57) then Some (b - 48 + 52)
  else if (b =? 43) || (b =? 45) then Some 62
  else if (b =? 47) || (b =? 95) then Some 63
  else None.

Definition unbase64 (c : Z) : option Z := base64_value (low_byte c).

(** [buf.toString('base64')]: three bytes give four characters, with [=]
    padding. *)
Fixpoint base64_encode (b : bytes) : jsstring :=
  match b with
  | [] => []
  | [x] =>
      let x := Z_of_byte x in
      [base64_char (x / 4); base64_char ((x mod 4) * 16); 61; 61]
  | [x; y] =>
      let x := Z_of_byte x in
      let y := Z_of_byte y in
      [base64_char (x / 4); base64_char ((x mod 4) * 16 + y / 16);
       base64_char ((y mod 16) * 4); 61]
  | x :: y :: z :: b' =>
      let x := Z_of_byte x in
      let y := Z_of_byte y in
      let z := Z_of_byte z in
      base64_char (x / 4) :: base64_char ((x mod 4) * 16 + y / 16)
        :: base64_char ((y mod 16) * 4 + z / 64) :: base64_char (z mod 64)
        :: base64_encode b'
  end.

(** [Buffer.from(s, 'base64')]: characters outside the alphabet are skipped
    and the first [=] ends the input; what remains is read four characters
    at a time, a final group of two or three giving one or two bytes. *)
Fixpoint base64_sextets (s : jsstring) : list Z :=
  match s with
  | [] => []
  | c :: s' =>
      if low_byte c =? 61 then []
      else match unbase64 c with
           | Some v => v :: base64_sextets s'
           | None => base64_sextets s'
           end
  end.

Fixpoint base64_bytes (q : list Z) : bytes :=
  match q with
  | a :: b :: c :: d :: q' =>
      byte_of_Z (a * 4 + b / 16) :: byte_of_Z ((b mod 16) * 16 + c / 4)
        :: byte_of_Z ((c mod 4) * 64 + d) :: base64_bytes q'
  | [a; b; c] => [byte_of_Z (a * 4 + b / 16); byte_of_Z ((b mod 16) * 16 + c / 4)]
  | [a; b] => [byte_of_Z (a * 4 + b / 16)]
  | _ => []
  end.

Definition base64_decode (s : jsstring) : bytes :=
  base64_bytes (base64_sextets s).

(* ------------------------------------------------------------------ *)
(** ** Buffer.from(string, encoding) and buf.toString(encoding) *)

Definition Buffer_from (s : jsstring) (enc : Encoding) : bytes :=
  match enc with
  | Hex => hex_decode s
  | Utf8 => utf8_encode s
  | Ascii => ascii_encode s
  | Base64 => base64_decode s
  end.

Definition Buffer_toString (b : bytes) (enc : Encoding) : jsstring :=
  match enc with
  | Hex => hex_encode b
  | Utf8 => utf8_decode b
  | Ascii => ascii_decode b
  | Base64 => base64_encode b
  end.

(* ------------------------------------------------------------------ *)
(** ** WebCrypto: the SHA family (FIPS 180-4) *)

Inductive HashAlg : Type := SHA1 | SHA256 | SHA384 | SHA512.

(** Big-endian words. *)
Fixpoint be_to_Z (acc : Z) (b : bytes) : Z :=
  match b with
  | [] => acc
  | x :: b' => be_to_Z (acc * 256 + Z_of_byte x) b'
  end.

Fixpoint Z_to_be (n : nat) (z : Z) : bytes :=
  match n with
  | O => []
  | S n' => byte_of_Z (z / 256 ^ Z.of_nat n') :: Z_to_be n' z
  end.

(** [chunks n fuel l]: [l] cut into pieces of [n] elements. *)
Fixpoint chunks {A} (n : nat) (fuel : nat) (l : list A) : list (list A) :=
  match fuel, l with
  | O, _ | _, [] => []
  | S fuel', _ => firstn n l :: chunks n fuel' (skipn n l)
  end.

Definition words_of (wbytes : nat) (b : bytes) : list Z :=
  List.map (be_to_Z 0) (chunks wbytes (length b) b).

(** Padding: the bit 1, zeros, and the bit length of the message in a
    field of [lenbytes] bytes, up to a multiple of [block] bytes. *)
Definition sha_pad (block lenbytes : nat) (m : bytes) : bytes :=
  let used := ((length m + 1 + lenbytes) mod block)%nat in
  let zeros := (if used =? 0 then 0 else block - used)%nat in
  m ++ x80 :: repeat x00 zeros ++ Z_to_be lenbytes (8 * Z.of_nat (length m)).

Section Words.
Variable w : Z.

(** [wmask x] is [x mod 2 ^ w], the wrap-around of [w]-bit arithmetic. *)
Definition wmask (x : Z) : Z := Z.land x (Z.ones w).
Definition wadd (x y : Z) : Z := wmask (x + y).
Definition rotr (n x : Z) : Z :=
  Z.lor (Z.shiftr x n) (wmask (Z.shiftl x (w - n))).
Definition rotl (n x : Z) : Z := rotr (w - n) x.
Definition wnot (x : Z) : Z := Z.lxor x (Z.ones w).
End Words.

Definition Ch (w x y z : Z) : Z :=
  Z.lxor (Z.land x y) (Z.land (wnot w x) z).
Definition Maj (x y z : Z) : Z :=
  Z.lxor (Z.lxor (Z.land x y) (Z.land x z)) (Z.land y z).

(** The message schedule is kept as a window of the last sixteen words,
    whose head is the word of the current round. *)
Definition nthZ (l : list Z) (i : nat) : Z := nth i l 0.

(** *** SHA-1 *)

Definition sha1_iv : Z * Z * Z * Z * Z :=
  (0x67452301, 0xEFCDAB89, 0x98BADCFE, 0x10325476, 0xC3D2E1F0).

Definition sha1_f (t : nat) (b c d : Z) : Z :=
  if (t <? 20)%nat then Ch 32 b c d
  else if (t <? 40)%nat then Z.lxor (Z.lxor b c) d
  else if (t <? 60)%nat then Maj b c d
  else Z.lxor (Z.lxor b c) d.

Definition sha1_k (t : nat) : Z :=
  if (t <? 20)%nat then 0x5A827999
  else if (t <? 40)%nat then 0x6ED9EBA1
  else if (t <? 60)%nat then 0x8F1BBCDC
  else 0xCA62C1D6.

Definition sha1_round (st : (Z * Z * Z * Z * Z) * list Z) (t : nat)
  : (Z * Z * Z * Z * Z) * list Z :=
  let '((a, b, c, d, e), win) := st in
  let wt := nthZ win 0 in
  let next := rotl 32 1 (Z.lxor (Z.lxor (Z.lxor (nthZ win 13) (nthZ win 8))
                                         (nthZ win 2)) (nthZ win 0)) in
  let tmp := wadd 32 (wadd 32 (wadd 32 (wadd 32 (rotl 32 5 a) (sha1_f t b c d)) e)
                            (sha1_k t)) wt in
  ((tmp, a, rotl 32 30 b, c, d), tl win ++ [next]).

Definition sha1_block (h : Z * Z * Z * Z * Z) (blk : bytes) : Z * Z * Z * Z * Z :=
  let '(h0, h1, h2, h3, h4) := h in
  let '((a, b, c, d, e), _) :=
    fold_left sha1_round (seq 0 80) (h, words_of 4 blk) in
  (wadd 32 h0 a, wadd 32 h1 b, wadd 32 h2 c, wadd 32 h3 d, wadd 32 h4 e).

Definition sha1 (m : bytes) : bytes :=
  let p := sha_pad 64 8 m in
  let '(h0, h1, h2, h3, h4) :=
    fold_left sha1_block (chunks 64 (length p) p) sha1_iv in
  Z_to_be 4 h0 ++ Z_to_be 4 h1 ++ Z_to_be 4 h2 ++ Z_to_be 4 h3 ++ Z_to_be 4 h4.

(** *** SHA-2 *)

(** The round constants are the fractional parts of the cube roots of the
    first primes, the initial values those of square roots. *)
Fixpoint icbrt_bits (n : Z) (bit : nat) (r : Z) : Z :=
  match bit with
  | O => r
  | S bit' =>
      let r' := r + 2 ^ Z.of_nat bit' in
      icbrt_bits n bit' (if r' * r' * r' <=? n then r' else r)
  end.

Definition icbrt (n : Z) : Z := icbrt_bits n 80 0.

Definition primes80 : list Z :=
  [2; 3; 5; 7; 11; 13; 17; 19; 23; 29; 31; 37; 41; 43; 47; 53; 59; 61; 67; 71;
   73; 79; 83; 89; 97; 101; 103; 107; 109; 113; 127; 131; 137; 139; 149; 151;
   157; 163; 167; 173; 179; 181; 191; 193; 197; 199; 211; 223; 227; 229; 233;
   239; 241; 251; 257; 263; 269; 271; 277; 281; 283; 293; 307; 311; 313; 317;
   331; 337; 347; 349; 353; 359; 367; 373; 379; 383; 389; 397; 401; 409].

Definition cube_root_fraction (w : Z) (p : Z) : Z :=
  icbrt (p * 2 ^ (3 * w)) mod 2 ^ w.
Definition square_root_fraction (w : Z) (p : Z) : Z :=
  Z.sqrt (p * 2 ^ (2 * w)) mod 2 ^ w.

Definition K256 : list Z :=
  Eval vm_compute in List.map (cube_root_fraction 32) (firstn 64 primes80).
Definition K512 : list Z :=
  Eval vm_compute in List.map (cube_root_fraction 64) primes80.
Definition IV256 : list Z :=
  Eval vm_compute in List.map (square_root_fraction 32) (firstn 8 primes80).
Definition IV512 : list Z :=
  Eval vm_compute in List.map (square_root_fraction 64) (firstn 8 primes80).
Definition IV384 : list Z :=
  Eval vm_compute in
    List.map (square_root_fraction 64) (firstn 8 (skipn 8 primes80)).

Record sha2_params : Type := Sha2Params {
  p_w : Z;                     (* word size in bits *)
  p_K : list Z;                (* one constant per round *)
  p_IV : list Z;
  p_Sigma0 : Z * Z * Z;        (* three rotations *)
  p_Sigma1 : Z * Z * Z;
  p_sigma0 : Z * Z * Z;        (* two rotations and a shift *)
  p_sigma1 : Z * Z * Z;
  p_out : nat                  (* bytes of output *)
}.

Definition sha256_params : sha2_params :=
  Sha2Params 32 K256 IV256 (2, 13, 22) (6, 11, 25) (7, 18, 3) (17, 19, 10) 32.
Definition sha512_params : sha2_params :=
  Sha2Params 64 K512 IV512 (28, 34, 39) (14, 18, 41) (1, 8, 7) (19, 61, 6) 64.
Definition sha384_params : sha2_params :=
  Sha2Params 64 K512 IV384 (28, 34, 39) (14, 18, 41) (1, 8, 7) (19, 61, 6) 48.

Section SHA2.
Variable P : sha2_params.
Let w := p_w P.
Let wbytes := Z.to_nat (w / 8).

Definition big_sigma (r : Z * Z * Z) (x : Z) : Z :=
  let '(i, j, k) := r in
  Z.lxor (Z.lxor (rotr w i x) (rotr w j x)) (rotr w k x).
Definition small_sigma (r : Z * Z * Z) (x : Z) : Z :=
  let '(i, j, k) := r in
  Z.lxor (Z.lxor (rotr w i x) (rotr w j x)) (Z.shiftr x k).

Definition sha2_state : Type := (Z * Z * Z * Z * Z * Z * Z * Z)%type.

Definition sha2_round (st : sha2_state * list Z) (k : Z) : sha2_state * list Z :=
  let '((a, b, c, d, e, f, g, h), win) := st in
  let wt := nthZ win 0 in
  let next := wadd w (wadd w (wadd w (small_sigma (p_sigma1 P) (nthZ win 14))
                                     (nthZ win 9))
                             (small_sigma (p_sigma0 P) (nthZ win 1)))
                     (nthZ win 0) in
  let t1 := wadd w (wadd w (wadd w (wadd w h (big_sigma (p_Sigma1 P) e))
                                   (Ch w e f g)) k) wt in
  let t2 := wadd w (big_sigma (p_Sigma0 P) a) (Maj a b c) in
  ((wadd w t1 t2, a, b, c, wadd w d t1, e, f, g), tl win ++ [next]).

Definition sha2_block (hs : sha2_state) (blk : bytes) : sha2_state :=
  let '(h0, h1, h2, h3, h4, h5, h6, h7) := hs in
  let '((a, b, c, d, e, f, g, h), _) :=
    fold_left sha2_round (p_K P) (hs, words_of wbytes blk) in
  (wadd w h0 a, wadd w h1 b, wadd w h2 c, wadd w h3 d,
   wadd w h4 e, wadd w h5 f, wadd w h6 g, wadd w h7 h).

Definition sha2_init : sha2_state :=
  let iv := p_IV P in
  (nthZ iv 0, nthZ iv 1, nthZ iv 2, nthZ iv 3,
   nthZ iv 4, nthZ iv 5, nthZ iv 6, nthZ iv 7).

Definition sha2 (m : bytes) : bytes :=
  let block := (16 * wbytes)%nat in
  let p := sha_pad block (2 * wbytes) m in
  let '(h0, h1, h2, h3, h4, h5, h6, h7) :=
    fold_left sha2_block (chunks block (length p) p) sha2_init in
  firstn (p_out P)
    (Z_to_be wbytes h0 ++ Z_to_be wbytes h1 ++ Z_to_be wbytes h2
       ++ Z_to_be wbytes h3 ++ Z_to_be wbytes h4 ++ Z_to_be wbytes h5
       ++ Z_to_be wbytes h6 ++ Z_to_be wbytes h7).
End SHA2.

(** The digest of a message under one of the four algorithms. *)
Definition subtle_digest (h : HashAlg) (m : bytes) : bytes :=
  match h with
  | SHA1 => sha1 m
  | SHA256 => sha2 sha256_params m
  | SHA384 => sha2 sha384_params m
  | SHA512 => sha2 sha512_params m
  end.

Definition hash_length (h : HashAlg) : nat :=
  match h with SHA1 => 20 | SHA256 => 32 | SHA384 => 48 | SHA512 => 64 end.

Definition hash_block_length (h : HashAlg) : nat :=
  match h with SHA1 | SHA256 => 64 | SHA384 | SHA512 => 128 end.

(** The caller names a hash by a string, which the package passes on
    unchecked.  WebCrypto normalises the name: it matches a registered name
    without regard to the case of the letters a-z, and any other name is
    rejected with a [NotSupportedError]. *)
Definition ascii_upper (c : Z) : Z :=
  if (97 <=? c) && (c <=? 122) then c - 32 else c.

Fixpoint code_units_eqb (a b : jsstring) : bool :=
  match a, b with
  | [], [] => true
  | x :: a', y :: b' => (x =? y) && code_units_eqb a' b'
  | _, _ => false
  end.

Definition normalize_hash (name : jsstring) : result HashAlg :=
  let n := List.map ascii_upper name in
  if code_units_eqb n (js "SHA-1") then Ok SHA1
  else if code_units_eqb n (js "SHA-256") then Ok SHA256
  else if code_units_eqb n (js "SHA-384") then Ok SHA384
  else if code_units_eqb n (js "SHA-512") then Ok SHA512
  else Throw NotSupportedError.

(** [crypto.subtle.digest(algorithm, data)]. *)
Definition crypto_subtle_digest (algorithm : jsstring) (data : buffer) : result buffer :=
  let* h := normalize_hash algorithm in
  Ok (ArrayBuffer (subtle_digest h (contents data))).

(* ------------------------------------------------------------------ *)
(** ** WebCrypto: HMAC (RFC 2104) and PBKDF2 (RFC 8018) *)

(** Exclusive or of two bytes, bit by bit (least significant bit first). *)
Definition bxor (a b : byte) : byte :=
  let '(a0, (a1, (a2, (a3, (a4, (a5, (a6, a7))))))) := Byte.to_bits a in
  let '(b0, (b1, (b2, (b3, (b4, (b5, (b6, b7))))))) := Byte.to_bits b in
  Byte.of_bits
    (xorb a0 b0, (xorb a1 b1, (xorb a2 b2, (xorb a3 b3,
      (xorb a4 b4, (xorb a5 b5, (xorb a6 b6, xorb a7 b7))))))).

Fixpoint xor_bytes (a b : bytes) : bytes :=
  match a, b with
  | x :: a', y :: b' => bxor x y :: xor_bytes a' b'
  | _, _ => []
  end.

Definition hmac (h : HashAlg) (key msg : bytes) : bytes :=
  let B := hash_block_length h in
  let k0 := if (B <? length key)%nat then subtle_digest h key else key in
  let k := k0 ++ repeat x00 (B - length k0) in
  let ipad := xor_bytes k (repeat x36 B) in
  let opad := xor_bytes k (repeat x5c B) in
  subtle_digest h (opad ++ subtle_digest h (ipad ++ msg)).

(** [pbkdf2_iter h p u acc n]: [n] further applications of the PRF, each
    folded into the accumulator. *)
Fixpoint pbkdf2_iter (h : HashAlg) (password u acc : bytes) (n : nat) : bytes :=
  match n with
  | O => acc
  | S n' =>
      let u' := hmac h password u in
      pbkdf2_iter h password u' (xor_bytes acc u') n'
  end.

(** The block [T_i] for an iteration count [c] of at least one. *)
Definition pbkdf2_block (h : HashAlg) (password salt : bytes) (c : nat) (i : nat) : bytes :=
  let u1 := hmac h password (salt ++ Z_to_be 4 (Z.of_nat i)) in
  pbkdf2_iter h password u1 u1 (c - 1).

Definition pbkdf2 (h : HashAlg) (password salt : bytes) (c : nat) (dkLen : nat) : bytes :=
  let hLen := hash_length h in
  let blocks := ((dkLen + hLen - 1) / hLen)%nat in
  firstn dkLen
    (flat_map (pbkdf2_block h password salt c) (seq 1 blocks)).

(* ------------------------------------------------------------------ *)
(** ** WebCrypto: AES (FIPS 197) in CBC mode (SP 800-38A) with PKCS#7 padding *)

(** Arithmetic in GF(2^8) modulo x^8 + x^4 + x^3 + x + 1.  [xtime] is the
    multiplication by x: a shift to the left, and 0x1b added when the bit
    shifted out is set. *)
Definition xtime (a : byte) : byte :=
  let '(a0, (a1, (a2, (a3, (a4, (a5, (a6, a7))))))) := Byte.to_bits a in
  Byte.of_bits
    (a7, (xorb a0 a7, (a1, (xorb a2 a7, (xorb a3 a7, (a4, (a5, a6))))))).

Definition sel (c : bool) (x : byte) : byte := if c then x else x00.

(** [gmul a b]: the sum of [a x^i] over the bits [i] set in [b]. *)
Definition gmul (a b : byte) : byte :=
  let '(b0, (b1, (b2, (b3, (b4, (b5, (b6, b7))))))) := Byte.to_bits b in
  let a1 := xtime a in
  let a2 := xtime a1 in
  let a3 := xtime a2 in
  let a4 := xtime a3 in
  let a5 := xtime a4 in
  let a6 := xtime a5 in
  let a7 := xtime a6 in
  bxor (sel b0 a) (bxor (sel b1 a1) (bxor (sel b2 a2) (bxor (sel b3 a3)
    (bxor (sel b4 a4) (bxor (sel b5 a5) (bxor (sel b6 a6) (sel b7 a7))))))).

(** The multiplicative inverse, [b ^ 254], with [0] mapped to [0]. *)
Definition gf_inv (b : byte) : byte :=
  let b2 := gmul b b in
  let b4 := gmul b2 b2 in
  let b8 := gmul b4 b4 in
  let b16 := gmul b8 b8 in
  let b32 := gmul b16 b16 in
  let b64 := gmul b32 b32 in
  let b128 := gmul b64 b64 in
  gmul b2 (gmul b4 (gmul b8 (gmul b16 (gmul b32 (gmul b64 b128))))).

Definition rotl8 (n : Z) (b : byte) : byte :=
  let z := Z_of_byte b in
  byte_of_Z (Z.lor (Z.shiftl z n) (Z.shiftr z (8 - n))).

Definition sbox_affine (b : byte) : byte :=
  bxor (bxor (bxor (bxor (bxor b (rotl8 1 b)) (rotl8 2 b)) (rotl8 3 b)) (rotl8 4 b)) x63.

Definition sbox_affine_inv (b : byte) : byte :=
  bxor (bxor (bxor (rotl8 1 b) (rotl8 3 b)) (rotl8 6 b)) x05.

Definition all_bytes : bytes :=
  Eval vm_compute in List.map (fun n => byte_of_Z (Z.of_nat n)) (seq 0 256).

Definition sbox_table : bytes :=
  Eval vm_compute in List.map (fun b => sbox_affine (gf_inv b)) all_bytes.
Definition inv_sbox_table : bytes :=
  Eval vm_compute in List.map (fun b => gf_inv (sbox_affine_inv b)) all_bytes.

Definition sbox (b : byte) : byte := nth (Byte.to_nat b) sbox_table x00.
Definition inv_sbox (b : byte) : byte := nth (Byte.to_nat b) inv_sbox_table x00.

(** The state is four columns of four bytes; byte [r + 4 c] of a block is
    row [r] of column [c]. *)
Definition column : Type := (byte * byte * byte * byte)%type.
Definition block : Type := (column * column * column * column)%type.

Definition block_of_bytes (l : bytes) : block :=
  let n i := nth i l x00 in
  ((n 0, n 1, n 2, n 3), (n 4, n 5, n 6, n 7),
   (n 8, n 9, n 10, n 11), (n 12, n 13, n 14, n 15))%nat.

Definition bytes_of_column (c : column) : bytes :=
  let '(a, b, c, d) := c in [a; b; c; d].

Definition bytes_of_block (s : block) : bytes :=
  let '(c0, c1, c2, c3) := s in
  bytes_of_column c0 ++ bytes_of_column c1 ++ bytes_of_column c2 ++ bytes_of_column c3.

Definition map_column (f : byte -> byte) (c : column) : column :=
  let '(a, b, c, d) := c in (f a, f b, f c, f d).

Definition map_block (f : column -> column) (s : block) : block :=
  let '(c0, c1, c2, c3) := s in (f c0, f c1, f c2, f c3).

Definition xor_column (x y : column) : column :=
  let '(a, b, c, d) := x in
  let '(a', b', c', d') := y in
  (bxor a a', bxor b b', bxor c c', bxor d d').

Definition xor_block (x y : block) : block :=
  let '(x0, x1, x2, x3) := x in
  let '(y0, y1, y2, y3) := y in
  (xor_column x0 y0, xor_column x1 y1, xor_column x2 y2, xor_column x3 y3).

Definition sub_bytes : block -> block := map_block (map_column sbox).
Definition inv_sub_bytes : block -> block := map_block (map_column inv_sbox).

(** Row [r] is rotated [r] places to the left. *)
Definition shift_rows (s : block) : block :=
  let '((a0, a1, a2, a3), (b0, b1, b2, b3), (c0, c1, c2, c3), (d0, d1, d2, d3)) := s in
  ((a0, b1, c2, d3), (b0, c1, d2, a3), (c0, d1, a2, b3), (d0, a1, b2, c3)).

Definition inv_shift_rows (s : block) : block :=
  let '((a0, a1, a2, a3), (b0, b1, b2, b3), (c0, c1, c2, c3), (d0, d1, d2, d3)) := s in
  ((a0, d1, c2, b3), (b0, a1, d2, c3), (c0, b1, a2, d3), (d0, c1, b2, a3)).

Definition x4 (a b c d : byte) : byte := bxor (bxor (bxor a b) c) d.

Definition mix_column (c : column) : column :=
  let '(a0, a1, a2, a3) := c in
  (x4 (gmul a0 x02) (gmul a1 x03) a2 a3,
   x4 a0 (gmul a1 x02) (gmul a2 x03) a3,
   x4 a0 a1 (gmul a2 x02) (gmul a3 x03),
   x4 (gmul a0 x03) a1 a2 (gmul a3 x02)).

Definition inv_mix_column (c : column) : column :=
  let '(a0, a1, a2, a3) := c in
  (x4 (gmul a0 x0e) (gmul a1 x0b) (gmul a2 x0d) (gmul a3 x09),
   x4 (gmul a0 x09) (gmul a1 x0e) (gmul a2 x0b) (gmul a3 x0d),
   x4 (gmul a0 x0d) (gmul a1 x09) (gmul a2 x0e) (gmul a3 x0b),
   x4 (gmul a0 x0b) (gmul a1 x0d) (gmul a2 x09) (gmul a3 x0e)).

Definition mix_columns : block -> block := map_block mix_column.
Definition inv_mix_columns : block -> block := map_block inv_mix_column.

(** Key expansion: [Nk] words of key give [4 (Nr + 1)] words, with
    [Nr = Nk + 6]. *)
Definition rot_word (c : column) : column :=
  let '(a, b, c, d) := c in (b, c, d, a).

Fixpoint rcon (i : nat) : byte :=
  match i with
  | O | S O => x01
  | S i' => xtime (rcon i')
  end.

Definition zero_column : column := (x00, x00, x00, x00).

Definition expand_step (Nk : nat) (ws : list column) (i : nat) : list column :=
  let prev := nth (i - 1) ws zero_column in
  let temp :=
    if (i mod Nk =? 0)%nat then
      xor_column (map_column sbox (rot_word prev)) (rcon (i / Nk), x00, x00, x00)
    else if (6 <? Nk)%nat && (i mod Nk =? 4)%nat then map_column sbox prev
    else prev in
  ws ++ [xor_column (nth (i - Nk) ws zero_column) temp].

Definition column_of_bytes (l : bytes) : column :=
  (nth 0 l x00, nth 1 l x00, nth 2 l x00, nth 3 l x00)%nat.

Fixpoint group_columns (ws : list column) : list block :=
  match ws with
  | a :: b :: c :: d :: ws' => (a, b, c, d) :: group_columns ws'
  | _ => []
  end.

Definition key_expansion (key : bytes) : list block :=
  let Nk := (length key / 4)%nat in
  let w0 := List.map column_of_bytes (chunks 4 Nk key) in
  group_columns (fold_left (expand_step Nk) (seq Nk (4 * (Nk + 7) - Nk)) w0).

(** The cipher and its inverse over a list of round keys. *)
Fixpoint rounds (rks : list block) (s : block) : block :=
  match rks with
  | [] => s
  | [k] => xor_block (shift_rows (sub_bytes s)) k
  | k :: rks' => rounds rks' (xor_block (mix_columns (shift_rows (sub_bytes s))) k)
  end.

Definition cipher (rks : list block) (s : block) : block :=
  match rks with
  | [] => s
  | k0 :: rks' => rounds rks' (xor_block s k0)
  end.

Fixpoint inv_rounds (rks : list block) (s : block) : block :=
  match rks with
  | [] => s
  | [k] => inv_sub_bytes (inv_shift_rows (xor_block s k))
  | k :: rks' =>
      inv_sub_bytes (inv_shift_rows (inv_mix_columns (xor_block (inv_rounds rks' s) k)))
  end.

Definition inv_cipher (rks : list block) (s : block) : block :=
  match rks with
  | [] => s
  | k0 :: rks' => xor_block (inv_rounds rks' s) k0
  end.

(** CBC chaining. *)
Fixpoint cbc_encrypt_blocks (rks : list block) (prev : block) (ps : list block) : list block :=
  match ps with
  | [] => []
  | p :: ps' =>
      let c := cipher rks (xor_block p prev) in
      c :: cbc_encrypt_blocks rks c ps'
  end.

Fixpoint cbc_decrypt_blocks (rks : list block) (prev : block) (cs : list block) : list block :=
  match cs with
  | [] => []
  | c :: cs' => xor_block (inv_cipher rks c) prev :: cbc_decrypt_blocks rks c cs'
  end.

Definition pkcs7_pad (m : bytes) : bytes :=
  let n := (16 - length m mod 16)%nat in
  m ++ repeat (byte_of_Z (Z.of_nat n)) n.

Definition pkcs7_unpad (m : bytes) : result bytes :=
  let p := Byte.to_nat (last m x00) in
  if (p =? 0)%nat || (16 <? p)%nat || (length m <? p)%nat then Throw OperationError
  else if forallb (Byte.eqb (last m x00)) (skipn (length m - p) m)
       then Ok (firstn (length m - p) m)
       else Throw OperationError.

Definition blocks_of_bytes (b : bytes) : list block :=
  List.map block_of_bytes (chunks 16 (length b) b).

Definition aes_cbc_encrypt (key iv plaintext : bytes) : bytes :=
  flat_map bytes_of_block
    (cbc_encrypt_blocks (key_expansion key) (block_of_bytes iv)
       (blocks_of_bytes (pkcs7_pad plaintext))).

Definition aes_cbc_decrypt (key iv ciphertext : bytes) : result bytes :=
  if (length ciphertext =? 0)%nat || negb (length ciphertext mod 16 =? 0)%nat
  then Throw OperationError
  else
    pkcs7_unpad
      (flat_map bytes_of_block
         (cbc_decrypt_blocks (key_expansion key) (block_of_bytes iv)
            (blocks_of_bytes ciphertext))).

(* ------------------------------------------------------------------ *)
(** ** WebCrypto: numbers, keys and the [crypto.subtle] entry points *)

(** A finite JavaScript number, as far as the package computes with one
    ([keyLengthByte * 8], [iterations / 2]), is a rational. *)
Definition number := Q.

(** WebIDL: the integer part of a number, and its conversion to an
    [unsigned long], with and without [EnforceRange]. *)
Definition IntegerPart (x : number) : Z := Z.quot (Qnum x) (Z.pos (Qden x)).

Definition enforce_range_unsigned_long (x : number) : result Z :=
  let z := IntegerPart x in
  if (z <? 0) || (2 ^ 32 - 1 <? z) then Throw (TypeError "unsigned long")
  else Ok z.

Definition to_unsigned_long (x : number) : Z := IntegerPart x mod 2 ^ 32.

Inductive KeyAlgorithm : Type := PBKDF2 | AES_CBC.
Inductive KeyUsage : Type := deriveBits_usage | encrypt_usage | decrypt_usage.

Definition usage_eqb (a b : KeyUsage) : bool :=
  match a, b with
  | deriveBits_usage, deriveBits_usage
  | encrypt_usage, encrypt_usage
  | decrypt_usage, decrypt_usage => true
  | _, _ => false
  end.

Definition algorithm_eqb (a b : KeyAlgorithm) : bool :=
  match a, b with
  | PBKDF2, PBKDF2 | AES_CBC, AES_CBC => true
  | _, _ => false
  end.

Record CryptoKey : Type := MkCryptoKey {
  key_algorithm : KeyAlgorithm;
  key_extractable : bool;
  key_usages : list KeyUsage;
  key_data : bytes
}.

(** [crypto.subtle.importKey("raw", keyData, algorithm, extractable, usages)]
    for the two algorithms the package names.  A raw AES key must be of 128,
    192 or 256 bits; a PBKDF2 password may be of any length. *)
Definition importKey (keyData : buffer) (algorithm : KeyAlgorithm)
    (extractable : bool) (usages : list KeyUsage) : result CryptoKey :=
  let k := contents keyData in
  match algorithm with
  | PBKDF2 => Ok (MkCryptoKey PBKDF2 extractable usages k)
  | AES_CBC =>
      if (length k =? 16)%nat || (length k =? 24)%nat || (length k =? 32)%nat
      then Ok (MkCryptoKey AES_CBC extractable usages k)
      else Throw DataError
  end.

Definition check_key (k : CryptoKey) (alg : KeyAlgorithm) (u : KeyUsage) : result unit :=
  if algorithm_eqb (key_algorithm k) alg && existsb (usage_eqb u) (key_usages k)
  then Ok tt else Throw InvalidAccessError.

Record Pbkdf2Params : Type := MkPbkdf2Params {
  pbkdf2_hash : jsstring;
  pbkdf2_salt : buffer;
  pbkdf2_iterations : number
}.

(** [crypto.subtle.deriveBits({name: "PBKDF2", ...}, baseKey, length)].  The
    parameters are converted and the hash normalised before the key is
    looked at; a length that is not a multiple of 8 and an iteration count
    of zero are refused, a length of zero gives an empty buffer. *)
Definition deriveBits (params : Pbkdf2Params) (baseKey : CryptoKey) (length : number)
  : result buffer :=
  let* iterations := enforce_range_unsigned_long (pbkdf2_iterations params) in
  let* hash := normalize_hash (pbkdf2_hash params) in
  let len := to_unsigned_long length in
  let* _ := check_key baseKey PBKDF2 deriveBits_usage in
  if negb (len mod 8 =? 0) || (iterations =? 0) then Throw OperationError
  else
    Ok (ArrayBuffer
          (pbkdf2 hash (key_data baseKey)
             (contents (pbkdf2_salt params)) (Z.to_nat iterations) (Z.to_nat (len / 8)))).

(** [crypto.subtle.encrypt({name: "AES-CBC", iv}, key, data)] and
    [crypto.subtle.decrypt]: the length of the iv is checked when the
    parameters are normalised, before the key is looked at. *)
Definition subtle_encrypt (iv : buffer) (key : CryptoKey) (plaintext : buffer)
  : result buffer :=
  if negb (byteLength iv =? 16)%nat then Throw OperationError
  else
    let* _ := check_key key AES_CBC encrypt_usage in
    Ok (ArrayBuffer (aes_cbc_encrypt (key_data key) (contents iv) (contents plaintext))).

Definition subtle_decrypt (iv : buffer) (key : CryptoKey) (ciphertext : buffer)
  : result buffer :=
  if negb (byteLength iv =? 16)%nat then Throw OperationError
  else
    let* _ := check_key key AES_CBC decrypt_usage in
    let* p := aes_cbc_decrypt (key_data key) (contents iv) (contents ciphertext) in
    Ok (ArrayBuffer p).

(** The random source: the sequence of bytes that the successive calls of
    [crypto.getRandomValues] will deliver. *)
Definition random_source : Type := nat -> byte.

Definition getRandomValues (n : nat) (rnd : random_source) : bytes * random_source :=
  (List.map rnd (seq 0 n), fun i => rnd (n + i)%nat).

(** [ab.slice(begin, end)] and [ab.slice(-n)] of an [ArrayBuffer]. *)
Definition slice (b : buffer) (first final : nat) : buffer :=
  ArrayBuffer (firstn (final - first) (skipn first (contents b))).

Definition slice_last (b : buffer) (n : nat) : buffer :=
  ArrayBuffer (skipn (byteLength b - n) (contents b)).

(** [typedArray[i] = v]: a write outside the array is ignored. *)
Fixpoint set_index (arr : bytes) (i : nat) (v : byte) : bytes :=
  match arr, i with
  | [], _ => []
  | _ :: arr', O => v :: arr'
  | x :: arr', S i' => x :: set_index arr' i' v
  end.

End Platform.

Import Platform.

Definition default {A} (d : A) (o : option A) : A :=
  match o with Some a => a | None => d end.

(** Key material as the package passes it around: [{key, iv, secretSalt}].
    An object without [secretSalt] (what [generateSecretKey] of
    [src/crypto.js] returns) has [None] there. *)
Record KeyObject : Type := MkKeyObject {
  key : CryptoKey;
  iv : buffer;
  secretSalt : option data
}.

Record Document : Type := MkDocument {
  pointer : jsstring;
  doc_data : data
}.

(** The index table is a plain object whose keys are trapdoors.  Its own
    properties are kept in insertion order; the keys are hexadecimal digests
    of 64 characters, which are neither array indices nor names of
    [Object.prototype], so that [indexTable[t]] reads an own property. *)
Definition IndexTable : Type := list (jsstring * list jsstring).

Definition jsstring_eqb (a b : jsstring) : bool :=
  if list_eq_dec Z.eq_dec a b then true else false.

Fixpoint lookup (t : IndexTable) (k : jsstring) : option (list jsstring) :=
  match t with
  | [] => None
  | (k', v) :: t' => if jsstring_eqb k k' then Some v else lookup t' k
  end.

(** [indexTable[k].push(p)] on an existing entry. *)
Fixpoint push (t : IndexTable) (k : jsstring) (p : jsstring) : IndexTable :=
  match t with
  | [] => []
  | (k', v) :: t' =>
      if jsstring_eqb k k' then (k', v ++ [p]) :: t' else (k', v) :: push t' k p
  end.

(** [s.split(" ")]: the pieces between single spaces; never empty. *)
Fixpoint split_spaces (cur : jsstring) (s : jsstring) : list jsstring :=
  match s with
  | [] => [rev cur]
  | c :: s' => if c =? 32 then rev cur :: split_spaces [] s' else split_spaces (c :: cur) s'
  end.

(** [new Set(l)]: the distinct elements in order of first occurrence. *)
Definition new_Set (l : list jsstring) : list jsstring :=
  fold_left (fun acc x => if existsb (jsstring_eqb x) acc then acc else acc ++ [x]) l [].

(* ================================================================== *)
(** * The package ([index.js], the second part of [src/README.md]) *)

Module Main.

(** [str2ab(string, encoding = "hex")]. *)
Definition str2ab (string : jsstring) (encoding : option Encoding) : buffer :=
  let bufferObject := Buffer_from string (default Hex encoding) in
  let typedArray := repeat x00 (length bufferObject) in
  Uint8Array
    (fold_left (fun typedArray i => set_index typedArray i (nth i bufferObject x00))
       (seq 0 (length bufferObject)) typedArray).

(** [ab2str(arrayBuffer, encoding = "hex")]. *)
Definition ab2str (arrayBuffer : buffer) (encoding : option Encoding) : jsstring :=
  Buffer_toString (contents arrayBuffer) (default Hex encoding).

(** [abConcat(...buffers)]. *)
Definition abConcat (buffers : list buffer) : result buffer :=
  let result0 :=
    repeat x00 (fold_left (fun totalSize buf => totalSize + byteLength buf)%nat buffers 0%nat) in
  let* (res, _) :=
    fold_left
      (fun acc buffer =>
         let* (res, offset) := acc in
         let* res' := typed_array_set res buffer offset in
         Ok (res', (offset + byteLength buffer)%nat))
      buffers (Ok (result0, 0%nat)) in
  Ok (Uint8Array res).

Record DigestOptions : Type := MkDigestOptions {
  digest_hash : option jsstring;
  digest_salt : option data
}.

Definition no_options : DigestOptions := MkDigestOptions None None.
Definition salt_option (salt : option data) : DigestOptions := MkDigestOptions None salt.

(** [digest(data, options = {})]. *)
Definition digest (d : data) (options : DigestOptions) : result jsstring :=
  let hash := default (js "SHA-256") (digest_hash options) in
  let salt := default (Str (js "DEFAULT-SALT")) (digest_salt options) in
  let saltBuffer := match salt with Str s => str2ab s (Some Utf8) | Buf b => b end in
  let dataBuffer := match d with Str s => str2ab s (Some Utf8) | Buf b => b end in
  let* cat := abConcat [dataBuffer; saltBuffer] in
  let* hashBuffer := crypto_subtle_digest hash cat in
  Ok (ab2str hashBuffer None).

(** [trapdoor(query, secretKey)]. *)
Definition trapdoor (query : data) (secretKey : KeyObject) : result jsstring :=
  digest query (salt_option (secretSalt secretKey)).

(** The fallback of [buildIndex]: [(e) => new Set(e.split(" "))]. *)
Definition default_getKeywords (e : data) : result (list data) :=
  match e with
  | Str s => Ok (List.map Str (new_Set (split_spaces [] s)))
  | Buf _ => Throw (TypeError "e.split is not a function")
  end.

(** Lines 151-152: the extractor that the loop of [buildIndex] calls.  The
    fallback is installed only when no function was passed and the data of
    the first document is a string; otherwise [getKeywords] stays as it was
    passed, possibly [undefined]. *)
Definition resolve_getKeywords (documents : list Document)
    (getKeywords : option (data -> list data)) : option (data -> result (list data)) :=
  match getKeywords with
  | Some f => Some (fun e => Ok (f e))
  | None =>
      match documents with
      | doc :: _ => if is_string (doc_data doc) then Some default_getKeywords else None
      | [] => None
      end
  end.

(** Lines 163-164:
    [if (!indexTable[trapdoor]) indexTable[trapdoor] = [];
     indexTable[trapdoor].push(doc.pointer);] *)
Definition add_pointer (indexTable : IndexTable) (trapdoor pointer : jsstring) : IndexTable :=
  let indexTable :=
    match lookup indexTable trapdoor with
    | Some _ => indexTable
    | None => indexTable ++ [(trapdoor, [])]
    end in
  push indexTable trapdoor pointer.

(** Lines 159-165: the loop over the keywords of one document. *)
Definition index_keywords (secretKey : KeyObject) (doc : Document) (keywords : list data)
    (indexTable : IndexTable) : result IndexTable :=
  fold_left
    (fun acc keyword =>
       let* indexTable := acc in
       let* trapdoor := digest keyword (salt_option (secretSalt secretKey)) in
       Ok (add_pointer indexTable trapdoor (pointer doc)))
    keywords (Ok indexTable).

(** Lines 155-166: the body of the loop over the documents. *)
Definition index_document (secretKey : KeyObject)
    (getKeywords : option (data -> result (list data))) (doc : Document)
    (indexTable : IndexTable) : result IndexTable :=
  let* keywords :=
    match getKeywords with
    | Some f => f (doc_data doc)
    | None => Throw (TypeError "getKeywords is not a function")
    end in
  index_keywords secretKey doc keywords indexTable.

(** [buildIndex(documents = [], secretKey, getKeywords)]. *)
Definition buildIndex (documents : list Document) (secretKey : KeyObject)
    (getKeywords : option (data -> list data)) : result IndexTable :=
  let getKeywords := resolve_getKeywords documents getKeywords in
  fold_left
    (fun acc doc =>
       let* indexTable := acc in
       index_document secretKey getKeywords doc indexTable)
    documents (Ok []).

Record KeyOptions : Type := MkKeyOptions {
  opt_hash : option jsstring;
  opt_salt : option data;
  opt_iterations : option Z;
  opt_keyLengthByte : option Z
}.

Definition default_options : KeyOptions := MkKeyOptions None None None None.

(** [genSecretKey(secret = "PASSPHRASE", options = {})], with the random
    source threaded through: the default of [salt] is drawn only when the
    option is absent, the salt of [secretSalt] is always drawn. *)
Definition genSecretKey (secret : option jsstring) (options : KeyOptions)
    (rnd : random_source) : result KeyObject * random_source :=
  let secret := default (js "PASSPHRASE") secret in
  let hash := default (js "SHA-256") (opt_hash options) in
  let '(salt, rnd) :=
    match opt_salt options with
    | Some s => (s, rnd)
    | None => let '(r, rnd') := getRandomValues 512 rnd in (Buf (Uint8Array r), rnd')
    end in
  let iterations := default 999 (opt_iterations options) in
  let keyLengthByte := default 48 (opt_keyLengthByte options) in
  let first :=
    let* deriveBitsKey := importKey (str2ab secret None) PBKDF2 false [deriveBits_usage] in
    let saltBuffer := match salt with Str s => str2ab s None | Buf b => b end in
    let* derivedBits :=
      deriveBits (MkPbkdf2Params hash saltBuffer (inject_Z iterations)) deriveBitsKey
        (inject_Z keyLengthByte * 8)%Q in
    let derivedKey := slice derivedBits 0 32 in
    let iv := slice_last derivedBits 16 in
    let* secretKey := importKey derivedKey AES_CBC true [encrypt_usage; decrypt_usage] in
    Ok (deriveBitsKey, iv, secretKey) in
  match first with
  | Throw e => (Throw e, rnd)
  | Ok (deriveBitsKey, iv, secretKey) =>
      let '(r, rnd) := getRandomValues 512 rnd in
      (let* secretSalt :=
         deriveBits (MkPbkdf2Params hash (Uint8Array r) (inject_Z iterations / 2)%Q)
           deriveBitsKey (32 * 8)%Q in
       Ok (MkKeyObject secretKey iv (Some (Buf secretSalt))),
       rnd)
  end.

(** [encrypt(text, keyObject, encoding)]. *)
Definition encrypt (text : jsstring) (keyObject : KeyObject) (encoding : option Encoding)
  : result jsstring :=
  let* encryptedBuffer :=
    subtle_encrypt (iv keyObject) (key keyObject) (str2ab text (Some Utf8)) in
  Ok (ab2str encryptedBuffer encoding).

(** [decrypt(encryptedData, keyObject, encoding)]. *)
Definition decrypt (encryptedData : data) (keyObject : KeyObject) (encoding : option Encoding)
  : result jsstring :=
  let dataBuffer :=
    match encryptedData with Str s => str2ab s encoding | Buf b => b end in
  let* decryptedText := subtle_decrypt (iv keyObject) (key keyObject) dataBuffer in
  Ok (ab2str decryptedText (Some Utf8)).

End Main.

(* ================================================================== *)
(** * The older functions of [src/crypto.js] *)

Module CryptoJs.

Definition str2ab := Main.str2ab.
Definition ab2str := Main.ab2str.

(** [generateSecretKey(secret = "PASSPHRASE", options = {})]: the first
    derivation of [genSecretKey], without a [secretSalt]. *)
Definition generateSecretKey (secret : option jsstring) (options : Main.KeyOptions)
    (rnd : random_source) : result KeyObject * random_source :=
  let secret := default (js "PASSPHRASE") secret in
  let hash := default (js "SHA-256") (Main.opt_hash options) in
  let '(salt, rnd) :=
    match Main.opt_salt options with
    | Some s => (s, rnd)
    | None => let '(r, rnd') := getRandomValues 512 rnd in (Buf (Uint8Array r), rnd')
    end in
  let iterations := default 999 (Main.opt_iterations options) in
  let keyLengthByte := default 48 (Main.opt_keyLengthByte options) in
  (let* deriveBitsKey := importKey (str2ab secret None) PBKDF2 false [deriveBits_usage] in
   let saltBuffer := match salt with Str s => str2ab s None | Buf b => b end in
   let* derivedBits :=
     deriveBits (MkPbkdf2Params hash saltBuffer (inject_Z iterations)) deriveBitsKey
       (inject_Z keyLengthByte * 8)%Q in
   let derivedKey := slice derivedBits 0 32 in
   let iv := slice_last derivedBits 16 in
   let* secretKey := importKey derivedKey AES_CBC true [encrypt_usage; decrypt_usage] in
   Ok (MkKeyObject secretKey iv None),
   rnd).

(** [encrypt(text, keyObject, encoding)]: the text is read in [encoding]. *)
Definition encrypt (text : jsstring) (keyObject : KeyObject) (encoding : option Encoding)
  : result jsstring :=
  let* encryptedText :=
    subtle_encrypt (iv keyObject) (key keyObject) (str2ab text encoding) in
  Ok (ab2str encryptedText encoding).

(** [decrypt(encryptedText, keyObject, encoding)]: the result is written in
    [encoding]. *)
Definition decrypt (encryptedText : jsstring) (keyObject : KeyObject)
    (encoding : option Encoding) : result jsstring :=
  let textBuffer := str2ab encryptedText encoding in
  let* decryptedText := subtle_decrypt (iv keyObject) (key keyObject) textBuffer in
  Ok (ab2str decryptedText encoding).

End CryptoJs.

(* ================================================================== *)
(** * Notions used in the statements *)

(** A well-formed string: code units of sixteen bits in which every
    surrogate is half of a pair, that is, a sequence of Unicode scalar
    values (the strings that have a UTF-8 form). *)
Definition is_code_unit (c : Z) : bool := (0 <=? c) && (c <? 0x10000).

Fixpoint well_formed (s : jsstring) : bool :=
  match s with
  | [] => true
  | c :: s' =>
      if is_high_surrogate c then
        match s' with
        | d :: s'' => is_low_surrogate d && well_formed s''
        | [] => false
        end
      else is_code_unit c && negb (is_low_surrogate c) && well_formed s'
  end.

(** Text that [Buffer.from(s, 'hex')] decodes in full: pairs of
    hexadecimal digits, each code unit read by its low byte. *)
Fixpoint valid_hex (s : jsstring) : bool :=
  match s with
  | [] => true
  | c1 :: c2 :: s' =>
      match unhex c1, unhex c2 with
      | Some _, Some _ => valid_hex s'
      | _, _ => false
      end
  | [_] => false
  end.

(** Key material that [encrypt] and [decrypt] accept: an AES-CBC key with
    both usages and an initialisation vector of sixteen bytes. *)
Definition valid_key (k : KeyObject) : bool :=
  is_ok (check_key (key k) AES_CBC encrypt_usage)
  && is_ok (check_key (key k) AES_CBC decrypt_usage)
  && (byteLength (iv k) =? 16)%nat.

(** What [abConcat] copies from one of its arguments: the elements of a
    typed array, and nothing (the zeros of the fresh result stay) from a raw
    [ArrayBuffer]. *)
Definition copied (x : buffer) : bytes :=
  match x with
  | Uint8Array b => b
  | ArrayBuffer b => repeat x00 (length b)
  end.

(** [decrypt(encrypt(m, k, e), k, e)]. *)
Definition roundtrip (m : jsstring) (k : KeyObject) (e : option Encoding) : result jsstring :=
  let* c := Main.encrypt m k e in
  Main.decrypt (Str c) k e.

(** The part of key material that [encrypt] and [decrypt] use. *)
Definition cipher_part (r : result KeyObject) : result (CryptoKey * buffer) :=
  let* k := r in Ok (key k, iv k).

(** The bytes that [digest] hashes for one of its arguments: the UTF-8 form
    of a string, and what [abConcat] copies of a binary value. *)
Definition hashed_bytes (d : data) : bytes :=
  match d with
  | Str s => utf8_encode s
  | Buf b => copied b
  end.

(** In [genSecretKey]: the salt of the first derivation, and the 512 random
    bytes drawn for the derivation of [secretSalt], which are the first 512
    of the source when [options.salt] is given and the next 512 otherwise. *)
Definition main_salt (options : Main.KeyOptions) (rnd : random_source) : buffer :=
  match Main.opt_salt options with
  | Some (Str s) => Main.str2ab s None
  | Some (Buf b) => b
  | None => Uint8Array (fst (getRandomValues 512 rnd))
  end.

Definition secret_salt_seed (options : Main.KeyOptions) (rnd : random_source) : bytes :=
  match Main.opt_salt options with
  | Some _ => fst (getRandomValues 512 rnd)
  | None => fst (getRandomValues 512 (snd (getRandomValues 512 rnd)))
  end.

(** Sample values. *)
Definition sample_key_bytes : bytes :=
  Eval vm_compute in List.map (fun n => byte_of_Z (Z.of_nat n)) (seq 0 32).
Definition sample_iv_bytes : bytes :=
  Eval vm_compute in List.map (fun n => byte_of_Z (Z.of_nat n)) (seq 0 16).

(** [{key: AES-256 key 00 01 .. 1f, iv: 00 01 .. 0f, secretSalt: 32 bytes}],
    the salt being an [ArrayBuffer] as [deriveBits] returns it. *)
Definition sample_key : KeyObject :=
  MkKeyObject
    (MkCryptoKey AES_CBC true [encrypt_usage; decrypt_usage] sample_key_bytes)
    (ArrayBuffer sample_iv_bytes)
    (Some (Buf (ArrayBuffer sample_key_bytes))).

Definition sample_documents : list Document :=
  [MkDocument (js "p1") (Str (js "a b")); MkDocument (js "p2") (Str (js "b c"))].

(** Two random sources: all bytes zero, and all bytes one. *)
Definition zeros_source : random_source := fun _ => x00.
Definition ones_source : random_source := fun _ => x01.

(** [{salt: Uint8Array [1, 2, 3], iterations: 2}] with a key length. *)
Definition sample_options (keyLengthByte : option Z) : Main.KeyOptions :=
  Main.MkKeyOptions None (Some (Buf (Uint8Array [x01; x02; x03]))) (Some 2) keyLengthByte.

(** The ciphertext of ["hello"] under [sample_key], in hexadecimal. *)
Definition sample_ciphertext : jsstring := js "7fd12dafb7e9599d0b849ad8c2e3c21f".

(** The trapdoors of ["a"], ["b"] and ["c"] under [sample_key]. *)
Definition sample_ta : jsstring :=
  Eval vm_compute in
    match Main.trapdoor (Str (js "a")) sample_key with Ok t => t | Throw _ => [] end.
Definition sample_tb : jsstring :=
  Eval vm_compute in
    match Main.trapdoor (Str (js "b")) sample_key with Ok t => t | Throw _ => [] end.
Definition sample_tc : jsstring :=
  Eval vm_compute in
    match Main.trapdoor (Str (js "c")) sample_key with Ok t => t | Throw _ => [] end.

(** [genSecretKey("00", {salt: Uint8Array [1, 2, 3], iterations: 2})] when
    the random source delivers zeros. *)
Definition sample_generated_key : KeyObject :=
  Eval vm_compute in
    match fst (Main.genSecretKey (Some (js "00")) (sample_options None) zeros_source) with
    | Ok k => k
    | Throw _ => sample_key
    end.

(** [String.prototype.toWellFormed]: every surrogate that is not half of a
    pair is replaced by U+FFFD. *)
Fixpoint toWellFormed (s : jsstring) : jsstring :=
  match s with
  | [] => []
  | c :: s' =>
      if is_high_surrogate c then
        match s' with
        | d :: s'' =>
            if is_low_surrogate d then c :: d :: toWellFormed s''
            else 0xFFFD :: toWellFormed s'
        | [] => [0xFFFD]
        end
      else if is_low_surrogate c then 0xFFFD :: toWellFormed s'
      else c :: toWellFormed s'
  end.

(** Strings proper: every element is a code unit of sixteen bits. *)
Definition code_units (s : jsstring) : bool := forallb is_code_unit s.

(** Text in lower-case hexadecimal, as [buf.toString('hex')] writes it: an
    even number of digits 0-9, a-f. *)
Definition is_lower_hex_digit (c : Z) : bool :=
  ((48 <=? c) && (c <=? 57)) || ((97 <=? c) && (c <=? 102)).

Fixpoint lower_hex (s : jsstring) : bool :=
  match s with
  | [] => true
  | c1 :: c2 :: s' => is_lower_hex_digit c1 && is_lower_hex_digit c2 && lower_hex s'
  | [_] => false
  end.

(** Text of ASCII characters, for which the upper-casing of JavaScript and
    that of [normalize_hash] are the same. *)
Definition ascii_text (s : jsstring) : bool :=
  forallb (fun c => (0 <=? c) && (c <? 128)) s.

(** Whether text starts with two hexadecimal digits as [Buffer.from(s, 'hex')]
    reads them (each code unit by its low byte). *)
Definition starts_with_hex_pair (s : jsstring) : bool :=
  match s with
  | c1 :: c2 :: _ =>
      match unhex c1, unhex c2 with
      | Some _, Some _ => true
      | _, _ => false
      end
  | _ => false
  end.

(** The trapdoor of a keyword as text ([trapdoor] always returns). *)
Definition trapdoor_text (k : KeyObject) (w : data) : jsstring :=
  match Main.trapdoor w k with Ok t => t | Throw _ => [] end.

(** The pairs (trapdoor of a keyword, pointer of its document) in the order
    in which the two loops of [buildIndex] visit them. *)
Definition index_entries (k : KeyObject) (getKeywords : data -> list data)
    (documents : list Document) : list (jsstring * jsstring) :=
  flat_map
    (fun doc => List.map (fun w => (trapdoor_text k w, pointer doc)) (getKeywords (doc_data doc)))
    documents.

(** The pointers paired with a trapdoor, in order; and the table that lists,
    for each trapdoor in order of first occurrence, its pointers. *)
Definition pointers_at (t : jsstring) (entries : list (jsstring * jsstring)) : list jsstring :=
  List.map snd (filter (fun e => jsstring_eqb t (fst e)) entries).

Definition table_of (entries : list (jsstring * jsstring)) : IndexTable :=
  List.map (fun t => (t, pointers_at t entries)) (new_Set (List.map fst entries)).

(** The fallback extractor of [buildIndex] on strings, as a function that
    cannot fail (what a caller would pass as [getKeywords] to the same
    effect). *)
Definition split_keywords (e : data) : list data :=
  match e with
  | Str s => List.map Str (new_Set (split_spaces [] s))
  | Buf _ => []
  end.

(** [l.join(" ")]. *)
Fixpoint join_spaces (l : list jsstring) : jsstring :=
  match l with
  | [] => []
  | [w] => w
  | w :: l' => w ++ 32 :: join_spaces l'
  end.

(** More sample values: the table of [sample_documents] under [sample_key];
    what [generateSecretKey] of [src/crypto.js] returns for the arguments of
    [sample_generated_key]; and key material generated from another
    passphrase with a random source that delivers ones. *)
Definition sample_table : IndexTable :=
  [(sample_ta, [js "p1"]); (sample_tb, [js "p1"; js "p2"]); (sample_tc, [js "p2"])].

Definition sample_legacy_key : KeyObject :=
  Eval vm_compute in
    match fst (CryptoJs.generateSecretKey (Some (js "00")) (sample_options None) zeros_source) with
    | Ok k => k
    | Throw _ => sample_key
    end.

Definition sample_generated_key_ones : KeyObject :=
  Eval vm_compute in
    match fst (Main.genSecretKey (Some (js "01")) (sample_options None) ones_source) with
    | Ok k => k
    | Throw _ => sample_key
    end.

(** A Unicode scalar value. *)
Definition scalar (cp : Z) : Prop :=
  0 <= cp < 0x110000 /\ ~ (0xD800 <= cp <= 0xDFFF).

#[local] Unset Implicit Arguments.

(* ================================================================== *)
(** * Known answers

    The platform functions reproduce the test vectors of the standards they
    are taken from. *)

(** FIPS 180: the digests of "abc". *)
Example sha1_abc :
  hex_encode (subtle_digest SHA1 (utf8_encode (js "abc")))
  = js "a9993e364706816aba3e25717850c26c9cd0d89d".
Proof. vm_compute. reflexivity. Qed.

Example sha256_abc :
  hex_encode (subtle_digest SHA256 (utf8_encode (js "abc")))
  = js "ba7816bf8f01cfea414140de5dae2223b00361a396177a9cb410ff61f20015ad".
Proof. vm_compute. reflexivity. Qed.

Example sha384_abc :
  hex_encode (subtle_digest SHA384 (utf8_encode (js "abc")))
  = js ("cb00753f45a35e8bb5a03d699ac65007272c32ab0eded163"
        ++ "1a8b605a43ff5bed8086072ba1e7cc2358baeca134c825a7").
Proof. vm_compute. reflexivity. Qed.

Example sha512_abc :
  hex_encode (subtle_digest SHA512 (utf8_encode (js "abc")))
  = js ("ddaf35a193617abacc417349ae20413112e6fa4e89a97ea20a9eeee64b55d39a"
        ++ "2192992a274fc1a836ba3c23a3feebbd454d4423643ce80e2a9ac94fa54ca49f").
Proof. vm_compute. reflexivity. Qed.

(** A message of two blocks (FIPS 180-2, appendix B.2). *)
Example sha256_two_blocks :
  hex_encode
    (subtle_digest SHA256
       (utf8_encode (js "abcdbcdecdefdefgefghfghighijhijkijkljklmklmnlmnomnopnopq")))
  = js "248d6a61d20638b8e5c026930c3e6039a33ce45964ff2167f6ecedd419db06c1".
Proof. vm_compute. reflexivity. Qed.

(** RFC 4231, test case 1. *)
Example hmac_sha256_rfc4231 :
  hex_encode (hmac SHA256 (repeat x0b 20) (utf8_encode (js "Hi There")))
  = js "b0344c61d8db38535ca8afceaf0bf12b881dc200c9833da726e9376c2e32cff7".
Proof. vm_compute. reflexivity. Qed.

(** RFC 6070 (PBKDF2 with HMAC-SHA-1) and its SHA-256 counterpart, two
    iterations. *)
Example pbkdf2_sha1_rfc6070 :
  hex_encode (pbkdf2 SHA1 (utf8_encode (js "password")) (utf8_encode (js "salt")) 2 20)
  = js "ea6c014dc72d6f8ccd1ed92ace1d41f0d8de8957".
Proof. vm_compute. reflexivity. Qed.

Example pbkdf2_sha256_two_iterations :
  hex_encode (pbkdf2 SHA256 (utf8_encode (js "password")) (utf8_encode (js "salt")) 2 32)
  = js "ae4d0c95af6b46d32d0adff928f06dd02a303f8ef3c251dfd6e2d85a95474c43".
Proof. vm_compute. reflexivity. Qed.

(** FIPS 197, appendix C: the three key sizes. *)
Example aes128_fips197 :
  hex_encode
    (bytes_of_block
       (cipher (key_expansion (hex_decode (js "000102030405060708090a0b0c0d0e0f")))
          (block_of_bytes (hex_decode (js "00112233445566778899aabbccddeeff")))))
  = js "69c4e0d86a7b0430d8cdb78070b4c55a".
Proof. vm_compute. reflexivity. Qed.

Example aes192_fips197 :
  hex_encode
    (bytes_of_block
       (cipher
          (key_expansion (hex_decode (js "000102030405060708090a0b0c0d0e0f1011121314151617")))
          (block_of_bytes (hex_decode (js "00112233445566778899aabbccddeeff")))))
  = js "dda97ca4864cdfe06eaf70a0ec0d7191".
Proof. vm_compute. reflexivity. Qed.

Example aes256_fips197 :
  hex_encode
    (bytes_of_block
       (cipher
          (key_expansion
             (hex_decode (js "000102030405060708090a0b0c0d0e0f101112131415161718191a1b1c1d1e1f")))
          (block_of_bytes (hex_decode (js "00112233445566778899aabbccddeeff")))))
  = js "8ea2b7ca516745bfeafc49904b496089".
Proof. vm_compute. reflexivity. Qed.

(** SP 800-38A, F.2.5 (CBC-AES256): the first two blocks; a third block is
    the encrypted padding. *)
Example cbc_aes256_sp800_38a :
  firstn 64
    (hex_encode
       (aes_cbc_encrypt
          (hex_decode (js "603deb1015ca71be2b73aef0857d77811f352c073b6108d72d9810a30914dff4"))
          (hex_decode (js "000102030405060708090a0b0c0d0e0f"))
          (hex_decode (js "6bc1bee22e409f96e93d7e117393172aae2d8a571e03ac9c9eb76fac45af8e51"))))
  = js "f58c4c04d6e5f1ba779eabfb5f7bfbd69cfc4e967edb808d679f777bc6702c7d".
Proof. vm_compute. reflexivity. Qed.

(** Buffer: the encodings of a text with a two-byte, a three-byte and a
    four-byte character, and the replacement of an ill-formed sequence. *)
Example utf8_known :
  hex_encode (utf8_encode [0xE9; 0x20AC; 0xD83D; 0xDE00]) = js "c3a9e282acf09f9880"
  /\ utf8_decode (hex_decode (js "c3a9e282acf09f9880")) = [0xE9; 0x20AC; 0xD83D; 0xDE00]
  /\ utf8_decode (hex_decode (js "41ff42")) = [0x41; 0xFFFD; 0x42].
Proof. repeat split; vm_compute; reflexivity. Qed.

Example base64_known :
  base64_encode (utf8_encode (js "hello")) = js "aGVsbG8="
  /\ base64_decode (js "aGVsbG8=") = utf8_encode (js "hello").
Proof. split; vm_compute; reflexivity. Qed.

Example hex_known :
  hex_decode (js "abzz12") = [xab] /\ hex_decode (js "abc") = [xab]
  /\ hex_decode (js "ABcd") = [xab; xcd].
Proof. repeat split; vm_compute; reflexivity. Qed.

(** The binary decoders read a code unit by its low byte: the letters
    U+0131 U+0131 are read as "11", the Cyrillic U+0430 U+0431 as "01"; and
    "QUJD", the base64 form of "ABC", is read the same with 256 added to
    every code unit. *)
Example hex_low_byte :
  hex_decode [0x131; 0x131] = [x11] /\ hex_decode [0x430; 0x431] = [x01]
  /\ hex_decode (js "zz") = [] /\ hex_decode (js "0aF") = [x0a].
Proof. repeat split. Qed.

Example base64_low_byte :
  base64_decode (js "QUJD") = [x41; x42; x43]
  /\ base64_decode (List.map (fun c => c + 256) (js "QUJD")) = [x41; x42; x43].
Proof. split; reflexivity. Qed.

(** The names of the hashes are matched without regard to case; other
    names are rejected. *)
Example normalize_hash_known :
  normalize_hash (js "SHA-1") = Ok SHA1 /\ normalize_hash (js "sha-256") = Ok SHA256
  /\ normalize_hash (js "Sha-384") = Ok SHA384 /\ normalize_hash (js "SHA-512") = Ok SHA512
  /\ normalize_hash (js "MD5") = Throw NotSupportedError
  /\ normalize_hash (js "SHA256") = Throw NotSupportedError.
Proof. repeat split. Qed.

(* ================================================================== *)
(** * Bytes *)

Lemma byte_of_Z_of_byte b : byte_of_Z (Z_of_byte b) = b.
Proof. destruct b; reflexivity. Qed.

Lemma Z_of_byte_range b : 0 <= Z_of_byte b < 256.
Proof.
  unfold Z_of_byte. pose proof (Byte.to_N_bounded b) as H.
  lia.
Qed.

Lemma Z_of_byte_inj a b : Z_of_byte a = Z_of_byte b -> a = b.
Proof. intro H. rewrite <- (byte_of_Z_of_byte a), H. apply byte_of_Z_of_byte. Qed.

Lemma all_bytes_complete b : In b all_bytes.
Proof. apply nth_error_In with (Byte.to_nat b). destruct b; reflexivity. Qed.

Lemma forall_bytes (P : byte -> bool) :
  forallb P all_bytes = true -> forall b, P b = true.
Proof. intros H b. rewrite forallb_forall in H. apply H, all_bytes_complete. Qed.

Ltac brute1 :=
  match goal with
  | |- forall a : byte, @eq byte (@?l a) (@?r a) =>
      let H := fresh in
      intro a; apply Byte.byte_dec_bl; revert a;
      apply (forall_bytes (fun a => Byte.eqb (l a) (r a)));
      vm_compute; reflexivity
  end.

Lemma to_bits_inj a b : Byte.to_bits a = Byte.to_bits b -> a = b.
Proof.
  intro H. rewrite <- (Byte.of_bits_to_bits a), H. apply Byte.of_bits_to_bits.
Qed.

Ltac bits a :=
  let H := fresh "E" in
  let t := fresh in
  rewrite <- (Byte.of_bits_to_bits a);
  generalize (Byte.to_bits a); clear a; intro t;
  destruct t as [? [? [? [? [? [? [? ?]]]]]]].

Lemma bxor_assoc a b c : bxor a (bxor b c) = bxor (bxor a b) c.
Proof.
  bits a; bits b; bits c. unfold bxor. rewrite !Byte.to_bits_of_bits.
  now rewrite !xorb_assoc.
Qed.

Lemma bxor_comm a b : bxor a b = bxor b a.
Proof.
  bits a; bits b. unfold bxor. rewrite !Byte.to_bits_of_bits.
  f_equal. repeat (f_equal; [apply xorb_comm|]). apply xorb_comm.
Qed.

Lemma bxor_0_l a : bxor x00 a = a.
Proof.
  bits a. unfold bxor. rewrite !Byte.to_bits_of_bits. cbn [Byte.to_bits].
  now rewrite !xorb_false_l.
Qed.

Lemma bxor_0_r a : bxor a x00 = a.
Proof. rewrite bxor_comm. apply bxor_0_l. Qed.

Lemma bxor_nilpotent a : bxor a a = x00.
Proof.
  bits a. unfold bxor. rewrite !Byte.to_bits_of_bits.
  now rewrite !xorb_nilpotent.
Qed.

Lemma bxor_cancel a b : bxor (bxor a b) b = a.
Proof. now rewrite <- bxor_assoc, bxor_nilpotent, bxor_0_r. Qed.

#[local] Instance bxor_Assoc : Associative eq bxor.
Proof. intros x y z. apply bxor_assoc. Qed.
#[local] Instance bxor_Comm : Commutative eq bxor.
Proof. intros x y. apply bxor_comm. Qed.
#[local] Instance bxor_Unit : Unit eq bxor x00.
Proof. split; intro x; [apply bxor_0_l | apply bxor_0_r]. Qed.

(* ================================================================== *)
(** * AES: the inverse cipher undoes the cipher *)

Lemma x4_transpose p0 p1 p2 p3 q0 q1 q2 q3 r0 r1 r2 r3 s0 s1 s2 s3 :
  x4 (x4 p0 p1 p2 p3) (x4 q0 q1 q2 q3) (x4 r0 r1 r2 r3) (x4 s0 s1 s2 s3)
  = x4 (x4 p0 q0 r0 s0) (x4 p1 q1 r1 s1) (x4 p2 q2 r2 s2) (x4 p3 q3 r3 s3).
Proof. unfold x4. aac_reflexivity. Qed.

Lemma xtime_linear a b : xtime (bxor a b) = bxor (xtime a) (xtime b).
Proof.
  bits a; bits b. unfold bxor, xtime. rewrite !Byte.to_bits_of_bits.
  f_equal. repeat (f_equal; try btauto).
Qed.

Ltac gmul_const :=
  unfold gmul; cbn [Byte.to_bits sel]; unfold x4; rewrite ?xtime_linear; aac_reflexivity.

Lemma gmul_x4_09 p q r s :
  gmul (x4 p q r s) x09 = x4 (gmul p x09) (gmul q x09) (gmul r x09) (gmul s x09).
Proof. gmul_const. Qed.
Lemma gmul_x4_0b p q r s :
  gmul (x4 p q r s) x0b = x4 (gmul p x0b) (gmul q x0b) (gmul r x0b) (gmul s x0b).
Proof. gmul_const. Qed.
Lemma gmul_x4_0d p q r s :
  gmul (x4 p q r s) x0d = x4 (gmul p x0d) (gmul q x0d) (gmul r x0d) (gmul s x0d).
Proof. gmul_const. Qed.
Lemma gmul_x4_0e p q r s :
  gmul (x4 p q r s) x0e = x4 (gmul p x0e) (gmul q x0e) (gmul r x0e) (gmul s x0e).
Proof. gmul_const. Qed.

Ltac collapse t a :=
  first [ replace t with a by (revert a; brute1)
        | replace t with x00 by (revert a; brute1) ].

Ltac mix_component a0 a1 a2 a3 :=
  rewrite gmul_x4_09, gmul_x4_0b, gmul_x4_0d, gmul_x4_0e, x4_transpose;
  match goal with
  | |- x4 ?A ?B ?C ?D = _ =>
      collapse A a0; collapse B a1; collapse C a2; collapse D a3
  end;
  unfold x4; rewrite ?bxor_0_r, ?bxor_0_l; reflexivity.

Lemma inv_mix_mix_column c : inv_mix_column (mix_column c) = c.
Proof.
  destruct c as [[[a0 a1] a2] a3]. unfold mix_column, inv_mix_column.
  repeat f_equal; mix_component a0 a1 a2 a3.
Qed.

Lemma inv_sbox_sbox : forall b, inv_sbox (sbox b) = b.
Proof. brute1. Qed.

Lemma inv_shift_shift s : inv_shift_rows (shift_rows s) = s.
Proof. destruct s as [[[[[[? ?] ?] ?] [[[? ?] ?] ?]] [[[? ?] ?] ?]] [[[? ?] ?] ?]]. reflexivity. Qed.

Lemma inv_sub_sub s : inv_sub_bytes (sub_bytes s) = s.
Proof.
  destruct s as [[[[[[? ?] ?] ?] [[[? ?] ?] ?]] [[[? ?] ?] ?]] [[[? ?] ?] ?]].
  unfold inv_sub_bytes, sub_bytes, map_block, map_column.
  now rewrite !inv_sbox_sbox.
Qed.

Lemma inv_mix_mix s : inv_mix_columns (mix_columns s) = s.
Proof.
  destruct s as [[[c0 c1] c2] c3]. unfold inv_mix_columns, mix_columns, map_block.
  now rewrite !inv_mix_mix_column.
Qed.

Lemma xor_column_cancel x k : xor_column (xor_column x k) k = x.
Proof.
  destruct x as [[[? ?] ?] ?], k as [[[? ?] ?] ?]. unfold xor_column.
  now rewrite !bxor_cancel.
Qed.

Lemma xor_block_cancel x k : xor_block (xor_block x k) k = x.
Proof.
  destruct x as [[[? ?] ?] ?], k as [[[? ?] ?] ?]. unfold xor_block.
  now rewrite !xor_column_cancel.
Qed.

Lemma inv_rounds_rounds rks : forall s, inv_rounds rks (rounds rks s) = s.
Proof.
  induction rks as [|k rks IH]; intro s; [reflexivity|].
  destruct rks as [|k' rks].
  - simpl. now rewrite xor_block_cancel, inv_shift_shift, inv_sub_sub.
  - change (rounds (k :: k' :: rks) s)
      with (rounds (k' :: rks) (xor_block (mix_columns (shift_rows (sub_bytes s))) k)).
    change (inv_rounds (k :: k' :: rks) ?x)
      with (inv_sub_bytes (inv_shift_rows (inv_mix_columns
              (xor_block (inv_rounds (k' :: rks) x) k)))).
    now rewrite IH, xor_block_cancel, inv_mix_mix, inv_shift_shift, inv_sub_sub.
Qed.

Lemma inv_cipher_cipher rks s : inv_cipher rks (cipher rks s) = s.
Proof.
  destruct rks as [|k0 rks]; [reflexivity|].
  unfold inv_cipher, cipher. now rewrite inv_rounds_rounds, xor_block_cancel.
Qed.

(* ================================================================== *)
(** * CBC and padding *)

Lemma bytes_of_block_length s : length (bytes_of_block s) = 16%nat.
Proof. destruct s as [[[[[[? ?] ?] ?] [[[? ?] ?] ?]] [[[? ?] ?] ?]] [[[? ?] ?] ?]]. reflexivity. Qed.

Lemma block_of_bytes_app s rest : block_of_bytes (bytes_of_block s ++ rest) = s.
Proof. destruct s as [[[[[[? ?] ?] ?] [[[? ?] ?] ?]] [[[? ?] ?] ?]] [[[? ?] ?] ?]]. reflexivity. Qed.

Lemma bytes_of_block_of_bytes c :
  length c = 16%nat -> bytes_of_block (block_of_bytes c) = c.
Proof.
  intro H. do 16 (destruct c as [|? c]; [discriminate H|]).
  destruct c; [reflexivity | discriminate H].
Qed.

Lemma chunks_nil {A} n fuel : @chunks A n fuel [] = [].
Proof. destruct fuel; reflexivity. Qed.

Lemma firstn_length_app {A} (x r : list A) : firstn (length x) (x ++ r) = x.
Proof. induction x as [|a x IH]; [apply firstn_O | simpl; now rewrite IH]. Qed.

Lemma skipn_length_app {A} (x r : list A) : skipn (length x) (x ++ r) = r.
Proof. induction x as [|a x IH]; [reflexivity | exact IH]. Qed.

Lemma chunks_app {A} n (x rest : list A) fuel :
  length x = n -> x <> [] ->
  chunks n (S fuel) (x ++ rest) = x :: chunks n fuel rest.
Proof.
  intros Hn Hx. subst n.
  destruct x as [|a x]; [congruence|].
  change (chunks (length (a :: x)) (S fuel) ((a :: x) ++ rest))
    with (firstn (length (a :: x)) ((a :: x) ++ rest)
            :: chunks (length (a :: x)) fuel (skipn (length (a :: x)) ((a :: x) ++ rest))).
  now rewrite firstn_length_app, skipn_length_app.
Qed.

Lemma chunks_blocks bs : forall fuel,
  (length bs <= fuel)%nat ->
  chunks 16 fuel (flat_map bytes_of_block bs) = List.map bytes_of_block bs.
Proof.
  induction bs as [|b bs IH]; intros fuel Hf.
  - apply chunks_nil.
  - destruct fuel as [|fuel]; [simpl in Hf; lia|].
    simpl flat_map. simpl List.map.
    rewrite chunks_app.
    + f_equal. apply IH. simpl in Hf. lia.
    + apply bytes_of_block_length.
    + intro H. pose proof (bytes_of_block_length b) as Hb. rewrite H in Hb. discriminate Hb.
Qed.

Lemma flat_map_length_blocks bs :
  length (flat_map bytes_of_block bs) = (16 * length bs)%nat.
Proof.
  induction bs as [|b bs IH]; [reflexivity|].
  simpl flat_map. rewrite length_app, bytes_of_block_length, IH. simpl length. lia.
Qed.

Lemma blocks_of_flat_map bs : blocks_of_bytes (flat_map bytes_of_block bs) = bs.
Proof.
  unfold blocks_of_bytes. rewrite chunks_blocks.
  - rewrite map_map. rewrite <- (map_id bs) at 2. apply map_ext.
    intro b. rewrite <- (app_nil_r (bytes_of_block b)). apply block_of_bytes_app.
  - rewrite flat_map_length_blocks. lia.
Qed.

Lemma flat_map_blocks_of k : forall p fuel,
  length p = (16 * k)%nat -> (k <= fuel)%nat ->
  flat_map bytes_of_block (List.map block_of_bytes (chunks 16 fuel p)) = p.
Proof.
  induction k as [|k IH]; intros p fuel Hp Hf.
  - destruct p; [|discriminate Hp]. now rewrite chunks_nil.
  - destruct fuel as [|fuel]; [lia|].
    destruct p as [|x p]; [discriminate Hp|].
    cbn [chunks List.map flat_map].
    rewrite bytes_of_block_of_bytes.
    + rewrite IH.
      * apply firstn_skipn.
      * rewrite length_skipn, Hp. lia.
      * lia.
    + rewrite length_firstn, Hp. lia.
Qed.

Lemma chunks_length k : forall {A} (p : list A) fuel,
  length p = (16 * k)%nat -> (k <= fuel)%nat -> length (chunks 16 fuel p) = k.
Proof.
  induction k as [|k IH]; intros A p fuel Hp Hf.
  - destruct p; [|discriminate Hp]. now rewrite chunks_nil.
  - destruct fuel as [|fuel]; [lia|].
    destruct p as [|x p]; [discriminate Hp|].
    cbn [chunks length]. f_equal. apply IH; [|lia].
    rewrite length_skipn, Hp. lia.
Qed.

Lemma cbc_decrypt_encrypt rks ps : forall prev,
  cbc_decrypt_blocks rks prev (cbc_encrypt_blocks rks prev ps) = ps.
Proof.
  induction ps as [|p ps IH]; intro prev; [reflexivity|].
  cbn [cbc_encrypt_blocks cbc_decrypt_blocks].
  now rewrite inv_cipher_cipher, xor_block_cancel, IH.
Qed.

Lemma cbc_encrypt_length rks ps : forall prev,
  length (cbc_encrypt_blocks rks prev ps) = length ps.
Proof.
  induction ps as [|p ps IH]; intro prev; [reflexivity|].
  cbn [cbc_encrypt_blocks length]. now rewrite IH.
Qed.

Lemma pkcs7_pad_length m :
  exists k, length (pkcs7_pad m) = (16 * S k)%nat.
Proof.
  unfold pkcs7_pad. rewrite length_app, repeat_length.
  exists (length m / 16)%nat.
  pose proof (Nat.div_mod_eq (length m) 16).
  pose proof (Nat.mod_upper_bound (length m) 16 ltac:(lia)).
  lia.
Qed.

Lemma pad_byte n : (1 <= n <= 16)%nat -> Byte.to_nat (byte_of_Z (Z.of_nat n)) = n.
Proof.
  intros [H1 H2].
  do 17 (destruct n as [|n]; [try lia; try reflexivity|]). lia.
Qed.

Lemma last_app_repeat {A} (m : list A) x n d : last (m ++ repeat x (S n)) d = x.
Proof.
  replace (S n) with (n + 1)%nat by lia.
  rewrite repeat_app, app_assoc. simpl. apply last_last.
Qed.

Lemma forallb_repeat (x : byte) n : forallb (Byte.eqb x) (repeat x n) = true.
Proof.
  induction n as [|n IH]; [reflexivity|].
  simpl. rewrite IH, (Byte.byte_dec_lb eq_refl). reflexivity.
Qed.

Lemma pkcs7_unpad_pad m : pkcs7_unpad (pkcs7_pad m) = Ok m.
Proof.
  unfold pkcs7_unpad, pkcs7_pad.
  pose proof (Nat.mod_upper_bound (length m) 16 ltac:(lia)) as Hm.
  set (n := (16 - length m mod 16)%nat).
  assert (Hn : (1 <= n <= 16)%nat) by (subst n; lia).
  destruct n as [|n'] eqn:En; [lia|].
  rewrite last_app_repeat, pad_byte by lia.
  rewrite length_app, repeat_length.
  replace (length m + S n' - S n')%nat with (length m) by lia.
  replace ((S n' =? 0)%nat) with false by reflexivity.
  replace ((16 <? S n')%nat) with false by (symmetry; apply Nat.ltb_ge; lia).
  replace ((length m + S n' <? S n')%nat) with false by (symmetry; apply Nat.ltb_ge; lia).
  cbn [orb].
  rewrite skipn_app, skipn_all, Nat.sub_diag, skipn_O. cbn [app].
  rewrite forallb_repeat.
  rewrite firstn_app, firstn_all, Nat.sub_diag, firstn_O, app_nil_r. reflexivity.
Qed.

Theorem aes_cbc_roundtrip k i m :
  aes_cbc_decrypt k i (aes_cbc_encrypt k i m) = Ok m.
Proof.
  unfold aes_cbc_decrypt, aes_cbc_encrypt.
  destruct (pkcs7_pad_length m) as [n Hn].
  set (rks := key_expansion k). set (iv0 := block_of_bytes i).
  assert (Hblocks : length (blocks_of_bytes (pkcs7_pad m)) = S n).
  { unfold blocks_of_bytes. rewrite length_map. apply chunks_length; [exact Hn | lia]. }
  rewrite flat_map_length_blocks, cbc_encrypt_length, Hblocks.
  replace ((16 * S n =? 0)%nat) with false by reflexivity.
  replace ((16 * S n) mod 16)%nat with 0%nat
    by (symmetry; rewrite Nat.mul_comm; apply Nat.Div0.mod_mul).
  cbn [Nat.eqb negb orb].
  rewrite blocks_of_flat_map, cbc_decrypt_encrypt.
  unfold blocks_of_bytes. rewrite (@flat_map_blocks_of (S n)); [|exact Hn|lia].
  apply pkcs7_unpad_pad.
Qed.

(* ================================================================== *)
(** * The helpers [str2ab] and [abConcat], and the hexadecimal codec *)

Lemma hex_decode_byte x s :
  hex_decode (hex_digit (Z_of_byte x / 16) :: hex_digit (Z_of_byte x mod 16) :: s)
  = x :: hex_decode s.
Proof. destruct x; reflexivity. Qed.

Lemma hex_decode_encode_app b s : hex_decode (hex_encode b ++ s) = b ++ hex_decode s.
Proof.
  induction b as [|x b IH]; [reflexivity|].
  cbn [hex_encode app]. rewrite hex_decode_byte. now rewrite IH.
Qed.

Lemma hex_decode_encode b : hex_decode (hex_encode b) = b.
Proof.
  rewrite <- (app_nil_r (hex_encode b)), hex_decode_encode_app.
  apply app_nil_r.
Qed.

Lemma set_index_app p x r v k :
  k = length p -> set_index (p ++ x :: r) k v = p ++ v :: r.
Proof.
  intros ->. induction p as [|a p IH]; [reflexivity | simpl; now rewrite IH].
Qed.

Lemma firstn_S_nth {A} (l : list A) k d :
  (k < length l)%nat -> firstn (S k) l = firstn k l ++ [nth k l d].
Proof.
  revert k. induction l as [|a l IH]; intros k Hk; [simpl in Hk; lia|].
  destruct k as [|k]; [reflexivity|].
  simpl in Hk. cbn [firstn nth app]. rewrite <- IH by lia. reflexivity.
Qed.

Lemma copy_loop (buf : bytes) k :
  (k <= length buf)%nat ->
  fold_left (fun typedArray i => set_index typedArray i (nth i buf x00))
    (seq 0 k) (repeat x00 (length buf))
  = firstn k buf ++ repeat x00 (length buf - k).
Proof.
  induction k as [|k IH]; intro Hk.
  - now rewrite Nat.sub_0_r.
  - rewrite seq_S, fold_left_app, IH by lia. cbn [fold_left Nat.add].
    replace (length buf - k)%nat with (S (length buf - S k)) by lia.
    cbn [repeat].
    rewrite set_index_app by (rewrite length_firstn; lia).
    rewrite (firstn_S_nth buf k x00) by lia.
    now rewrite <- app_assoc.
Qed.

Lemma str2ab_spec s enc :
  Main.str2ab s enc = Uint8Array (Buffer_from s (default Hex enc)).
Proof.
  unfold Main.str2ab. rewrite copy_loop by lia.
  now rewrite firstn_all, Nat.sub_diag, app_nil_r.
Qed.

Lemma write_at_app p t e : write_at (p ++ t) (length p) e = p ++ write_at t 0 e.
Proof. induction p as [|a p IH]; [reflexivity | simpl; now rewrite IH]. Qed.

Lemma write_at_0 e t : write_at (repeat x00 (length e) ++ t) 0 e = e ++ t.
Proof.
  induction e as [|a e IH]; [destruct t; reflexivity|].
  cbn [length repeat app write_at]. now rewrite IH.
Qed.

Lemma write_at_nil t : write_at t 0 [] = t.
Proof. destruct t; reflexivity. Qed.

Lemma copied_length x : length (copied x) = byteLength x.
Proof. destruct x; simpl; [apply repeat_length | reflexivity]. Qed.

Lemma array_like_length x : (length (array_like x) <= byteLength x)%nat.
Proof. destruct x; simpl; unfold byteLength; simpl; lia. Qed.

Lemma typed_array_set_prefix p x k :
  typed_array_set (p ++ repeat x00 (byteLength x + k)) x (length p)
  = Ok (p ++ copied x ++ repeat x00 k).
Proof.
  unfold typed_array_set.
  rewrite length_app, repeat_length.
  pose proof (array_like_length x) as Hl.
  replace (length p + (byteLength x + k) <? length p + length (array_like x))%nat
    with false by (symmetry; apply Nat.ltb_ge; lia).
  rewrite write_at_app, repeat_app. f_equal. f_equal.
  destruct x as [b|b]; unfold byteLength; cbn [array_like copied contents].
  - now rewrite write_at_nil.
  - apply write_at_0.
Qed.

Lemma abConcat_loop buffers : forall p k,
  fold_left
    (fun acc buffer =>
       let* (res, offset) := acc in
       let* res' := typed_array_set res buffer offset in
       Ok (res', (offset + byteLength buffer)%nat))
    buffers
    (Ok (p ++ repeat x00 (fold_left (fun t b => t + byteLength b)%nat buffers k), length p))
  = Ok (p ++ flat_map copied buffers ++ repeat x00 k,
        (length p + length (flat_map copied buffers))%nat).
Proof.
  induction buffers as [|x l IH]; intros p k.
  - cbn [fold_left flat_map app]. now rewrite Nat.add_0_r.
  - cbn [fold_left flat_map bind].
    assert (Hsum : forall l k, fold_left (fun t b => t + byteLength b)%nat l k
                   = (k + fold_left (fun t b => t + byteLength b)%nat l 0)%nat).
    { clear. induction l as [|y l IH]; intro k; simpl; [lia|].
      rewrite (IH (k + byteLength y)%nat), (IH (byteLength y)). lia. }
    rewrite Hsum.
    replace (k + byteLength x + fold_left (fun t b => t + byteLength b)%nat l 0)%nat
      with (byteLength x + fold_left (fun t b => t + byteLength b)%nat l k)%nat
      by (rewrite (Hsum l k); lia).
    rewrite typed_array_set_prefix. cbn [bind].
    replace (length p + byteLength x)%nat with (length (p ++ copied x))
      by (rewrite length_app, copied_length; reflexivity).
    rewrite app_assoc, IH. rewrite !length_app, <- !app_assoc. f_equal. f_equal. lia.
Qed.

Lemma abConcat_spec buffers :
  Main.abConcat buffers = Ok (Uint8Array (flat_map copied buffers)).
Proof.
  unfold Main.abConcat.
  pose proof (abConcat_loop buffers [] 0) as H. cbn [app length] in H.
  rewrite H. cbn [bind]. now rewrite app_nil_r.
Qed.

(* ================================================================== *)
(** * UTF-8 *)

Lemma Z_of_byte_of_Z z : 0 <= z < 256 -> Z_of_byte (byte_of_Z z) = z.
Proof.
  intro H. unfold Z_of_byte, byte_of_Z. rewrite Z.mod_small by lia.
  destruct (Byte.of_N (Z.to_N z)) as [b|] eqn:E.
  - apply Byte.to_of_N in E. lia.
  - apply Byte.of_N_None_iff in E. lia.
Qed.


Lemma utf8_run_feed a : forall st b,
  utf8_run st (a ++ b)
  = let (st', out) := utf8_feed st (List.map Z_of_byte a) in out ++ utf8_run st' b.
Proof.
  induction a as [|x a IH]; intros st b; [reflexivity|].
  cbn [app utf8_run List.map utf8_feed].
  destruct (utf8_step st (Z_of_byte x)) as [st' out].
  rewrite IH. destruct (utf8_feed st' (List.map Z_of_byte a)) as [st'' out'].
  now rewrite app_assoc.
Qed.

Ltac split_tests :=
  repeat match goal with
  | |- context [?a <=? ?b] => destruct (Z.leb_spec a b); try lia
  | |- context [?a <? ?b] => destruct (Z.ltb_spec a b); try lia
  | |- context [?a =? ?b] => destruct (Z.eqb_spec a b); try lia
  end.

Lemma feed1 cp : 0 <= cp < 0x80 -> utf8_feed utf8_init [cp] = (utf8_init, [cp]).
Proof.
  intro H. cbn [utf8_feed]. unfold utf8_step, utf8_init, u_needed, utf8_lead.
  split_tests. reflexivity.
Qed.

Lemma feed2 q1 q0 : 2 <= q1 < 32 -> 0 <= q0 < 64 ->
  utf8_feed utf8_init [0xC0 + q1; 0x80 + q0] = (utf8_init, [q1 * 64 + q0]).
Proof.
  intros H1 H0. cbn [utf8_feed]. unfold utf8_step at 1. cbn [utf8_init u_needed].
  unfold utf8_lead. split_tests. cbn [andb].
  unfold utf8_step. cbn [u_needed u_lower u_upper u_seen u_cp Nat.eqb].
  split_tests. cbn [orb app].
  replace ((192 + q1) mod 32) with q1 by (Z.div_mod_to_equations; lia).
  replace ((128 + q0) mod 64) with q0 by (Z.div_mod_to_equations; lia).
  reflexivity.
Qed.

Lemma step_lead st b : u_needed st = O -> utf8_step st b = utf8_lead b.
Proof. intro H. unfold utf8_step. now rewrite H. Qed.

Lemma step_cont st b n :
  u_needed st = S n -> u_lower st <= b <= u_upper st ->
  utf8_step st b =
    if (S (u_seen st) =? S n)%nat then (utf8_init, [u_cp st * 64 + b mod 64])
    else (Utf8State (u_cp st * 64 + b mod 64) (S n) (S (u_seen st)) 0x80 0xBF, []).
Proof.
  intros Hn Hb. unfold utf8_step. rewrite Hn.
  replace (b <? u_lower st) with false by (symmetry; apply Z.ltb_ge; lia).
  replace (u_upper st <? b) with false by (symmetry; apply Z.ltb_ge; lia).
  reflexivity.
Qed.

Lemma lead3 b : 0xE0 <= b <= 0xEF ->
  utf8_lead b = (Utf8State (b mod 16) 2 0
                   (if b =? 0xE0 then 0xA0 else 0x80) (if b =? 0xED then 0x9F else 0xBF), []).
Proof. intro H. unfold utf8_lead. split_tests; reflexivity. Qed.

Lemma lead4 b : 0xF0 <= b <= 0xF4 ->
  utf8_lead b = (Utf8State (b mod 8) 3 0
                   (if b =? 0xF0 then 0x90 else 0x80) (if b =? 0xF4 then 0x8F else 0xBF), []).
Proof. intro H. unfold utf8_lead. split_tests; reflexivity. Qed.

Lemma feed3 q2 q1 q0 :
  0 <= q2 < 16 -> 0 <= q1 < 64 -> 0 <= q0 < 64 ->
  (q2 = 0 -> 32 <= q1) -> (q2 = 13 -> q1 < 32) ->
  utf8_feed utf8_init [0xE0 + q2; 0x80 + q1; 0x80 + q0]
  = (utf8_init, [(q2 * 64 + q1) * 64 + q0]).
Proof.
  intros H2 H1 H0 Hlo Hhi. cbn [utf8_feed].
  rewrite step_lead by reflexivity. rewrite lead3 by lia.
  rewrite (step_cont _ _ 1) by (cbn [u_needed u_lower u_upper]; first [reflexivity | split_tests; lia]).
  cbn [u_seen u_cp Nat.eqb].
  rewrite (step_cont _ _ 1) by (cbn [u_needed u_lower u_upper]; first [reflexivity | lia]).
  cbn [u_seen u_cp Nat.eqb app].
  replace ((224 + q2) mod 16) with q2 by (Z.div_mod_to_equations; lia).
  replace ((128 + q1) mod 64) with q1 by (Z.div_mod_to_equations; lia).
  replace ((128 + q0) mod 64) with q0 by (Z.div_mod_to_equations; lia).
  reflexivity.
Qed.

Lemma feed4 q3 q2 q1 q0 :
  0 <= q3 < 5 -> 0 <= q2 < 64 -> 0 <= q1 < 64 -> 0 <= q0 < 64 ->
  (q3 = 0 -> 16 <= q2) -> (q3 = 4 -> q2 < 16) ->
  utf8_feed utf8_init [0xF0 + q3; 0x80 + q2; 0x80 + q1; 0x80 + q0]
  = (utf8_init, [((q3 * 64 + q2) * 64 + q1) * 64 + q0]).
Proof.
  intros H3 H2 H1 H0 Hlo Hhi. cbn [utf8_feed].
  rewrite step_lead by reflexivity. rewrite lead4 by lia.
  rewrite (step_cont _ _ 2) by (cbn [u_needed u_lower u_upper]; first [reflexivity | split_tests; lia]).
  cbn [u_seen u_cp Nat.eqb].
  rewrite (step_cont _ _ 2) by (cbn [u_needed u_lower u_upper]; first [reflexivity | lia]).
  cbn [u_seen u_cp Nat.eqb].
  rewrite (step_cont _ _ 2) by (cbn [u_needed u_lower u_upper]; first [reflexivity | lia]).
  cbn [u_seen u_cp Nat.eqb app].
  replace ((240 + q3) mod 8) with q3 by (Z.div_mod_to_equations; lia).
  replace ((128 + q2) mod 64) with q2 by (Z.div_mod_to_equations; lia).
  replace ((128 + q1) mod 64) with q1 by (Z.div_mod_to_equations; lia).
  replace ((128 + q0) mod 64) with q0 by (Z.div_mod_to_equations; lia).
  reflexivity.
Qed.

Lemma feed_code_point cp : scalar cp ->
  utf8_feed utf8_init (List.map Z_of_byte (utf8_of_code_point cp)) = (utf8_init, [cp]).
Proof.
  intros [Hr Hs]. unfold utf8_of_code_point.
  destruct (Z.ltb_spec cp 0x80); [|destruct (Z.ltb_spec cp 0x800); [|destruct (Z.ltb_spec cp 0x10000)]];
    cbn [List.map].
  - rewrite Z_of_byte_of_Z by lia. apply feed1. lia.
  - rewrite !Z_of_byte_of_Z by (Z.div_mod_to_equations; lia).
    rewrite feed2 by (Z.div_mod_to_equations; lia).
    do 2 f_equal. Z.div_mod_to_equations; lia.
  - rewrite !Z_of_byte_of_Z by (Z.div_mod_to_equations; lia).
    rewrite feed3 by (Z.div_mod_to_equations; lia).
    do 2 f_equal. Z.div_mod_to_equations; lia.
  - rewrite !Z_of_byte_of_Z by (Z.div_mod_to_equations; lia).
    rewrite feed4 by (Z.div_mod_to_equations; lia).
    do 2 f_equal. Z.div_mod_to_equations; lia.
Qed.

Lemma surrogate_tests c :
  (is_high_surrogate c = true <-> 0xD800 <= c <= 0xDBFF) /\
  (is_low_surrogate c = true <-> 0xDC00 <= c <= 0xDFFF).
Proof. unfold is_high_surrogate, is_low_surrogate. lia. Qed.

Lemma utf8_roundtrip_bounded n : forall s,
  (length s <= n)%nat -> well_formed s = true -> utf8_decode (utf8_encode s) = s.
Proof.
  unfold utf8_decode.
  induction n as [|n IH]; intros s Hlen Hwf.
  - destruct s; [reflexivity | simpl in Hlen; lia].
  - destruct s as [|c s]; [reflexivity|].
    cbn [utf8_encode well_formed] in *.
    destruct (is_high_surrogate c) eqn:Hh.
    + destruct s as [|d s]; [discriminate Hwf|].
      apply andb_prop in Hwf. destruct Hwf as [Hd Hwf]. rewrite Hd.
      apply (proj1 (surrogate_tests c)) in Hh. apply (proj2 (surrogate_tests d)) in Hd.
      rewrite utf8_run_feed, feed_code_point by (unfold scalar; lia).
      cbn [app flat_map]. rewrite IH by (simpl in Hlen; (lia || assumption)).
      unfold utf16_of_code_point.
      replace (_ <? 65536) with false by (symmetry; apply Z.ltb_ge; lia).
      cbn [app]. f_equal; [|f_equal]; Z.div_mod_to_equations; lia.
    + apply andb_prop in Hwf. destruct Hwf as [Hc Hwf].
      apply andb_prop in Hc. destruct Hc as [Hc Hl]. rewrite (negb_true_iff _) in Hl.
      rewrite Hl.
      assert (Hnh : ~ 0xD800 <= c <= 0xDBFF).
      { intro X. apply (proj1 (surrogate_tests c)) in X. congruence. }
      assert (Hnl : ~ 0xDC00 <= c <= 0xDFFF).
      { intro X. apply (proj2 (surrogate_tests c)) in X. congruence. }
      unfold is_code_unit in Hc.
      rewrite utf8_run_feed, feed_code_point by (unfold scalar; lia).
      cbn [app flat_map]. rewrite IH by (simpl in Hlen; (lia || assumption)).
      unfold utf16_of_code_point.
      replace (c <? 65536) with true by (symmetry; apply Z.ltb_lt; lia).
      reflexivity.
Qed.

Lemma utf8_roundtrip s : well_formed s = true -> utf8_decode (utf8_encode s) = s.
Proof. apply (utf8_roundtrip_bounded (length s)). lia. Qed.

(* ================================================================== *)
(** * base64 *)

Lemma low_byte_small c : 0 <= c < 256 -> low_byte c = c.
Proof. apply Z.mod_small. Qed.

Lemma base64_char_range v : 0 <= v < 64 -> 0 <= base64_char v < 256.
Proof.
  intro H. unfold base64_char.
  destruct (Z.ltb_spec v 26); [|destruct (Z.ltb_spec v 52); [|destruct (Z.ltb_spec v 62);
    [|destruct (Z.eqb_spec v 62)]]]; lia.
Qed.

Lemma unbase64_char v : 0 <= v < 64 ->
  unbase64 (base64_char v) = Some v /\ base64_char v <> 61.
Proof.
  intro H. unfold unbase64. rewrite low_byte_small by (apply base64_char_range, H).
  unfold base64_char.
  destruct (Z.ltb_spec v 26); [|destruct (Z.ltb_spec v 52); [|destruct (Z.ltb_spec v 62);
    [|destruct (Z.eqb_spec v 62)]]];
    (split; [|lia]); unfold base64_value; split_tests; cbn [andb orb]; f_equal; lia.
Qed.

Lemma sextets_cons v s : 0 <= v < 64 ->
  base64_sextets (base64_char v :: s) = v :: base64_sextets s.
Proof.
  intro H. destruct (unbase64_char v H) as [E N].
  cbn [base64_sextets]. rewrite E, low_byte_small by (apply base64_char_range, H).
  destruct (Z.eqb_spec (base64_char v) 61); [contradiction | reflexivity].
Qed.

Lemma sextets_pad s : base64_sextets (61 :: s) = [].
Proof. reflexivity. Qed.

Lemma byte_of_Z_eq z x : z = Z_of_byte x -> byte_of_Z z = x.
Proof. intros ->. apply byte_of_Z_of_byte. Qed.

Ltac byte_arith := apply byte_of_Z_eq; Z.div_mod_to_equations; lia.

Lemma base64_roundtrip_bounded n : forall b,
  (length b <= n)%nat -> base64_decode (base64_encode b) = b.
Proof.
  unfold base64_decode.
  induction n as [|n IH]; intros b Hlen.
  - destruct b; [reflexivity | simpl in Hlen; lia].
  - destruct b as [|x [|y [|z b]]]; [reflexivity| | |];
      pose proof (Z_of_byte_range x) as Hx.
    + cbn [base64_encode].
      rewrite !sextets_cons by (Z.div_mod_to_equations; lia).
      rewrite sextets_pad. cbn [base64_bytes].
      f_equal. byte_arith.
    + pose proof (Z_of_byte_range y) as Hy. cbn [base64_encode].
      rewrite !sextets_cons by (Z.div_mod_to_equations; lia).
      rewrite sextets_pad. cbn [base64_bytes].
      f_equal; [|f_equal]; byte_arith.
    + pose proof (Z_of_byte_range y) as Hy. pose proof (Z_of_byte_range z) as Hz.
      cbn [base64_encode].
      rewrite !sextets_cons by (Z.div_mod_to_equations; lia).
      cbn [base64_bytes]. rewrite IH by (simpl in Hlen; lia).
      f_equal; [|f_equal; [|f_equal]]; byte_arith.
Qed.

Lemma base64_roundtrip b : base64_decode (base64_encode b) = b.
Proof. apply (base64_roundtrip_bounded (length b)). lia. Qed.

Lemma codec_roundtrip enc b :
  enc = Hex \/ enc = Base64 ->
  Buffer_from (Buffer_toString b enc) enc = b.
Proof.
  intros [-> | ->]; cbn [Buffer_from Buffer_toString].
  - apply hex_decode_encode.
  - apply base64_roundtrip.
Qed.

(* ================================================================== *)
(** * Lengths of digests and derived keys *)

Lemma Z_to_be_length n z : length (Z_to_be n z) = n.
Proof. induction n as [|n IH]; [reflexivity | simpl; now rewrite IH]. Qed.

Lemma sha1_length m : length (sha1 m) = 20%nat.
Proof.
  unfold sha1.
  destruct (fold_left sha1_block _ sha1_iv) as [[[[h0 h1] h2] h3] h4].
  now rewrite !length_app, !Z_to_be_length.
Qed.

Lemma sha2_length P m :
  length (sha2 P m) = Nat.min (p_out P) (8 * Z.to_nat (p_w P / 8)).
Proof.
  unfold sha2.
  destruct (fold_left (sha2_block P) _ (sha2_init P)) as [[[[[[[h0 h1] h2] h3] h4] h5] h6] h7].
  rewrite length_firstn, !length_app, !Z_to_be_length. lia.
Qed.

Lemma subtle_digest_length h m : length (subtle_digest h m) = hash_length h.
Proof.
  destruct h; cbn [subtle_digest hash_length];
    [apply sha1_length | rewrite sha2_length; reflexivity ..].
Qed.

Lemma hmac_length h k m : length (hmac h k m) = hash_length h.
Proof. unfold hmac. apply subtle_digest_length. Qed.

Lemma xor_bytes_length a : forall b,
  length (xor_bytes a b) = Nat.min (length a) (length b).
Proof.
  induction a as [|x a IH]; intros [|y b]; try reflexivity.
  cbn [xor_bytes length]. rewrite IH. reflexivity.
Qed.

Lemma pbkdf2_iter_length h p n : forall u acc,
  length acc = hash_length h ->
  length (pbkdf2_iter h p u acc n) = hash_length h.
Proof.
  induction n as [|n IH]; intros u acc Hacc; [exact Hacc|].
  cbn [pbkdf2_iter]. apply IH.
  rewrite xor_bytes_length, hmac_length, Hacc. lia.
Qed.

Lemma pbkdf2_block_length h p s c i :
  length (pbkdf2_block h p s c i) = hash_length h.
Proof. unfold pbkdf2_block. apply pbkdf2_iter_length, hmac_length. Qed.

Lemma flat_map_constant_length {A B} (f : A -> list B) n l :
  (forall a, length (f a) = n) -> length (flat_map f l) = (length l * n)%nat.
Proof.
  intro H. induction l as [|a l IH]; [reflexivity|].
  cbn [flat_map length]. rewrite length_app, H, IH. lia.
Qed.

Lemma pbkdf2_length h p s c dkLen : length (pbkdf2 h p s c dkLen) = dkLen.
Proof.
  unfold pbkdf2.
  rewrite length_firstn,
    (flat_map_constant_length _ (hash_length h)) by (intro; apply pbkdf2_block_length).
  rewrite length_seq.
  assert (Hh : (0 < hash_length h)%nat) by (destruct h; cbn; lia).
  pose proof (Nat.div_mod_eq (dkLen + hash_length h - 1) (hash_length h)) as E.
  pose proof (Nat.mod_upper_bound (dkLen + hash_length h - 1) (hash_length h) ltac:(lia)) as U.
  set (q := ((dkLen + hash_length h - 1) / hash_length h)%nat) in *.
  rewrite (Nat.mul_comm q). lia.
Qed.

Lemma normalize_hash_default : normalize_hash (js "SHA-256") = Ok SHA256.
Proof. reflexivity. Qed.

Lemma normalize_hash_cases name :
  (exists h, normalize_hash name = Ok h) \/ normalize_hash name = Throw NotSupportedError.
Proof.
  unfold normalize_hash.
  repeat match goal with
         | |- context [if ?c then _ else _] => destruct c; [left; eexists; reflexivity|]
         end.
  now right.
Qed.

Lemma code_units_eqb_eq a : forall b, code_units_eqb a b = true <-> a = b.
Proof.
  induction a as [|x a IH]; intros [|y b]; cbn [code_units_eqb];
    try (split; [discriminate | congruence]); [tauto|].
  rewrite andb_true_iff, Z.eqb_eq, IH. split; [intros [-> ->]; reflexivity|].
  intro E. injection E as -> ->. tauto.
Qed.

Lemma normalize_hash_rejects name :
  normalize_hash name = Throw NotSupportedError
  <-> ~ In (List.map ascii_upper name) [js "SHA-1"; js "SHA-256"; js "SHA-384"; js "SHA-512"].
Proof.
  unfold normalize_hash. cbn [In].
  destruct (code_units_eqb _ (js "SHA-1")) eqn:E1;
    [apply code_units_eqb_eq in E1; split; [discriminate | intro H; elim H; auto]|].
  destruct (code_units_eqb _ (js "SHA-256")) eqn:E2;
    [apply code_units_eqb_eq in E2; split; [discriminate | intro H; elim H; auto]|].
  destruct (code_units_eqb _ (js "SHA-384")) eqn:E3;
    [apply code_units_eqb_eq in E3; split; [discriminate | intro H; elim H; auto]|].
  destruct (code_units_eqb _ (js "SHA-512")) eqn:E4;
    [apply code_units_eqb_eq in E4; split; [discriminate | intro H; elim H; auto]|].
  split; [|reflexivity]. intros _ [H|[H|[H|[H|[]]]]]; symmetry in H;
    apply code_units_eqb_eq in H; congruence.
Qed.

(** [deriveBits] succeeds on a PBKDF2 key for a supported hash and a
    positive iteration count. *)
Lemma deriveBits_ok name h salt password (it : number) (len : number) n :
  normalize_hash name = Ok h ->
  1 <= IntegerPart it <= 2 ^ 32 - 1 ->
  IntegerPart len = 8 * Z.of_nat n -> 8 * Z.of_nat n < 2 ^ 32 ->
  deriveBits (MkPbkdf2Params name salt it)
    (MkCryptoKey PBKDF2 false [deriveBits_usage] password) len
  = Ok (ArrayBuffer
          (pbkdf2 h password (contents salt) (Z.to_nat (IntegerPart it)) n)).
Proof.
  intros Hn Hit Hlen Hb. unfold deriveBits, enforce_range_unsigned_long, to_unsigned_long.
  cbn [pbkdf2_iterations pbkdf2_hash pbkdf2_salt].
  replace (IntegerPart it <? 0) with false by (symmetry; apply Z.ltb_ge; lia).
  replace (2 ^ 32 - 1 <? IntegerPart it) with false by (symmetry; apply Z.ltb_ge; lia).
  cbn [orb bind]. rewrite Hn.
  cbn [bind check_key key_algorithm key_usages algorithm_eqb existsb usage_eqb andb key_data].
  rewrite Hlen, (Z.mod_small (8 * Z.of_nat n) (2 ^ 32)) by lia.
  replace ((8 * Z.of_nat n) mod 8) with 0 by (symmetry; rewrite Z.mul_comm; apply Z.mod_mul; lia).
  replace (IntegerPart it =? 0) with false by (symmetry; apply Z.eqb_neq; lia).
  cbn [Z.eqb negb orb].
  replace (8 * Z.of_nat n / 8) with (Z.of_nat n) by (rewrite Z.mul_comm, Z.div_mul; lia).
  now rewrite Nat2Z.id.
Qed.

(* ================================================================== *)
(** * [digest], [trapdoor] and the index table *)

Lemma copied_as_buffer d :
  copied (match d with Str s => Main.str2ab s (Some Utf8) | Buf b => b end) = hashed_bytes d.
Proof. destruct d as [s|b]; [now rewrite str2ab_spec | reflexivity]. Qed.

Lemma digest_spec_named d o :
  Main.digest d o
  = let* h := normalize_hash (default (js "SHA-256") (Main.digest_hash o)) in
    Ok (hex_encode
          (subtle_digest h
             (hashed_bytes d
                ++ hashed_bytes (default (Str (js "DEFAULT-SALT")) (Main.digest_salt o))))).
Proof.
  unfold Main.digest, crypto_subtle_digest. rewrite abConcat_spec. cbn [bind flat_map contents].
  rewrite app_nil_r, !copied_as_buffer.
  destruct (normalize_hash _); reflexivity.
Qed.

Lemma digest_spec d o :
  Main.digest_hash o = None ->
  Main.digest d o
  = Ok (hex_encode
          (subtle_digest SHA256
             (hashed_bytes d
                ++ hashed_bytes (default (Str (js "DEFAULT-SALT")) (Main.digest_salt o))))).
Proof. intro H. rewrite digest_spec_named, H. reflexivity. Qed.

Lemma jsstring_eqb_refl a : jsstring_eqb a a = true.
Proof. unfold jsstring_eqb. destruct (list_eq_dec Z.eq_dec a a); congruence. Qed.

Lemma jsstring_eqb_neq a b : a <> b -> jsstring_eqb a b = false.
Proof. intro H. unfold jsstring_eqb. destruct (list_eq_dec Z.eq_dec a b); congruence. Qed.

Lemma jsstring_eqb_eq a b : jsstring_eqb a b = true -> a = b.
Proof. unfold jsstring_eqb. destruct (list_eq_dec Z.eq_dec a b); congruence. Qed.

(* add_pointer facts *)
Lemma lookup_app t1 t2 k :
  lookup (t1 ++ t2) k = match lookup t1 k with Some v => Some v | None => lookup t2 k end.
Proof.
  induction t1 as [|[k' v] t1 IH]; [reflexivity|].
  cbn [app lookup]. destruct (jsstring_eqb k k'); [reflexivity | exact IH].
Qed.





Lemma fold_throw {A B} (f : B -> A -> result A) l e :
  fold_left (fun acc x => let* a := acc in f x a) l (Throw e) = Throw e.
Proof. induction l as [|x l IH]; [reflexivity | exact IH]. Qed.




(* ================================================================== *)
(** * [encrypt] and [decrypt] *)

Lemma valid_key_checks k :
  valid_key k = true ->
  check_key (key k) AES_CBC encrypt_usage = Ok tt
  /\ check_key (key k) AES_CBC decrypt_usage = Ok tt
  /\ (byteLength (iv k) =? 16)%nat = true.
Proof.
  unfold valid_key. intro H.
  apply andb_prop in H. destruct H as [H H3].
  apply andb_prop in H. destruct H as [H1 H2].
  repeat split; try assumption.
  - destruct (check_key (key k) AES_CBC encrypt_usage) as [[]|]; [reflexivity | discriminate].
  - destruct (check_key (key k) AES_CBC decrypt_usage) as [[]|]; [reflexivity | discriminate].
Qed.

Lemma encrypt_spec m k e :
  valid_key k = true ->
  Main.encrypt m k e
  = Ok (Buffer_toString
          (aes_cbc_encrypt (key_data (key k)) (contents (iv k)) (utf8_encode m))
          (default Hex e)).
Proof.
  intro H. destruct (valid_key_checks k H) as (H1 & _ & H3).
  unfold Main.encrypt, subtle_encrypt. rewrite H1, H3, str2ab_spec. reflexivity.
Qed.

Lemma decrypt_spec c k e :
  valid_key k = true ->
  Main.decrypt c k e
  = let* p :=
      aes_cbc_decrypt (key_data (key k)) (contents (iv k))
        (match c with
         | Str s => Buffer_from s (default Hex e)
         | Buf b => contents b
         end) in
    Ok (utf8_decode p).
Proof.
  intro H. destruct (valid_key_checks k H) as (_ & H2 & H3).
  unfold Main.decrypt, subtle_decrypt. rewrite H2, H3. cbn [bind negb].
  destruct c as [s|b]; [rewrite str2ab_spec|]; cbn [contents];
    destruct (aes_cbc_decrypt _ _ _); reflexivity.
Qed.

Lemma hex_decode_app_junk b t : hex_decode t = [] -> hex_decode (hex_encode b ++ t) = b.
Proof. intro H. now rewrite hex_decode_encode_app, H, app_nil_r. Qed.

(** What [Buffer.from(s, 'hex')] keeps of any text: the bytes of its longest
    prefix made of pairs of hexadecimal digits. *)
Lemma hex_decode_nil t : hex_decode t = [] <-> starts_with_hex_pair t = false.
Proof.
  destruct t as [|c1 [|c2 t]]; cbn [hex_decode starts_with_hex_pair]; try tauto.
  destruct (unhex c1), (unhex c2); split; try reflexivity; discriminate.
Qed.

Lemma hex_decode_split_bounded n : forall s,
  (length s <= n)%nat ->
  exists p rest,
    s = p ++ rest /\ valid_hex p = true /\ starts_with_hex_pair rest = false
    /\ hex_decode s = hex_decode p /\ length (hex_decode s) = (length p / 2)%nat.
Proof.
  induction n as [|n IH]; intros s Hlen.
  - destruct s; [|simpl in Hlen; lia]. exists [], []. repeat split.
  - destruct s as [|c1 [|c2 s]].
    + exists [], []. repeat split.
    + exists [], [c1]. repeat split.
    + destruct (unhex c1) as [h|] eqn:E1; [destruct (unhex c2) as [l|] eqn:E2|].
      * assert (Hs : (length s <= n)%nat) by (simpl in Hlen; lia).
        destruct (IH s Hs) as (p & rest & -> & Hp & Hr & Hd & Hl).
        exists (c1 :: c2 :: p), rest.
        cbn [app valid_hex hex_decode length]. rewrite E1, E2, Hd.
        repeat split; try assumption. cbn [length]. rewrite <- Hd, Hl.
        change (S (S (length p))) with (2 + length p)%nat.
        replace (2 + length p)%nat with (length p + 1 * 2)%nat by lia.
        rewrite Nat.div_add by lia. lia.
      * exists [], (c1 :: c2 :: s). cbn [app valid_hex hex_decode starts_with_hex_pair length].
        rewrite E1, E2. repeat split.
      * exists [], (c1 :: c2 :: s). cbn [app valid_hex hex_decode starts_with_hex_pair length].
        rewrite E1. repeat split.
Qed.

Lemma hex_decode_split s :
  exists p rest,
    s = p ++ rest /\ valid_hex p = true /\ starts_with_hex_pair rest = false
    /\ hex_decode s = hex_decode p /\ length (hex_decode s) = (length p / 2)%nat.
Proof. apply (hex_decode_split_bounded (length s)). lia. Qed.

(** With valid key material [decrypt] fails, if at all, with the cipher's
    [OperationError]. *)
Lemma pkcs7_unpad_error m e : pkcs7_unpad m = Throw e -> e = OperationError.
Proof.
  unfold pkcs7_unpad.
  destruct ((_ =? 0)%nat || _ || _); [intro H; now injection H|].
  destruct (forallb _ _); [discriminate | intro H; now injection H].
Qed.

Lemma aes_cbc_decrypt_error k i c e : aes_cbc_decrypt k i c = Throw e -> e = OperationError.
Proof.
  unfold aes_cbc_decrypt.
  destruct ((_ =? 0)%nat || _); [intro H; now injection H | apply pkcs7_unpad_error].
Qed.

Lemma decrypt_error c k enc e :
  valid_key k = true -> Main.decrypt c k enc = Throw e -> e = OperationError.
Proof.
  intros Hk. rewrite decrypt_spec by exact Hk.
  destruct (aes_cbc_decrypt _ _ _) as [p|e'] eqn:E; cbn [bind]; [discriminate|].
  intro H. injection H as <-. now apply aes_cbc_decrypt_error in E.
Qed.

(* ================================================================== *)
(** * [genSecretKey] *)

(** [genSecretKey] read as one sequence of calls, the random draws named. *)
Lemma genSecretKey_unfold secret options rnd :
  fst (Main.genSecretKey secret options rnd)
  = let hash := default (js "SHA-256") (Main.opt_hash options) in
    let iterations := default 999 (Main.opt_iterations options) in
    let keyLengthByte := default 48 (Main.opt_keyLengthByte options) in
    let* deriveBitsKey :=
      importKey (Main.str2ab (default (js "PASSPHRASE") secret) None) PBKDF2 false
        [deriveBits_usage] in
    let* derivedBits :=
      deriveBits (MkPbkdf2Params hash (main_salt options rnd) (inject_Z iterations))
        deriveBitsKey (inject_Z keyLengthByte * 8)%Q in
    let* secretKey :=
      importKey (slice derivedBits 0 32) AES_CBC true [encrypt_usage; decrypt_usage] in
    let* secretSalt :=
      deriveBits
        (MkPbkdf2Params hash (Uint8Array (secret_salt_seed options rnd))
           (inject_Z iterations / 2)%Q)
        deriveBitsKey (32 * 8)%Q in
    Ok (MkKeyObject secretKey (slice_last derivedBits 16) (Some (Buf secretSalt))).
Proof.
  unfold Main.genSecretKey, main_salt, secret_salt_seed.
  destruct (Main.opt_salt options) as [[s|b]|];
    cbn [getRandomValues fst snd bind importKey];
    (destruct (deriveBits _ (MkCryptoKey PBKDF2 _ _ _) (_ * 8)%Q) as [derived|e];
     cbn [bind fst]; [|reflexivity]);
    cbn [contents slice];
    match goal with
    | |- context [if ?c then Ok _ else Throw DataError] => destruct c
    end; cbn [bind fst]; reflexivity.
Qed.

Lemma IntegerPart_bytes z : IntegerPart (inject_Z z * 8)%Q = z * 8.
Proof. unfold IntegerPart. cbn. apply Z.quot_1_r. Qed.

Lemma IntegerPart_half z : IntegerPart (inject_Z z / 2)%Q = Z.quot z 2.
Proof. unfold IntegerPart. cbn. now rewrite Z.mul_1_r. Qed.

Lemma IntegerPart_Z z : IntegerPart (inject_Z z) = z.
Proof. unfold IntegerPart. cbn. apply Z.quot_1_r. Qed.

Lemma deriveBits_inv p k len b :
  deriveBits p k len = Ok b ->
  exists h,
    normalize_hash (pbkdf2_hash p) = Ok h
    /\ 1 <= IntegerPart (pbkdf2_iterations p) <= 2 ^ 32 - 1
    /\ b = ArrayBuffer
             (pbkdf2 h (key_data k) (contents (pbkdf2_salt p))
                (Z.to_nat (IntegerPart (pbkdf2_iterations p)))
                (Z.to_nat (to_unsigned_long len / 8))).
Proof.
  unfold deriveBits, enforce_range_unsigned_long.
  destruct (Z.ltb_spec (IntegerPart (pbkdf2_iterations p)) 0);
    [discriminate|].
  destruct (Z.ltb_spec (2 ^ 32 - 1) (IntegerPart (pbkdf2_iterations p)));
    [discriminate|].
  cbn [orb bind]. destruct (normalize_hash (pbkdf2_hash p)) as [h|e]; [|discriminate].
  cbn [bind]. destruct (check_key k PBKDF2 deriveBits_usage); [|discriminate].
  cbn [bind].
  destruct (Z.eqb_spec (IntegerPart (pbkdf2_iterations p)) 0).
  - rewrite orb_true_r. discriminate.
  - destruct (negb (to_unsigned_long len mod 8 =? 0)); [discriminate|].
    cbn [orb]. intro E. injection E as <-. exists h. split; [reflexivity|].
    split; [lia | reflexivity].
Qed.

Lemma seq_add_map n len : forall s, List.map (fun i => n + i)%nat (seq s len) = seq (n + s) len.
Proof.
  induction len as [|len IH]; intro s; [reflexivity|].
  cbn [seq List.map]. rewrite IH. now rewrite Nat.add_succ_r.
Qed.

Lemma secret_salt_seed_positions options rnd :
  secret_salt_seed options rnd
  = List.map rnd
      (seq (match Main.opt_salt options with Some _ => 0 | None => 512 end) 512).
Proof.
  unfold secret_salt_seed, getRandomValues. destruct (Main.opt_salt options); cbn [fst snd];
    [reflexivity|].
  pose proof (seq_add_map 512 512 0) as E. rewrite Nat.add_0_r in E.
  rewrite <- E, map_map. reflexivity.
Qed.

Lemma genSecretKey_result secret options rnd hash :
  let iterations := default 999 (Main.opt_iterations options) in
  let keyLengthByte := default 48 (Main.opt_keyLengthByte options) in
  let password := hex_decode (default (js "PASSPHRASE") secret) in
  let derived :=
    pbkdf2 hash password (contents (main_salt options rnd)) (Z.to_nat iterations)
      (Z.to_nat keyLengthByte) in
  normalize_hash (default (js "SHA-256") (Main.opt_hash options)) = Ok hash ->
  2 <= iterations <= 2 ^ 32 - 1 ->
  0 < keyLengthByte -> keyLengthByte * 8 < 2 ^ 32 ->
  fst (Main.genSecretKey secret options rnd)
  = if (keyLengthByte =? 16) || (keyLengthByte =? 24) || (32 <=? keyLengthByte)
    then Ok (MkKeyObject
               (MkCryptoKey AES_CBC true [encrypt_usage; decrypt_usage] (firstn 32 derived))
               (ArrayBuffer (skipn (Z.to_nat keyLengthByte - 16) derived))
               (Some (Buf (ArrayBuffer
                             (pbkdf2 hash password (secret_salt_seed options rnd)
                                (Z.to_nat (Z.quot iterations 2)) 32)))))
    else Throw DataError.
Proof.
  cbv zeta. intros Hn Hit Hk Hk8.
  rewrite genSecretKey_unfold. cbv zeta.
  set (it := default 999 (Main.opt_iterations options)) in *.
  set (klb := default 48 (Main.opt_keyLengthByte options)) in *.
  rewrite str2ab_spec. cbn [importKey bind contents default].
  rewrite (deriveBits_ok _ hash _ _ _ _ (Z.to_nat klb))
    by first [exact Hn | rewrite ?IntegerPart_Z, ?IntegerPart_bytes; lia].
  cbn [bind]. rewrite IntegerPart_Z.
  set (derived := pbkdf2 _ _ _ (Z.to_nat it) (Z.to_nat klb)).
  assert (Hd : length derived = Z.to_nat klb) by apply pbkdf2_length.
  unfold slice, slice_last, byteLength. cbn [importKey contents skipn Nat.sub].
  rewrite length_firstn, Hd.
  rewrite (deriveBits_ok _ hash _ _ _ _ 32)
    by first [exact Hn
             | rewrite ?IntegerPart_half; try reflexivity; try lia;
               pose proof (Z.quot_le_mono 2 it 2 ltac:(lia) ltac:(lia));
               pose proof (Z.quot_le_upper_bound it 2 it ltac:(lia) ltac:(lia));
               change (Z.quot 2 2) with 1 in *; lia].
  rewrite IntegerPart_half. cbn [bind contents].
  destruct (Z.eqb_spec klb 16) as [E16|N16].
  - rewrite E16. reflexivity.
  - destruct (Z.eqb_spec klb 24) as [E24|N24].
    + rewrite E24. reflexivity.
    + destruct (Z.leb_spec 32 klb) as [G|L]; cbn [orb].
      * replace (Nat.min 32 (Z.to_nat klb)) with 32%nat by lia. reflexivity.
      * replace (Nat.min 32 (Z.to_nat klb)) with (Z.to_nat klb) by lia.
        replace (Z.to_nat klb =? 16)%nat with false by (symmetry; apply Nat.eqb_neq; lia).
        replace (Z.to_nat klb =? 24)%nat with false by (symmetry; apply Nat.eqb_neq; lia).
        replace (Z.to_nat klb =? 32)%nat with false by (symmetry; apply Nat.eqb_neq; lia).
        reflexivity.
Qed.

Lemma deriveBits_salt_independent h s1 s2 it k len :
  match deriveBits (MkPbkdf2Params h s1 it) k len,
        deriveBits (MkPbkdf2Params h s2 it) k len with
  | Ok _, Ok _ => True
  | Throw e1, Throw e2 => e1 = e2
  | _, _ => False
  end.
Proof.
  unfold deriveBits. cbn [pbkdf2_iterations pbkdf2_hash pbkdf2_salt].
  destruct (enforce_range_unsigned_long it) as [n|e]; cbn [bind]; [|reflexivity].
  destruct (normalize_hash h) as [alg|e]; cbn [bind]; [|reflexivity].
  destruct (check_key k PBKDF2 deriveBits_usage) as [u|e]; cbn [bind]; [|reflexivity].
  destruct (negb (to_unsigned_long len mod 8 =? 0) || (n =? 0));
    [reflexivity | exact I].
Qed.

(* ================================================================== *)
(** * Further facts about [digest], [trapdoor], key material and [src/crypto.js] *)

(** [abConcat] of typed arrays is their concatenation. *)
Lemma abConcat_views (l : list bytes) :
  Main.abConcat (List.map Uint8Array l) = Ok (Uint8Array (concat l)).
Proof.
  rewrite abConcat_spec. do 2 f_equal.
  induction l as [|b l IH]; [reflexivity|]. cbn [List.map flat_map copied concat].
  now rewrite IH.
Qed.

(** For data and salt that are strings or typed arrays, [digest] hashes the
    bytes of the data followed by the bytes of the salt. *)
Lemma digest_concatenates_views (d s : data) :
  (forall b, d <> Buf (ArrayBuffer b)) -> (forall b, s <> Buf (ArrayBuffer b)) ->
  Main.digest d (Main.salt_option (Some s))
  = Ok (hex_encode
          (subtle_digest SHA256
             (match d with Str t => utf8_encode t | Buf b => contents b end
              ++ match s with Str t => utf8_encode t | Buf b => contents b end))).
Proof.
  intros Hd Hs. rewrite digest_spec by reflexivity. cbn [Main.salt_option Main.digest_hash Main.digest_salt default].
  do 3 f_equal. f_equal.
  - destruct d as [t|[b|b]]; [reflexivity | now elim (Hd b) | reflexivity].
  - destruct s as [t|[b|b]]; [reflexivity | now elim (Hs b) | reflexivity].
Qed.

(** The defaults of [digest]: SHA-256 and the salt "DEFAULT-SALT". *)
Lemma digest_defaults (d : data) :
  Main.digest d Main.no_options
  = Main.digest d (Main.MkDigestOptions (Some (js "SHA-256")) (Some (Str (js "DEFAULT-SALT")))).
Proof. reflexivity. Qed.

(** Swapping data and salt changes the digest. *)
Lemma digest_order_matters :
  Main.digest (Str (js "a")) (Main.salt_option (Some (Str (js "b"))))
  <> Main.digest (Str (js "b")) (Main.salt_option (Some (Str (js "a")))).
Proof. vm_compute. discriminate. Qed.

(** Of a salt that is a raw [ArrayBuffer] only the length reaches the hash. *)
Lemma digest_ArrayBuffer_salt_ignored (d : data) (b1 b2 : bytes) :
  length b1 = length b2 ->
  Main.digest d (Main.salt_option (Some (Buf (ArrayBuffer b1))))
  = Main.digest d (Main.salt_option (Some (Buf (ArrayBuffer b2)))).
Proof.
  intro H. rewrite !digest_spec by reflexivity.
  cbn [Main.salt_option Main.digest_salt default hashed_bytes copied]. now rewrite H.
Qed.

Lemma hex_encode_length b : length (hex_encode b) = (2 * length b)%nat.
Proof. induction b as [|x b IH]; [reflexivity|]. cbn [hex_encode length]. lia. Qed.

Lemma hex_encode_digits b : valid_hex (hex_encode b) = true.
Proof.
  induction b as [|x b IH]; [reflexivity|].
  cbn [hex_encode valid_hex].
  assert (H : exists h l, unhex (hex_digit (Z_of_byte x / 16)) = Some h
                          /\ unhex (hex_digit (Z_of_byte x mod 16)) = Some l)
    by (destruct x; eexists _, _; split; reflexivity).
  destruct H as (h & l & -> & ->). exact IH.
Qed.

(** [trapdoor] always returns, and what it returns is a SHA-256 digest in
    hexadecimal: 64 hexadecimal digits. *)
Lemma trapdoor_returns (query : data) (k : KeyObject) :
  exists t, Main.trapdoor query k = Ok t /\ length t = 64%nat /\ valid_hex t = true.
Proof.
  unfold Main.trapdoor. rewrite digest_spec by reflexivity. eexists. split; [reflexivity|].
  split; [|apply hex_encode_digits].
  rewrite hex_encode_length, subtle_digest_length. reflexivity.
Qed.

(** Key material as [genSecretKey] returns it has a raw [ArrayBuffer] of 32
    bytes as [secretSalt]. *)
Lemma generated_secretSalt secret options rnd k :
  fst (Main.genSecretKey secret options rnd) = Ok k ->
  exists salt32, secretSalt k = Some (Buf (ArrayBuffer salt32)) /\ length salt32 = 32%nat.
Proof.
  intro H. rewrite genSecretKey_unfold in H. cbv zeta in H.
  destruct (importKey _ PBKDF2 _ _) as [dk|e]; [|discriminate H]. cbn [bind] in H.
  destruct (deriveBits _ dk (inject_Z _ * 8)%Q) as [derived|e]; [|discriminate H].
  cbn [bind] in H.
  destruct (importKey (slice derived 0 32) _ _ _) as [sk|e]; [|discriminate H].
  cbn [bind] in H.
  destruct (deriveBits _ dk (32 * 8)%Q) as [salt|e] eqn:E; [|discriminate H].
  cbn [bind] in H. injection H as <-.
  apply deriveBits_inv in E. destruct E as (h & _ & _ & ->).
  eexists. split; [reflexivity|]. apply pbkdf2_length.
Qed.

(** Under such key material the trapdoor of a query is the digest of the
    query followed by 32 zero bytes, whatever the bytes of [secretSalt]. *)
Lemma trapdoor_of_generated_key (query : data) (k : KeyObject) (salt32 : bytes) :
  secretSalt k = Some (Buf (ArrayBuffer salt32)) -> length salt32 = 32%nat ->
  Main.trapdoor query k
  = Ok (hex_encode (subtle_digest SHA256 (hashed_bytes query ++ repeat x00 32))).
Proof.
  intros Hs Hl. unfold Main.trapdoor. rewrite digest_spec by reflexivity. rewrite Hs.
  cbn [Main.salt_option Main.digest_hash Main.digest_salt default hashed_bytes copied].
  now rewrite Hl.
Qed.

(** Hence any two generated key materials give a query the same trapdoor. *)
Lemma generated_keys_share_trapdoors (query : data)
    secret options rnd k secret' options' rnd' k' :
  fst (Main.genSecretKey secret options rnd) = Ok k ->
  fst (Main.genSecretKey secret' options' rnd') = Ok k' ->
  Main.trapdoor query k = Main.trapdoor query k'.
Proof.
  intros H H'.
  destruct (generated_secretSalt _ _ _ _ H) as (s & Hs & Hl).
  destruct (generated_secretSalt _ _ _ _ H') as (s' & Hs' & Hl').
  now rewrite (trapdoor_of_generated_key query k s Hs Hl),
    (trapdoor_of_generated_key query k' s' Hs' Hl').
Qed.

(** Key material that [genSecretKey] returns is valid for [encrypt] and
    [decrypt]: an AES-CBC key with both usages and an [iv] of 16 bytes. *)
Lemma generated_key_valid secret options rnd k :
  fst (Main.genSecretKey secret options rnd) = Ok k -> valid_key k = true.
Proof.
  intro H. rewrite genSecretKey_unfold in H. cbv zeta in H.
  destruct (importKey _ PBKDF2 _ _) as [dk|e]; [|discriminate H]. cbn [bind] in H.
  destruct (deriveBits _ dk (inject_Z _ * 8)%Q) as [derived|e]; [|discriminate H].
  cbn [bind] in H.
  destruct (importKey (slice derived 0 32) _ _ _) as [sk|e] eqn:E; [|discriminate H].
  cbn [bind] in H.
  destruct (deriveBits _ dk (32 * 8)%Q) as [salt|e]; [|discriminate H].
  cbn [bind] in H. injection H as <-.
  unfold importKey, slice in E. cbn [contents skipn Nat.sub] in E.
  rewrite length_firstn in E.
  destruct ((Nat.min 32 (length (contents derived)) =? 16)%nat
            || (Nat.min 32 (length (contents derived)) =? 24)%nat
            || (Nat.min 32 (length (contents derived)) =? 32)%nat) eqn:L; [|discriminate E].
  injection E as <-.
  unfold valid_key, check_key. cbn. unfold slice_last, byteLength. cbn [contents].
  rewrite length_skipn. apply Nat.eqb_eq.
  apply orb_prop in L. destruct L as [L|L]; [apply orb_prop in L; destruct L as [L|L]|];
    apply Nat.eqb_eq in L; lia.
Qed.

(** No documents, empty table. *)
Lemma buildIndex_empty k getKeywords : Main.buildIndex [] k getKeywords = Ok [].
Proof. reflexivity. Qed.

(** The table of the two documents 'a b' and 'b c' when the three
    trapdoors are distinct. *)
Lemma buildIndex_two_documents (k : KeyObject) (p1 p2 ta tb tc : jsstring) :
  Main.trapdoor (Str (js "a")) k = Ok ta ->
  Main.trapdoor (Str (js "b")) k = Ok tb ->
  Main.trapdoor (Str (js "c")) k = Ok tc ->
  NoDup [ta; tb; tc] ->
  Main.buildIndex
    [MkDocument p1 (Str (js "a b")); MkDocument p2 (Str (js "b c"))] k None
  = Ok [(ta, [p1]); (tb, [p1; p2]); (tc, [p2])].
Proof.
  intros Ha Hb Hc Hnd.
  assert (Hab : ta <> tb /\ ta <> tc /\ tb <> tc).
  { inversion Hnd as [|x l H1 H2]; subst. inversion H2 as [|y l' H3 H4]; subst.
    cbn [In] in H1, H3. repeat split; intro; subst; tauto. }
  destruct Hab as (Hab & Hac & Hbc).
  unfold Main.trapdoor in Ha, Hb, Hc.
  unfold Main.buildIndex.
  cbn [Main.resolve_getKeywords doc_data is_string fold_left bind Main.index_document
       Main.default_getKeywords pointer].
  replace (new_Set (split_spaces [] (js "a b"))) with [js "a"; js "b"] by reflexivity.
  replace (new_Set (split_spaces [] (js "b c"))) with [js "b"; js "c"] by reflexivity.
  unfold Main.index_keywords, Main.add_pointer.
  cbn [List.map fold_left bind].
  rewrite Ha, Hb, Hc.
  repeat (cbn [bind lookup app push pointer];
          rewrite ?jsstring_eqb_refl, ?(jsstring_eqb_neq tb ta), ?(jsstring_eqb_neq tc ta),
            ?(jsstring_eqb_neq tc tb) by congruence).
  reflexivity.
Qed.

(** For every key material that [genSecretKey] returns the three trapdoors
    are the same three distinct digests, and the table is known in full. *)
Lemma buildIndex_example_generated_key secret options rnd (k : KeyObject) (p1 p2 : jsstring) :
  fst (Main.genSecretKey secret options rnd) = Ok k ->
  Main.buildIndex
    [MkDocument p1 (Str (js "a b")); MkDocument p2 (Str (js "b c"))] k None
  = Ok [(sample_ta, [p1]); (sample_tb, [p1; p2]); (sample_tc, [p2])].
Proof.
  intro H. destruct (generated_secretSalt _ _ _ _ H) as (s & Hs & Hl).
  apply buildIndex_two_documents;
    try (rewrite (trapdoor_of_generated_key _ k s Hs Hl); vm_compute; reflexivity).
  repeat constructor; cbn [In]; intuition discriminate.
Qed.

(** With encoding 'utf-8' the functions of [src/crypto.js] are those of the
    package. *)
Lemma crypto_js_agrees_on_utf8 (text : jsstring) (k : KeyObject) :
  CryptoJs.encrypt text k (Some Utf8) = Main.encrypt text k (Some Utf8)
  /\ CryptoJs.decrypt text k (Some Utf8) = Main.decrypt (Str text) k (Some Utf8).
Proof. split; reflexivity. Qed.

(* ================================================================== *)
(** * Text: [toWellFormed], UTF-8 of a concatenation, lower-case hexadecimal *)

Lemma toWellFormed_bounded n : forall s,
  (length s <= n)%nat -> code_units s = true ->
  utf8_encode (toWellFormed s) = utf8_encode s /\ well_formed (toWellFormed s) = true.
Proof.
  induction n as [|n IH]; intros s Hlen Hcu.
  - destruct s; [split; reflexivity | simpl in Hlen; lia].
  - destruct s as [|c s]; [split; reflexivity|].
    cbn [code_units forallb] in Hcu. apply andb_prop in Hcu. destruct Hcu as [Hc Hcu].
    cbn [toWellFormed utf8_encode].
    destruct (is_high_surrogate c) eqn:Hh.
    + destruct s as [|d s]; [split; reflexivity|].
      cbn [forallb] in Hcu. apply andb_prop in Hcu. destruct Hcu as [Hd Hcu'].
      destruct (is_low_surrogate d) eqn:Hl.
      * assert (Hs : (length s <= n)%nat) by (simpl in Hlen; lia).
        destruct (IH s Hs Hcu') as [E W].
        cbn [utf8_encode well_formed]. rewrite Hh, Hl, E, W. split; reflexivity.
      * assert (Hds : code_units (d :: s) = true)
          by (cbn [code_units forallb]; rewrite Hd; exact Hcu').
        assert (Hs : (length (d :: s) <= n)%nat) by (simpl in Hlen |- *; lia).
        destruct (IH (d :: s) Hs Hds) as [E W].
        change (utf8_encode (0xFFFD :: toWellFormed (d :: s)))
          with (replacement_bytes ++ utf8_encode (toWellFormed (d :: s))).
        change (well_formed (0xFFFD :: toWellFormed (d :: s)))
          with (well_formed (toWellFormed (d :: s))).
        rewrite E, W. split; reflexivity.
    + assert (Hs : (length s <= n)%nat) by (simpl in Hlen; lia).
      destruct (IH s Hs Hcu) as [E W].
      destruct (is_low_surrogate c) eqn:Hl.
      * change (utf8_encode (0xFFFD :: toWellFormed s))
          with (replacement_bytes ++ utf8_encode (toWellFormed s)).
        change (well_formed (0xFFFD :: toWellFormed s)) with (well_formed (toWellFormed s)).
        rewrite E, W. split; reflexivity.
      * cbn [utf8_encode well_formed]. rewrite Hh, Hl, E, W, Hc. split; reflexivity.
Qed.

Lemma toWellFormed_encode s :
  code_units s = true -> utf8_encode (toWellFormed s) = utf8_encode s.
Proof. intro H. apply (toWellFormed_bounded (length s)); [lia | exact H]. Qed.

Lemma toWellFormed_well_formed s :
  code_units s = true -> well_formed (toWellFormed s) = true.
Proof. intro H. apply (toWellFormed_bounded (length s)); [lia | exact H]. Qed.

Lemma well_formed_fixed_bounded n : forall s,
  (length s <= n)%nat -> well_formed s = true -> toWellFormed s = s /\ code_units s = true.
Proof.
  induction n as [|n IH]; intros s Hlen Hwf.
  - destruct s; [split; reflexivity | simpl in Hlen; lia].
  - destruct s as [|c s]; [split; reflexivity|].
    cbn [well_formed toWellFormed] in *.
    destruct (is_high_surrogate c) eqn:Hh.
    + destruct s as [|d s]; [discriminate Hwf|].
      apply andb_prop in Hwf. destruct Hwf as [Hd Hwf]. rewrite Hd.
      assert (Hs : (length s <= n)%nat) by (simpl in Hlen; lia).
      destruct (IH s Hs Hwf) as [E C].
      rewrite E. split; [reflexivity|].
      cbn [code_units forallb]. fold (code_units s). rewrite C.
      unfold is_high_surrogate, is_low_surrogate, is_code_unit in *. lia.
    + apply andb_prop in Hwf. destruct Hwf as [Hc Hwf].
      apply andb_prop in Hc. destruct Hc as [Hc Hl]. rewrite (negb_true_iff _) in Hl.
      rewrite Hl.
      assert (Hs : (length s <= n)%nat) by (simpl in Hlen; lia).
      destruct (IH s Hs Hwf) as [E C].
      rewrite E. split; [reflexivity|].
      cbn [code_units forallb]. fold (code_units s). now rewrite C, Hc.
Qed.

Lemma toWellFormed_fixed s : well_formed s = true -> toWellFormed s = s.
Proof. intro H. apply (well_formed_fixed_bounded (length s)); [lia | exact H]. Qed.

Lemma well_formed_code_units s : well_formed s = true -> code_units s = true.
Proof. intro H. apply (well_formed_fixed_bounded (length s)); [lia | exact H]. Qed.

(** Encoding a string in UTF-8 and decoding the bytes gives the string with
    its lone surrogates replaced. *)
Lemma utf8_text_roundtrip s :
  code_units s = true -> utf8_decode (utf8_encode s) = toWellFormed s.
Proof.
  intro H. rewrite <- (toWellFormed_encode s H).
  apply utf8_roundtrip, toWellFormed_well_formed, H.
Qed.

Lemma utf8_encode_app_bounded n : forall s t,
  (length s <= n)%nat -> well_formed s = true ->
  utf8_encode (s ++ t) = utf8_encode s ++ utf8_encode t.
Proof.
  induction n as [|n IH]; intros s t Hlen Hwf.
  - destruct s; [reflexivity | simpl in Hlen; lia].
  - destruct s as [|c s]; [reflexivity|].
    cbn [well_formed] in Hwf. cbn [app utf8_encode].
    destruct (is_high_surrogate c) eqn:Hh.
    + destruct s as [|d s]; [discriminate Hwf|].
      apply andb_prop in Hwf. destruct Hwf as [Hd Hwf]. cbn [app]. rewrite Hd.
      assert (Hs : (length s <= n)%nat) by (simpl in Hlen; lia).
      now rewrite (IH s t Hs Hwf), app_assoc.
    + apply andb_prop in Hwf. destruct Hwf as [Hc Hwf].
      assert (Hs : (length s <= n)%nat) by (simpl in Hlen; lia).
      rewrite (IH s t Hs Hwf).
      destruct (is_low_surrogate c); now rewrite app_assoc.
Qed.

Lemma utf8_encode_app s t :
  well_formed s = true -> utf8_encode (s ++ t) = utf8_encode s ++ utf8_encode t.
Proof. apply (utf8_encode_app_bounded (length s)). lia. Qed.

Lemma hex_digit_lower c :
  is_lower_hex_digit c = true ->
  exists v, unhex c = Some v /\ 0 <= v < 16 /\ hex_digit v = c.
Proof.
  unfold is_lower_hex_digit, unhex, hex_digit. intro H.
  rewrite low_byte_small by lia. unfold hex_value.
  destruct ((48 <=? c) && (c <=? 57)) eqn:E1.
  - exists (c - 48). split; [reflexivity|]. split; [lia|].
    replace (c - 48 <? 10) with true by (symmetry; lia). lia.
  - cbn [orb] in H. rewrite H. exists (c - 87). split; [reflexivity|]. split; [lia|].
    replace (c - 87 <? 10) with false by (symmetry; lia). lia.
Qed.

Lemma hex_encode_decode_bounded n : forall s,
  (length s <= n)%nat -> lower_hex s = true -> hex_encode (hex_decode s) = s.
Proof.
  induction n as [|n IH]; intros s Hlen H.
  - destruct s; [reflexivity | simpl in Hlen; lia].
  - destruct s as [|c1 [|c2 s]]; [reflexivity | discriminate H|].
    cbn [lower_hex] in H. apply andb_prop in H. destruct H as [H H3].
    apply andb_prop in H. destruct H as [H1 H2].
    destruct (hex_digit_lower c1 H1) as (h & Eh & Rh & Dh).
    destruct (hex_digit_lower c2 H2) as (l & El & Rl & Dl).
    cbn [hex_decode]. rewrite Eh, El. cbn [hex_encode].
    rewrite Z_of_byte_of_Z by lia.
    replace ((16 * h + l) / 16) with h by (Z.div_mod_to_equations; lia).
    replace ((16 * h + l) mod 16) with l by (Z.div_mod_to_equations; lia).
    rewrite Dh, Dl, IH; [reflexivity | simpl in Hlen; lia | exact H3].
Qed.

Lemma hex_encode_decode s : lower_hex s = true -> hex_encode (hex_decode s) = s.
Proof. apply (hex_encode_decode_bounded (length s)). lia. Qed.

Lemma hex_encode_lower b : lower_hex (hex_encode b) = true.
Proof.
  induction b as [|x b IH]; [reflexivity|].
  cbn [hex_encode lower_hex]. rewrite IH, andb_true_r.
  pose proof (Z_of_byte_range x) as R.
  unfold is_lower_hex_digit, hex_digit.
  apply andb_true_intro. split.
  - destruct (Z.ltb_spec (Z_of_byte x / 16) 10); Z.div_mod_to_equations; lia.
  - destruct (Z.ltb_spec (Z_of_byte x mod 16) 10); Z.div_mod_to_equations; lia.
Qed.

Lemma hex_encode_app a b : hex_encode (a ++ b) = hex_encode a ++ hex_encode b.
Proof. induction a as [|x a IH]; [reflexivity|]. cbn [app hex_encode]. now rewrite IH. Qed.

Lemma flat_map_copied_length buffers :
  length (flat_map copied buffers) = list_sum (List.map byteLength buffers).
Proof.
  induction buffers as [|x l IH]; [reflexivity|].
  cbn [flat_map List.map list_sum]. now rewrite length_app, copied_length, IH.
Qed.

(* ================================================================== *)
(** * The index table as a function of the visited keywords *)

Lemma existsb_eqb_In x l : existsb (jsstring_eqb x) l = true <-> In x l.
Proof.
  rewrite existsb_exists. split.
  - intros (y & Hy & E). apply jsstring_eqb_eq in E. now subst.
  - intro H. exists x. split; [exact H | apply jsstring_eqb_refl].
Qed.

Lemma existsb_eqb_notIn x l : existsb (jsstring_eqb x) l = false <-> ~ In x l.
Proof.
  rewrite <- existsb_eqb_In. destruct (existsb _ l); split; intro H; congruence.
Qed.

Lemma jsstring_eqb_sym a b : jsstring_eqb a b = jsstring_eqb b a.
Proof.
  destruct (jsstring_eqb b a) eqn:E.
  - apply jsstring_eqb_eq in E. subst. apply jsstring_eqb_refl.
  - destruct (jsstring_eqb a b) eqn:E'; [|reflexivity].
    apply jsstring_eqb_eq in E'. subst. now rewrite jsstring_eqb_refl in E.
Qed.

Lemma new_Set_snoc l x :
  new_Set (l ++ [x])
  = if existsb (jsstring_eqb x) (new_Set l) then new_Set l else new_Set l ++ [x].
Proof. unfold new_Set. now rewrite fold_left_app. Qed.

Lemma new_Set_spec l : NoDup (new_Set l) /\ (forall x, In x (new_Set l) <-> In x l).
Proof.
  induction l as [|x l IH] using rev_ind.
  - split; [constructor | tauto].
  - destruct IH as [ND I]. rewrite new_Set_snoc.
    destruct (existsb (jsstring_eqb x) (new_Set l)) eqn:E.
    + apply existsb_eqb_In in E. split; [exact ND|].
      intro y. rewrite in_app_iff, I. cbn [In]. split; [tauto|].
      intros [H|[H|[]]]; [exact H | subst; now apply I].
    + apply existsb_eqb_notIn in E. split.
      * apply NoDup_app; [exact ND | repeat constructor; tauto |].
        intros y Hy [Hx|[]]. subst. tauto.
      * intro y. rewrite !in_app_iff, I. tauto.
Qed.

Lemma new_Set_cons x l : exists l', new_Set (x :: l) = x :: l'.
Proof.
  induction l as [|y l IH] using rev_ind; [now exists []|].
  destruct IH as [l' E]. rewrite app_comm_cons, new_Set_snoc, E.
  destruct (existsb _ _); [now exists l' | now exists (l' ++ [y])].
Qed.

Lemma pointers_at_snoc t es td p :
  pointers_at t (es ++ [(td, p)])
  = pointers_at t es ++ (if jsstring_eqb t td then [p] else []).
Proof.
  unfold pointers_at. rewrite filter_app, map_app. cbn [filter fst].
  now destruct (jsstring_eqb t td).
Qed.

Lemma pointers_at_absent t es : ~ In t (List.map fst es) -> pointers_at t es = [].
Proof.
  unfold pointers_at. induction es as [|[t' p] es IH]; [reflexivity|].
  cbn [List.map fst In filter]. intro H.
  rewrite jsstring_eqb_neq by (intro; subst; tauto). apply IH. tauto.
Qed.

Lemma pointers_at_present t es : In t (List.map fst es) -> pointers_at t es <> [].
Proof.
  unfold pointers_at. induction es as [|[t' p] es IH]; [intros []|].
  cbn [List.map fst In filter]. intro H.
  destruct (jsstring_eqb t t') eqn:E; [discriminate|].
  apply IH. destruct H as [H|H]; [|exact H]. subst. now rewrite jsstring_eqb_refl in E.
Qed.

Lemma lookup_map (g : jsstring -> list jsstring) K t :
  lookup (List.map (fun t => (t, g t)) K) t
  = if existsb (jsstring_eqb t) K then Some (g t) else None.
Proof.
  induction K as [|k K IH]; [reflexivity|].
  cbn [List.map lookup existsb]. destruct (jsstring_eqb t k) eqn:E; [|exact IH].
  apply jsstring_eqb_eq in E. now subst.
Qed.

Lemma push_map (g g' : jsstring -> list jsstring) K td p :
  NoDup K -> g' td = g td ++ [p] -> (forall t, t <> td -> g' t = g t) ->
  push (List.map (fun t => (t, g t)) K) td p
  = List.map (fun t => (t, if existsb (jsstring_eqb td) K then g' t else g t)) K.
Proof.
  intros ND Htd Hoth. induction K as [|k K IH]; [reflexivity|].
  inversion ND as [|? ? Hk ND']; subst.
  cbn [List.map push existsb]. destruct (jsstring_eqb td k) eqn:E.
  - apply jsstring_eqb_eq in E. subst k. cbn [orb]. rewrite Htd. f_equal.
    apply map_ext_in. intros t Ht. f_equal. symmetry. apply Hoth. intro; subst; tauto.
  - cbn [orb]. rewrite IH by exact ND'.
    destruct (existsb (jsstring_eqb td) K) eqn:X.
    + f_equal. f_equal. symmetry. apply Hoth. intro; subst. now rewrite jsstring_eqb_refl in E.
    + reflexivity.
Qed.

Lemma push_absent T T2 td p :
  ~ In td (List.map fst T) -> push (T ++ T2) td p = T ++ push T2 td p.
Proof.
  induction T as [|[k v] T IH]; [reflexivity|].
  cbn [List.map fst In app push]. intro H.
  rewrite jsstring_eqb_neq by (intro; subst; tauto). f_equal. apply IH. tauto.
Qed.

(** One step of the inner loop extends the table by one entry. *)
Lemma table_of_snoc es td p :
  Main.add_pointer (table_of es) td p = table_of (es ++ [(td, p)]).
Proof.
  unfold Main.add_pointer, table_of at 1 2.
  rewrite lookup_map.
  destruct (new_Set_spec (List.map fst es)) as [ND I].
  unfold table_of. rewrite map_app. cbn [List.map fst]. rewrite new_Set_snoc.
  destruct (existsb (jsstring_eqb td) (new_Set (List.map fst es))) eqn:E.
  - rewrite (push_map (fun t => pointers_at t es) (fun t => pointers_at t (es ++ [(td, p)])));
      [rewrite E; reflexivity | exact ND | |].
    + rewrite pointers_at_snoc. now rewrite jsstring_eqb_refl.
    + intros t Ht. rewrite pointers_at_snoc, jsstring_eqb_neq by exact Ht. apply app_nil_r.
  - apply existsb_eqb_notIn in E.
    rewrite push_absent by (rewrite map_map; cbn [fst]; rewrite map_id; exact E).
    cbn [push]. rewrite jsstring_eqb_refl. rewrite map_app. cbn [List.map app]. f_equal.
    + apply map_ext_in. intros t Ht. f_equal.
      rewrite pointers_at_snoc, jsstring_eqb_neq by (intro; subst; tauto).
      symmetry. apply app_nil_r.
    + rewrite pointers_at_snoc, jsstring_eqb_refl, pointers_at_absent; [reflexivity|].
      intro H. apply E, I, H.
Qed.

Lemma fold_add_pointer es :
  fold_left (fun t e => Main.add_pointer t (fst e) (snd e)) es [] = table_of es.
Proof.
  induction es as [|[td p] es IH] using rev_ind; [reflexivity|].
  rewrite fold_left_app, IH. cbn [fold_left fst snd]. apply table_of_snoc.
Qed.

Lemma trapdoor_total w k : Main.trapdoor w k = Ok (trapdoor_text k w).
Proof. unfold trapdoor_text, Main.trapdoor. now rewrite digest_spec by reflexivity. Qed.

Lemma index_keywords_fold k doc kws : forall t,
  Main.index_keywords k doc kws t
  = Ok (fold_left (fun t e => Main.add_pointer t (fst e) (snd e))
          (List.map (fun w => (trapdoor_text k w, pointer doc)) kws) t).
Proof.
  unfold Main.index_keywords.
  induction kws as [|w kws IH]; intro t; [reflexivity|].
  cbn [fold_left List.map bind].
  fold (Main.trapdoor w k). rewrite trapdoor_total. cbn [bind fst snd]. apply IH.
Qed.

Lemma documents_fold k (g : data -> result (list data)) (f : data -> list data) docs : forall t,
  (forall doc, In doc docs -> g (doc_data doc) = Ok (f (doc_data doc))) ->
  fold_left (fun acc doc => let* indexTable := acc in
                            Main.index_document k (Some g) doc indexTable) docs (Ok t)
  = Ok (fold_left (fun t e => Main.add_pointer t (fst e) (snd e)) (index_entries k f docs) t).
Proof.
  induction docs as [|doc docs IH]; intros t H; [reflexivity|].
  cbn [fold_left bind index_entries flat_map]. unfold Main.index_document at 2.
  rewrite (H doc (or_introl eq_refl)). cbn [bind].
  rewrite index_keywords_fold, fold_left_app.
  apply IH. intros d Hd. apply H. now right.
Qed.

(** [buildIndex] with an extractor: the table of the visited entries. *)
Lemma buildIndex_table docs k f :
  Main.buildIndex docs k (Some f) = Ok (table_of (index_entries k f docs)).
Proof.
  unfold Main.buildIndex. cbn [Main.resolve_getKeywords].
  rewrite (documents_fold k _ f) by reflexivity. now rewrite fold_add_pointer.
Qed.

Lemma all_strings_keywords docs :
  forallb (fun doc => is_string (doc_data doc)) docs = true ->
  forall doc, In doc docs ->
    Main.default_getKeywords (doc_data doc) = Ok (split_keywords (doc_data doc)).
Proof.
  intros H doc Hd. rewrite forallb_forall in H. specialize (H doc Hd).
  destruct (doc_data doc); [reflexivity | discriminate H].
Qed.

Lemma lookup_table_of es t :
  lookup (table_of es) t
  = match pointers_at t es with [] => None | ps => Some ps end.
Proof.
  unfold table_of. rewrite lookup_map.
  destruct (new_Set_spec (List.map fst es)) as [_ I].
  destruct (existsb (jsstring_eqb t) (new_Set (List.map fst es))) eqn:E.
  - apply existsb_eqb_In, I in E. apply pointers_at_present in E.
    now destruct (pointers_at t es).
  - apply existsb_eqb_notIn in E.
    rewrite pointers_at_absent; [reflexivity|]. intro H. apply E, I, H.
Qed.

Lemma in_pointers_at t es p : In p (pointers_at t es) <-> In (t, p) es.
Proof.
  unfold pointers_at. rewrite in_map_iff. split.
  - intros ([t' p'] & E & H). cbn [snd] in E. subst p'.
    apply filter_In in H. destruct H as [H X]. cbn [fst] in X.
    apply jsstring_eqb_eq in X. now subst.
  - intro H. exists (t, p). split; [reflexivity|].
    apply filter_In. split; [exact H | apply jsstring_eqb_refl].
Qed.

Lemma in_index_entries k f docs t p :
  In (t, p) (index_entries k f docs)
  <-> exists doc w, In doc docs /\ In w (f (doc_data doc))
                    /\ pointer doc = p /\ Main.trapdoor w k = Ok t.
Proof.
  unfold index_entries. rewrite in_flat_map. split.
  - intros (doc & Hd & H). apply in_map_iff in H. destruct H as (w & E & Hw).
    injection E as <- <-. exists doc, w. repeat split; try assumption. apply trapdoor_total.
  - intros (doc & w & Hd & Hw & <- & Ht). exists doc. split; [exact Hd|].
    apply in_map_iff. exists w. split; [|exact Hw].
    rewrite trapdoor_total in Ht. injection Ht as <-. reflexivity.
Qed.

Lemma concat_pointers_length es :
  length (concat (List.map snd (table_of es))) = length es.
Proof.
  rewrite <- fold_add_pointer.
  assert (G : forall t td p,
             length (concat (List.map snd (Main.add_pointer t td p)))
             = S (length (concat (List.map snd t)))).
  { intros t td p. unfold Main.add_pointer.
    assert (P : forall T, lookup T td <> None ->
                 length (concat (List.map snd (push T td p)))
                 = S (length (concat (List.map snd T)))).
    { induction T as [|[k' v] T IH]; [intro H; now elim H|].
      cbn [lookup push]. destruct (jsstring_eqb td k'); intro H;
        cbn [List.map snd concat]; rewrite !length_app.
      - cbn [length]. lia.
      - rewrite IH by exact H. lia. }
    destruct (lookup t td) eqn:E.
    - apply P. congruence.
    - rewrite P.
      + rewrite map_app, concat_app, length_app. cbn. lia.
      + rewrite lookup_app, E. cbn [lookup]. rewrite jsstring_eqb_refl. discriminate. }
  induction es as [|e es IH] using rev_ind; [reflexivity|].
  rewrite fold_left_app. cbn [fold_left]. rewrite G, IH, length_app. cbn [length]. lia.
Qed.

Lemma table_of_keys es : List.map fst (table_of es) = new_Set (List.map fst es).
Proof. unfold table_of. rewrite map_map. cbn [fst]. apply map_id. Qed.

Lemma trapdoor_text_format k w :
  length (trapdoor_text k w) = 64%nat /\ lower_hex (trapdoor_text k w) = true.
Proof.
  unfold trapdoor_text, Main.trapdoor. rewrite digest_spec by reflexivity.
  rewrite hex_encode_length, subtle_digest_length. split; [reflexivity | apply hex_encode_lower].
Qed.

Lemma split_spaces_cons cur s : exists w l, split_spaces cur s = w :: l.
Proof.
  revert cur. induction s as [|c s IH]; intro cur; cbn [split_spaces]; [eauto|].
  destruct (c =? 32); [eauto | apply IH].
Qed.

Lemma split_spaces_join s : forall cur,
  join_spaces (split_spaces cur s) = rev cur ++ s.
Proof.
  induction s as [|c s IH]; intro cur.
  - cbn. now rewrite app_nil_r.
  - cbn [split_spaces]. destruct (Z.eqb_spec c 32) as [->|N].
    + specialize (IH []). destruct (split_spaces_cons [] s) as (w & l & E).
      rewrite E in *. cbn [join_spaces]. cbn [join_spaces] in IH. rewrite IH. reflexivity.
    + rewrite IH. cbn [rev]. now rewrite <- app_assoc.
Qed.

Lemma split_spaces_no_space s : forall cur,
  ~ In 32 cur -> Forall (fun w => ~ In 32 w) (split_spaces cur s).
Proof.
  induction s as [|c s IH]; intros cur H.
  - constructor; [|constructor]. now rewrite <- in_rev.
  - cbn [split_spaces]. destruct (Z.eqb_spec c 32) as [->|N].
    + constructor; [now rewrite <- in_rev | apply IH; intros []].
    + apply IH. intros [X|X]; [congruence | tauto].
Qed.

Lemma split_spaces_length s : forall cur,
  length (split_spaces cur s) = S (count_occ Z.eq_dec s 32).
Proof.
  induction s as [|c s IH]; intro cur; [reflexivity|].
  cbn [split_spaces count_occ]. destruct (Z.eqb_spec c 32) as [->|N].
  - destruct (Z.eq_dec 32 32); [|congruence]. cbn [length]. now rewrite IH.
  - destruct (Z.eq_dec c 32); [congruence|]. apply IH.
Qed.

(* ================================================================== *)
(** * Lengths and prefixes of ciphertexts *)

Lemma pkcs7_pad_length_exact m :
  length (pkcs7_pad m) = (16 * S (length m / 16))%nat.
Proof.
  unfold pkcs7_pad. rewrite length_app, repeat_length.
  pose proof (Nat.div_mod_eq (length m) 16).
  pose proof (Nat.mod_upper_bound (length m) 16 ltac:(lia)).
  lia.
Qed.

Lemma aes_cbc_encrypt_length k i m :
  length (aes_cbc_encrypt k i m) = (16 * S (length m / 16))%nat.
Proof.
  unfold aes_cbc_encrypt. rewrite flat_map_length_blocks, cbc_encrypt_length.
  unfold blocks_of_bytes. rewrite length_map. f_equal.
  apply chunks_length; [apply pkcs7_pad_length_exact|].
  rewrite pkcs7_pad_length_exact. lia.
Qed.

Lemma pkcs7_pad_app p m n :
  length p = (16 * n)%nat -> pkcs7_pad (p ++ m) = p ++ pkcs7_pad m.
Proof.
  intro H. unfold pkcs7_pad. rewrite length_app, H, <- app_assoc.
  replace ((16 * n + length m) mod 16)%nat with (length m mod 16)%nat; [reflexivity|].
  rewrite Nat.add_comm, Nat.mul_comm. symmetry. apply Nat.Div0.mod_add.
Qed.

Lemma chunks_blocks_app bs q : forall fuel,
  (length bs <= fuel)%nat ->
  exists rest,
    List.map block_of_bytes (chunks 16 fuel (flat_map bytes_of_block bs ++ q)) = bs ++ rest.
Proof.
  induction bs as [|b bs IH]; intros fuel Hf; [eexists; reflexivity|].
  destruct fuel as [|fuel]; [simpl in Hf; lia|].
  cbn [flat_map]. rewrite <- app_assoc, chunks_app;
    [|apply bytes_of_block_length
     |intro X; pose proof (bytes_of_block_length b) as L; rewrite X in L; discriminate L].
  destruct (IH fuel ltac:(simpl in Hf; lia)) as [rest E].
  exists rest. cbn [List.map app]. rewrite E. f_equal.
  rewrite <- (app_nil_r (bytes_of_block b)). apply block_of_bytes_app.
Qed.

Lemma cbc_encrypt_app rks xs ys : forall prev,
  exists prev',
    cbc_encrypt_blocks rks prev (xs ++ ys)
    = cbc_encrypt_blocks rks prev xs ++ cbc_encrypt_blocks rks prev' ys.
Proof.
  induction xs as [|x xs IH]; intro prev; [now exists prev|].
  cbn [app cbc_encrypt_blocks].
  destruct (IH (cipher rks (xor_block x prev))) as [prev' E].
  exists prev'. now rewrite E.
Qed.

Lemma aes_cbc_encrypt_prefix key iv p n :
  length p = (16 * n)%nat ->
  exists pre, length pre = (16 * n)%nat
    /\ forall m, exists rest, aes_cbc_encrypt key iv (p ++ m) = pre ++ rest.
Proof.
  intro Hp.
  exists (flat_map bytes_of_block
            (cbc_encrypt_blocks (key_expansion key) (block_of_bytes iv) (blocks_of_bytes p))).
  split.
  - rewrite flat_map_length_blocks, cbc_encrypt_length. unfold blocks_of_bytes.
    rewrite length_map. f_equal. apply chunks_length; [exact Hp | lia].
  - intro m. unfold aes_cbc_encrypt. rewrite (pkcs7_pad_app p m n Hp).
    assert (Ep : flat_map bytes_of_block (blocks_of_bytes p) = p)
      by (apply (flat_map_blocks_of n); [exact Hp | lia]).
    assert (Hn : length (blocks_of_bytes p) = n)
      by (unfold blocks_of_bytes; rewrite length_map; apply chunks_length; [exact Hp | lia]).
    set (bs := blocks_of_bytes p) in *.
    unfold blocks_of_bytes. rewrite <- Ep.
    destruct (chunks_blocks_app bs (pkcs7_pad m)
                (length (flat_map bytes_of_block bs ++ pkcs7_pad m))) as [rest E].
    + rewrite length_app, flat_map_length_blocks. lia.
    + rewrite E.
      destruct (cbc_encrypt_app (key_expansion key) bs rest (block_of_bytes iv)) as [prev' E'].
      rewrite E', flat_map_app. eexists. reflexivity.
Qed.

(* ================================================================== *)
(** * [generateSecretKey] and the failures of the derivations *)

Lemma generateSecretKey_unfold secret options rnd :
  fst (CryptoJs.generateSecretKey secret options rnd)
  = let hash := default (js "SHA-256") (Main.opt_hash options) in
    let iterations := default 999 (Main.opt_iterations options) in
    let keyLengthByte := default 48 (Main.opt_keyLengthByte options) in
    let* deriveBitsKey :=
      importKey (Main.str2ab (default (js "PASSPHRASE") secret) None) PBKDF2 false
        [deriveBits_usage] in
    let* derivedBits :=
      deriveBits (MkPbkdf2Params hash (main_salt options rnd) (inject_Z iterations))
        deriveBitsKey (inject_Z keyLengthByte * 8)%Q in
    let* secretKey :=
      importKey (slice derivedBits 0 32) AES_CBC true [encrypt_usage; decrypt_usage] in
    Ok (MkKeyObject secretKey (slice_last derivedBits 16) None).
Proof.
  unfold CryptoJs.generateSecretKey, CryptoJs.str2ab, main_salt.
  destruct (Main.opt_salt options) as [[s|b]|]; reflexivity.
Qed.

Lemma generateSecretKey_secretSalt secret options rnd k :
  fst (CryptoJs.generateSecretKey secret options rnd) = Ok k -> secretSalt k = None.
Proof.
  unfold CryptoJs.generateSecretKey.
  destruct (Main.opt_salt options) as [s|]; cbn [getRandomValues fst];
    (destruct (importKey _ PBKDF2 _ _) as [dk|e]; cbn [bind]; [|discriminate]);
    (destruct (deriveBits _ dk _) as [derived|e]; cbn [bind]; [|discriminate]);
    (destruct (importKey _ AES_CBC _ _) as [sk|e]; cbn [bind]; [|discriminate]);
    intro H; injection H as <-; reflexivity.
Qed.

Lemma deriveBits_range h salt key (it len : number) :
  IntegerPart it < 0 \/ 2 ^ 32 - 1 < IntegerPart it ->
  deriveBits (MkPbkdf2Params h salt it) key len = Throw (TypeError "unsigned long").
Proof.
  intro H. unfold deriveBits, enforce_range_unsigned_long. cbn [pbkdf2_iterations].
  replace ((IntegerPart it <? 0) || (2 ^ 32 - 1 <? IntegerPart it)) with true
    by (symmetry; lia).
  reflexivity.
Qed.

Lemma deriveBits_zero name h salt password (it len : number) :
  normalize_hash name = Ok h ->
  IntegerPart it = 0 ->
  deriveBits (MkPbkdf2Params name salt it)
    (MkCryptoKey PBKDF2 false [deriveBits_usage] password) len
  = Throw OperationError.
Proof.
  intros Hn H. unfold deriveBits, enforce_range_unsigned_long.
  cbn [pbkdf2_iterations pbkdf2_hash]. rewrite H, Hn.
  replace ((0 <? 0) || (2 ^ 32 - 1 <? 0)) with false by reflexivity.
  cbn [bind check_key key_algorithm key_usages algorithm_eqb existsb usage_eqb andb orb].
  change (0 =? 0) with true. now rewrite orb_true_r.
Qed.

Lemma deriveBits_unsupported name salt key (it len : number) :
  0 <= IntegerPart it <= 2 ^ 32 - 1 ->
  normalize_hash name = Throw NotSupportedError ->
  deriveBits (MkPbkdf2Params name salt it) key len = Throw NotSupportedError.
Proof.
  intros R Hn. unfold deriveBits, enforce_range_unsigned_long.
  cbn [pbkdf2_iterations pbkdf2_hash].
  replace ((IntegerPart it <? 0) || (2 ^ 32 - 1 <? IntegerPart it)) with false
    by (symmetry; lia).
  cbn [bind]. now rewrite Hn.
Qed.

Lemma min32_accepted klb :
  0 <= klb ->
  ((Nat.min 32 (Z.to_nat klb) =? 16)%nat || (Nat.min 32 (Z.to_nat klb) =? 24)%nat
   || (Nat.min 32 (Z.to_nat klb) =? 32)%nat)
  = ((klb =? 16) || (klb =? 24) || (32 <=? klb)).
Proof.
  intro H.
  destruct (Z.eqb_spec klb 16), (Z.eqb_spec klb 24), (Z.leb_spec 32 klb);
    destruct (Nat.eqb_spec (Nat.min 32 (Z.to_nat klb)) 16),
      (Nat.eqb_spec (Nat.min 32 (Z.to_nat klb)) 24),
      (Nat.eqb_spec (Nat.min 32 (Z.to_nat klb)) 32); cbn [orb]; try reflexivity; lia.
Qed.

(* ================================================================== *)
(** * The claims of the specification *)

(** C1.  For every query and every key material holding a [secretSalt],
    [trapdoor(query, k)] is exactly [digest(query, {salt: k.secretSalt})],
    and it returns; it depends on the key material through [secretSalt]
    alone, so that a keyword has the same trapdoor under the same
    [secretSalt] whatever document it comes from. *)
Theorem trapdoor_is_salted_digest (query : data) (k k' : KeyObject) (salt : data) :
  secretSalt k = Some salt ->
  Main.trapdoor query k = Main.digest query (Main.salt_option (Some salt))
  /\ (exists t, Main.trapdoor query k = Ok t)
  /\ (secretSalt k' = Some salt -> Main.trapdoor query k' = Main.trapdoor query k).
Proof.
  intro H. split; [|split].
  - unfold Main.trapdoor. now rewrite H.
  - destruct (trapdoor_returns query k) as (t & Ht & _). now exists t.
  - intro H'. unfold Main.trapdoor. now rewrite H, H'.
Qed.

Lemma trapdoor_is_salted_digest_witness :
  Main.trapdoor (Str (js "b")) sample_key
    = Main.digest (Str (js "b")) (Main.salt_option (Some (Buf (ArrayBuffer sample_key_bytes))))
  /\ (exists t, Main.trapdoor (Str (js "b")) sample_key = Ok t)
  /\ (secretSalt (MkKeyObject (key sample_generated_key) (iv sample_generated_key)
                     (secretSalt sample_key))
      = Some (Buf (ArrayBuffer sample_key_bytes)) ->
      Main.trapdoor (Str (js "b"))
        (MkKeyObject (key sample_generated_key) (iv sample_generated_key)
           (secretSalt sample_key))
      = Main.trapdoor (Str (js "b")) sample_key).
Proof.
  exact (trapdoor_is_salted_digest (Str (js "b")) sample_key
           (MkKeyObject (key sample_generated_key) (iv sample_generated_key)
              (secretSalt sample_key))
           (Buf (ArrayBuffer sample_key_bytes)) eq_refl).
Defined.



(** C3, as amended.  For every well-formed string [m] and every valid key
    material [k], [decrypt(encrypt(m, k, e), k, e)] is [m] when the encoding
    [e] of the ciphertext is omitted, 'hex' or 'base64'. *)
Theorem roundtrip_lossless (m : jsstring) (k : KeyObject) (e : option Encoding) :
  well_formed m = true ->
  valid_key k = true ->
  e = None \/ e = Some Hex \/ e = Some Base64 ->
  roundtrip m k e = Ok m.
Proof.
  intros Hm Hk He. unfold roundtrip.
  rewrite encrypt_spec by exact Hk. cbn [bind].
  rewrite decrypt_spec by exact Hk.
  rewrite codec_roundtrip by (destruct He as [He|[He|He]]; subst e; cbn [default]; tauto).
  rewrite aes_cbc_roundtrip. cbn [bind].
  now rewrite utf8_roundtrip.
Qed.

Lemma roundtrip_lossless_witness : roundtrip (js "hello") sample_key None = Ok (js "hello").
Proof.
  apply (roundtrip_lossless (js "hello") sample_key None);
    [reflexivity | reflexivity | left; reflexivity].
Defined.

(** C3 fails as stated: with the supported encoding 'ascii' the text of the
    ciphertext loses the high bit of every byte, and decrypting what
    [encrypt] returned for "hello" is rejected. *)
Lemma roundtrip_ascii_fails :
  well_formed (js "hello") = true /\ valid_key sample_key = true
  /\ roundtrip (js "hello") sample_key (Some Ascii) <> Ok (js "hello").
Proof.
  split; [reflexivity|]. split; [reflexivity|].
  vm_compute. discriminate.
Qed.

(** C4, as amended.  With [options.salt] supplied, two calls of
    [genSecretKey] with the same passphrase and options give the same cipher
    key and the same iv whatever the random source delivers; the whole
    result, [secretSalt] included, is the same when the two calls draw the
    same 512 random bytes. *)
Theorem derivation_determinism (secret : option jsstring) (options : Main.KeyOptions)
    (salt : data) (rnd1 rnd2 : random_source) :
  Main.opt_salt options = Some salt ->
  cipher_part (fst (Main.genSecretKey secret options rnd1))
    = cipher_part (fst (Main.genSecretKey secret options rnd2))
  /\ ((forall i, (i < 512)%nat -> rnd1 i = rnd2 i) ->
      fst (Main.genSecretKey secret options rnd1) = fst (Main.genSecretKey secret options rnd2)).
Proof.
  intro Hs. rewrite !genSecretKey_unfold. cbv zeta.
  assert (Hm : main_salt options rnd1 = main_salt options rnd2)
    by (unfold main_salt; now rewrite Hs).
  rewrite Hm. split.
  - destruct (importKey _ PBKDF2 _ _) as [dk|e]; cbn [bind cipher_part]; [|reflexivity].
    destruct (deriveBits _ dk (inject_Z _ * 8)%Q) as [derived|e]; cbn [bind]; [|reflexivity].
    destruct (importKey (slice derived 0 32) _ _ _) as [sk|e]; cbn [bind]; [|reflexivity].
    pose proof (deriveBits_salt_independent (default (js "SHA-256") (Main.opt_hash options))
                  (Uint8Array (secret_salt_seed options rnd1))
                  (Uint8Array (secret_salt_seed options rnd2))
                  (inject_Z (default 999%Z (Main.opt_iterations options)) / 2)%Q dk (32 * 8)%Q) as I.
    destruct (deriveBits _ dk (32 * 8)%Q) as [b1|e1];
      destruct (deriveBits _ dk (32 * 8)%Q) as [b2|e2]; cbn [bind key iv];
      try contradiction; [reflexivity | now subst].
  - intro Hr.
    assert (Hseed : secret_salt_seed options rnd1 = secret_salt_seed options rnd2).
    { rewrite !secret_salt_seed_positions, Hs. apply map_ext_in.
      intros i Hi. apply in_seq in Hi. apply Hr. lia. }
    now rewrite Hseed.
Qed.

Lemma derivation_determinism_witness :
  cipher_part (fst (Main.genSecretKey (Some (js "00")) (sample_options None) zeros_source))
    = cipher_part (fst (Main.genSecretKey (Some (js "00")) (sample_options None) ones_source)).
Proof.
  refine (proj1 (derivation_determinism (Some (js "00")) (sample_options None)
                   (Buf (Uint8Array [x01; x02; x03])) zeros_source ones_source _)).
  reflexivity.
Defined.

(** C4 fails as stated: no option carries the salt of the [secretSalt]
    derivation, and two calls with the same passphrase and the same options,
    [salt] included, return different key material when the random source
    delivers different bytes. *)
Lemma secretSalt_not_reproducible :
  Main.opt_salt (sample_options None) = Some (Buf (Uint8Array [x01; x02; x03]))
  /\ fst (Main.genSecretKey (Some (js "00")) (sample_options None) zeros_source)
     <> fst (Main.genSecretKey (Some (js "00")) (sample_options None) ones_source).
Proof.
  split; [reflexivity|]. vm_compute. intro H. discriminate H.
Qed.

(** C5.  Whenever [genSecretKey] returns key material, its [secretSalt] is
    the result of a second [deriveBits] on the key object imported for the
    first derivation, with the same hash, with 512 bytes drawn from the
    random source after any drawn for the main salt, with [iterations / 2] as
    iteration count (PBKDF2 then runs the integer part, 499 rounds by
    default) and a length of [32 * 8] bits: exactly 32 bytes. *)
Theorem secretSalt_derivation (secret : option jsstring) (options : Main.KeyOptions)
    (rnd : random_source) (k : KeyObject) :
  fst (Main.genSecretKey secret options rnd) = Ok k ->
  let hash := default (js "SHA-256") (Main.opt_hash options) in
  let iterations := default 999 (Main.opt_iterations options) in
  let keyLengthByte := default 48 (Main.opt_keyLengthByte options) in
  let seed := secret_salt_seed options rnd in
  exists alg deriveBitsKey derivedBits salt32,
    normalize_hash hash = Ok alg
    /\ importKey (Main.str2ab (default (js "PASSPHRASE") secret) None) PBKDF2 false
      [deriveBits_usage] = Ok deriveBitsKey
    /\ deriveBits (MkPbkdf2Params hash (main_salt options rnd) (inject_Z iterations))
         deriveBitsKey (inject_Z keyLengthByte * 8)%Q = Ok derivedBits
    /\ deriveBits (MkPbkdf2Params hash (Uint8Array seed) (inject_Z iterations / 2)%Q)
         deriveBitsKey (32 * 8)%Q = Ok (ArrayBuffer salt32)
    /\ secretSalt k = Some (Buf (ArrayBuffer salt32))
    /\ salt32 = pbkdf2 alg (key_data deriveBitsKey) seed (Z.to_nat (Z.quot iterations 2)) 32
    /\ length salt32 = 32%nat
    /\ seed = List.map rnd
                (seq (match Main.opt_salt options with Some _ => 0 | None => 512 end) 512)
    /\ length seed = 512%nat
    /\ (Main.opt_iterations options = None -> Z.quot iterations 2 = 499).
Proof.
  intro H. cbv zeta. rewrite genSecretKey_unfold in H. cbv zeta in H.
  destruct (importKey (Main.str2ab (default (js "PASSPHRASE") secret) None) PBKDF2 false
              [deriveBits_usage]) as [dk|e] eqn:E1; [|discriminate H].
  cbn [bind] in H.
  destruct (deriveBits _ dk (inject_Z _ * 8)%Q) as [derived|e] eqn:E2; [|discriminate H].
  cbn [bind] in H.
  destruct (importKey (slice derived 0 32) AES_CBC true [encrypt_usage; decrypt_usage])
    as [sk|e]; [|discriminate H].
  cbn [bind] in H.
  destruct (deriveBits _ dk (32 * 8)%Q) as [salt|e] eqn:E; [|discriminate H].
  cbn [bind] in H. injection H as <-.
  pose proof (deriveBits_inv _ _ _ _ E) as (alg & Hn & _ & Hs).
  cbn [pbkdf2_hash pbkdf2_salt pbkdf2_iterations contents] in Hn, Hs.
  rewrite IntegerPart_half in Hs.
  change (Z.to_nat (to_unsigned_long (32 * 8)%Q / 8)) with 32%nat in Hs.
  exists alg, dk, derived, (contents salt). subst salt. cbn [contents secretSalt].
  split; [exact Hn|]. split; [reflexivity|]. split; [exact E2|]. split; [exact E|].
  split; [reflexivity|]. split; [reflexivity|].
  split; [apply pbkdf2_length|].
  split; [apply secret_salt_seed_positions|].
  split.
  - rewrite secret_salt_seed_positions, length_map, length_seq. reflexivity.
  - intros ->. reflexivity.
Qed.

Lemma secretSalt_derivation_witness :
  exists salt32,
    secretSalt sample_generated_key = Some (Buf (ArrayBuffer salt32))
    /\ salt32 = pbkdf2 SHA256 [x00] (repeat x00 512) 1 32
    /\ length salt32 = 32%nat.
Proof.
  destruct (secretSalt_derivation (Some (js "00")) (sample_options None) zeros_source
              sample_generated_key)
    as (alg & dk & db & s32 & Hn & Hk & _ & _ & Hs & Hp & Hl & Hseed & _).
  - vm_compute; reflexivity.
  - exists s32. split; [exact Hs|]. split; [|exact Hl].
    rewrite Hp, Hseed. vm_compute in Hk. injection Hk as <-.
    vm_compute in Hn. injection Hn as <-. reflexivity.
Defined.

(** C6, as amended.  [genSecretKey] does not compare [keyLengthByte] with
    48.  For a hash that is omitted or named by one of the four supported
    names, an iteration count of at least two and a [keyLengthByte] below
    48: if [keyLengthByte] is 16, 24 or at least 32, key material is
    returned, the key being the first 32 derived bytes and the iv the last 16
    of the [keyLengthByte] derived bytes (which overlap the key); otherwise
    the import of the derived key fails with a [DataError]. *)
Theorem short_key_length (secret : option jsstring) (options : Main.KeyOptions)
    (rnd : random_source) (alg : HashAlg) :
  let hash := default (js "SHA-256") (Main.opt_hash options) in
  let iterations := default 999 (Main.opt_iterations options) in
  let keyLengthByte := default 48 (Main.opt_keyLengthByte options) in
  let derived :=
    pbkdf2 alg (hex_decode (default (js "PASSPHRASE") secret))
      (contents (main_salt options rnd)) (Z.to_nat iterations) (Z.to_nat keyLengthByte) in
  normalize_hash hash = Ok alg ->
  2 <= iterations <= 2 ^ 32 - 1 ->
  0 < keyLengthByte < 48 ->
  (keyLengthByte = 16 \/ keyLengthByte = 24 \/ 32 <= keyLengthByte ->
   exists k,
     fst (Main.genSecretKey secret options rnd) = Ok k
     /\ length derived = Z.to_nat keyLengthByte
     /\ key_data (key k) = firstn 32 derived
     /\ iv k = ArrayBuffer (skipn (Z.to_nat keyLengthByte - 16) derived))
  /\ (keyLengthByte <> 16 -> keyLengthByte <> 24 -> keyLengthByte < 32 ->
      fst (Main.genSecretKey secret options rnd) = Throw DataError).
Proof.
  cbv zeta. intros Hn Hit Hk.
  pose proof (genSecretKey_result secret options rnd alg) as R. cbv zeta in R.
  rewrite R by first [exact Hn | lia]. clear R.
  split.
  - intro H.
    replace ((_ =? 16) || (_ =? 24) || (32 <=? _)) with true by (symmetry; lia).
    eexists. split; [reflexivity|]. cbn [key iv key_data].
    split; [apply pbkdf2_length|]. split; reflexivity.
  - intros N16 N24 L.
    replace ((_ =? 16) || (_ =? 24) || (32 <=? _)) with false by (symmetry; lia).
    reflexivity.
Qed.

Lemma short_key_length_witness :
  exists k,
    fst (Main.genSecretKey (Some (js "00")) (sample_options (Some 40)) zeros_source) = Ok k
    /\ length (pbkdf2 SHA256 [x00] [x01; x02; x03] 2 40) = 40%nat
    /\ key_data (key k) = firstn 32 (pbkdf2 SHA256 [x00] [x01; x02; x03] 2 40)
    /\ iv k = ArrayBuffer (skipn 24 (pbkdf2 SHA256 [x00] [x01; x02; x03] 2 40)).
Proof.
  refine (proj1 (short_key_length (Some (js "00")) (sample_options (Some 40)) zeros_source
                   SHA256 _ _ _) _).
  - reflexivity.
  - cbn; lia.
  - cbn; lia.
  - cbn; lia.
Defined.

(** C6 fails as stated: a [keyLengthByte] of 40 is accepted. *)
Lemma short_key_length_accepted :
  40 < 48 /\ is_ok (fst (Main.genSecretKey (Some (js "00")) (sample_options (Some 40)) zeros_source)) = true.
Proof. split; [lia|]. vm_compute. reflexivity. Qed.

(** C7.  For every collection whose first document has data that is not a
    string, [buildIndex] without [getKeywords] fails, at the first document
    and whatever follows it, with the [TypeError] of calling the missing
    extractor; no table is returned. *)
Theorem buildIndex_missing_extractor (doc : Document) (rest : list Document) (k : KeyObject) :
  is_string (doc_data doc) = false ->
  Main.buildIndex (doc :: rest) k None = Throw (TypeError "getKeywords is not a function").
Proof.
  intro H. unfold Main.buildIndex. cbn [Main.resolve_getKeywords]. rewrite H.
  cbn [fold_left bind Main.index_document]. apply fold_throw.
Qed.

Lemma buildIndex_missing_extractor_witness :
  Main.buildIndex
    (MkDocument (js "p1") (Buf (ArrayBuffer [x01; x02]))
       :: [MkDocument (js "p2") (Str (js "b c"))]) sample_key None
  = Throw (TypeError "getKeywords is not a function").
Proof.
  apply (buildIndex_missing_extractor
           (MkDocument (js "p1") (Buf (ArrayBuffer [x01; x02])))
           [MkDocument (js "p2") (Str (js "b c"))] sample_key).
  reflexivity.
Defined.

(** C8, at a failing input.  [digest("a", {salt})] with the one-byte
    [ArrayBuffer] 01 as salt is the hash of "a" followed by 00, not of "a"
    followed by 01: [abConcat] copies nothing from a raw [ArrayBuffer].  The
    same salt as a [Uint8Array] is concatenated as documented. *)
Theorem digest_drops_ArrayBuffer_salt :
  Main.digest (Str (js "a")) (Main.salt_option (Some (Buf (ArrayBuffer [x01]))))
    = Ok (hex_encode (subtle_digest SHA256 (utf8_encode (js "a") ++ [x00])))
  /\ Main.digest (Str (js "a")) (Main.salt_option (Some (Buf (ArrayBuffer [x01]))))
     <> Ok (hex_encode (subtle_digest SHA256 (utf8_encode (js "a") ++ [x01])))
  /\ Main.digest (Str (js "a")) (Main.salt_option (Some (Buf (Uint8Array [x01]))))
     = Ok (hex_encode (subtle_digest SHA256 (utf8_encode (js "a") ++ [x01]))).
Proof.
  split; [vm_compute; reflexivity|]. split; [vm_compute; discriminate|].
  vm_compute; reflexivity.
Qed.

(** C9, as amended.  Text that is not hexadecimal throughout raises no
    encoding error.  Every text splits into a longest prefix of pairs of
    hexadecimal digits (each character read by its low byte, as [Buffer]
    does) and a rest that does not start with such a pair; [str2ab] returns
    the bytes of the prefix, one for every two characters, and drops the
    rest silently; [decrypt] goes on with these bytes, and with valid key
    material its only failure is the cipher's [OperationError].  In
    particular, when [s] does not start with two hexadecimal digits, for
    what [encrypt] returned for any [m] followed by [s], [str2ab] gives the
    bytes of the ciphertext and [decrypt] returns [m]. *)
Theorem hex_text_is_truncated (s : jsstring) (k : KeyObject) :
  valid_key k = true ->
  (exists p rest,
      s = p ++ rest /\ valid_hex p = true /\ starts_with_hex_pair rest = false
      /\ Main.str2ab s None = Main.str2ab p None
      /\ byteLength (Main.str2ab s None) = (length p / 2)%nat
      /\ Main.decrypt (Str s) k None = Main.decrypt (Buf (Main.str2ab p None)) k None)
  /\ (forall e, Main.decrypt (Str s) k None = Throw e -> e = OperationError)
  /\ (forall m c, well_formed m = true -> Main.encrypt m k None = Ok c ->
        starts_with_hex_pair s = false ->
        Main.str2ab (c ++ s) None = Main.str2ab c None
        /\ Main.decrypt (Str (c ++ s)) k None = Ok m).
Proof.
  intro Hk. split; [|split].
  - destruct (hex_decode_split s) as (p & rest & E & Hp & Hr & Hd & Hl).
    exists p, rest.
    assert (X : Main.str2ab s None = Main.str2ab p None)
      by (rewrite !str2ab_spec; cbn [default Buffer_from]; now rewrite Hd).
    split; [exact E|]. split; [exact Hp|]. split; [exact Hr|]. split; [exact X|]. split.
    + rewrite str2ab_spec. unfold byteLength. cbn [contents default Buffer_from]. exact Hl.
    + unfold Main.decrypt. now rewrite X.
  - intros e. now apply decrypt_error.
  - intros m c Hm Hc Ht. apply hex_decode_nil in Ht.
    rewrite encrypt_spec in Hc by exact Hk. injection Hc as Hc.
    cbn [default Buffer_toString] in Hc. subst c. split.
    + rewrite !str2ab_spec. cbn [default Buffer_from].
      now rewrite hex_decode_app_junk, hex_decode_encode.
    + rewrite decrypt_spec by exact Hk. cbn [default Buffer_from].
      rewrite hex_decode_app_junk by exact Ht.
      rewrite aes_cbc_roundtrip. cbn [bind]. now rewrite utf8_roundtrip.
Qed.

Lemma hex_text_is_truncated_witness :
  Main.str2ab (sample_ciphertext ++ js "zz") None = Main.str2ab sample_ciphertext None
  /\ Main.decrypt (Str (sample_ciphertext ++ js "zz")) sample_key None = Ok (js "hello").
Proof.
  refine (proj2 (proj2 (hex_text_is_truncated (js "zz") sample_key eq_refl))
            (js "hello") sample_ciphertext eq_refl _ eq_refl).
  vm_compute. reflexivity.
Defined.

(** C9 fails as stated: the text made of a ciphertext in hexadecimal
    followed by "zz" is not valid hexadecimal, and it is decrypted without
    an error; [str2ab("zz")] is the empty array. *)
Lemma undecodable_hex_is_accepted :
  valid_hex (sample_ciphertext ++ js "zz") = false
  /\ Main.str2ab (js "zz") None = Uint8Array []
  /\ Main.decrypt (Str (sample_ciphertext ++ js "zz")) sample_key None = Ok (js "hello").
Proof. split; [reflexivity|]. split; vm_compute; reflexivity. Qed.

(** C10, at a failing input.  With the encoding omitted, [encrypt] of
    [src/crypto.js] reads "hello" as hexadecimal, that is as no bytes at
    all, and returns the ciphertext of the empty string, which is not the
    ciphertext that the main [encrypt] returns; and its [decrypt] returns
    the plaintext in hexadecimal, "68656c6c6f", where the main [decrypt]
    returns "hello". *)
Theorem crypto_js_differs_by_default :
  Main.encrypt (js "hello") sample_key None = Ok sample_ciphertext
  /\ CryptoJs.encrypt (js "hello") sample_key None = Main.encrypt (js "") sample_key None
  /\ CryptoJs.encrypt (js "hello") sample_key None <> Main.encrypt (js "hello") sample_key None
  /\ Main.decrypt (Str sample_ciphertext) sample_key None = Ok (js "hello")
  /\ CryptoJs.decrypt sample_ciphertext sample_key None = Ok (js "68656c6c6f").
Proof.
  split; [vm_compute; reflexivity|]. split; [vm_compute; reflexivity|].
  split; [vm_compute; discriminate|]. split; vm_compute; reflexivity.
Qed.

(* ================================================================== *)
(** * Further properties of the package *)

(** X1.  [str2ab] undoes [ab2str] for the encodings that lose nothing: for every
    binary value, [str2ab(ab2str(b, e), e)] holds the bytes of [b] when [e]
    is omitted, 'hex' or 'base64'. *)
Theorem str2ab_inverts_ab2str (b : buffer) :
  Main.str2ab (Main.ab2str b None) None = Uint8Array (contents b)
  /\ Main.str2ab (Main.ab2str b (Some Hex)) (Some Hex) = Uint8Array (contents b)
  /\ Main.str2ab (Main.ab2str b (Some Base64)) (Some Base64) = Uint8Array (contents b).
Proof.
  rewrite !str2ab_spec. unfold Main.ab2str. cbn [default].
  rewrite !codec_roundtrip by tauto. repeat split.
Qed.

(** X2.  [ab2str(str2ab(s, 'utf-8'), 'utf-8')] is [s] with every lone surrogate
    replaced by U+FFFD, hence [s] itself when [s] is well formed; and
    [ab2str(str2ab(s))] is [s] for text in lower-case hexadecimal. *)
Theorem ab2str_inverts_str2ab (s : jsstring) :
  code_units s = true ->
  Main.ab2str (Main.str2ab s (Some Utf8)) (Some Utf8) = toWellFormed s
  /\ (well_formed s = true -> Main.ab2str (Main.str2ab s (Some Utf8)) (Some Utf8) = s)
  /\ (lower_hex s = true -> Main.ab2str (Main.str2ab s None) None = s).
Proof.
  intro H. rewrite !str2ab_spec. unfold Main.ab2str.
  cbn [default contents Buffer_from Buffer_toString].
  rewrite utf8_text_roundtrip by exact H.
  split; [reflexivity|]. split; [apply toWellFormed_fixed | apply hex_encode_decode].
Qed.

Lemma ab2str_inverts_str2ab_witness :
  Main.ab2str (Main.str2ab (js "hello") (Some Utf8)) (Some Utf8) = toWellFormed (js "hello").
Proof. exact (proj1 (ab2str_inverts_str2ab (js "hello") eq_refl)). Defined.

(** X3.  [abConcat] never throws and returns a [Uint8Array] whose length is the
    sum of the [byteLength]s; the elements of each typed array stand at its
    offset, the place of each raw [ArrayBuffer] holds zeros; when all
    arguments are typed arrays the result is their concatenation. *)
Theorem abConcat_layout (buffers : list buffer) :
  exists res,
    Main.abConcat buffers = Ok (Uint8Array res)
    /\ res = flat_map copied buffers
    /\ length res = list_sum (List.map byteLength buffers)
    /\ ((forall b, ~ In (ArrayBuffer b) buffers) -> res = flat_map contents buffers).
Proof.
  exists (flat_map copied buffers). split; [apply abConcat_spec|]. split; [reflexivity|].
  split; [apply flat_map_copied_length|].
  intro H. induction buffers as [|x l IH]; [reflexivity|].
  cbn [flat_map]. rewrite IH by (intros b Hb; apply (H b); now right).
  f_equal. destruct x as [b|b]; [|reflexivity]. elim (H b). now left.
Qed.

(** X4.  [digest] with the hash omitted, or named in any case of the letters
    by one of the four supported names, returns text in lower-case
    hexadecimal of 40, 64, 96 or 128 digits according to the hash; with any
    other name of ASCII characters it fails with a [NotSupportedError],
    whatever the data and the salt. *)
Theorem digest_output_format (d : data) (o : Main.DigestOptions) :
  let name := default (js "SHA-256") (Main.digest_hash o) in
  (forall alg, normalize_hash name = Ok alg ->
     exists t,
       Main.digest d o = Ok t
       /\ lower_hex t = true
       /\ length t = match alg with
                     | SHA1 => 40 | SHA256 => 64 | SHA384 => 96 | SHA512 => 128
                     end%nat)
  /\ (ascii_text name = true -> normalize_hash name = Throw NotSupportedError ->
      Main.digest d o = Throw NotSupportedError)
  /\ (Main.digest_hash o = None -> normalize_hash name = Ok SHA256)
  /\ (normalize_hash name = Throw NotSupportedError
      <-> ~ In (List.map ascii_upper name)
              [js "SHA-1"; js "SHA-256"; js "SHA-384"; js "SHA-512"]).
Proof.
  cbv zeta. split; [|split; [|split]].
  - intros alg Hn. rewrite digest_spec_named, Hn. cbn [bind].
    eexists. split; [reflexivity|]. split; [apply hex_encode_lower|].
    rewrite hex_encode_length, subtle_digest_length. now destruct alg.
  - intros _ Hn. now rewrite digest_spec_named, Hn.
  - intros ->. reflexivity.
  - apply normalize_hash_rejects.
Qed.

(** X5.  [digest] sees only the bytes of the data followed by the bytes of the
    salt: moving text from the end of the data to the front of the salt does
    not change the digest, for strings and for typed arrays, and a string
    counts as its UTF-8 bytes. *)
Theorem digest_boundary_moves (h : option jsstring) (s t u : jsstring) (a b c : bytes) :
  well_formed s = true -> well_formed t = true ->
  Main.digest (Str (s ++ t)) (Main.MkDigestOptions h (Some (Str u)))
    = Main.digest (Str s) (Main.MkDigestOptions h (Some (Str (t ++ u))))
  /\ Main.digest (Buf (Uint8Array (a ++ b))) (Main.MkDigestOptions h (Some (Buf (Uint8Array c))))
     = Main.digest (Buf (Uint8Array a)) (Main.MkDigestOptions h (Some (Buf (Uint8Array (b ++ c)))))
  /\ Main.digest (Str s) (Main.MkDigestOptions h (Some (Str u)))
     = Main.digest (Buf (Uint8Array (utf8_encode s)))
         (Main.MkDigestOptions h (Some (Buf (Uint8Array (utf8_encode u))))).
Proof.
  intros Hs Ht. rewrite !digest_spec_named.
  cbn [Main.digest_hash Main.digest_salt default hashed_bytes copied].
  rewrite !utf8_encode_app by assumption. rewrite <- !app_assoc. repeat split.
Qed.

Lemma digest_boundary_moves_witness :
  Main.digest (Str (js "ab" ++ js "c")) (Main.MkDigestOptions None (Some (Str (js "d"))))
  = Main.digest (Str (js "ab")) (Main.MkDigestOptions None (Some (Str (js "c" ++ js "d")))).
Proof.
  exact (proj1 (digest_boundary_moves None (js "ab") (js "c") (js "d") [] [] []
                  eq_refl eq_refl)).
Defined.

(** X6.  Key material made by [generateSecretKey] of [src/crypto.js] has no
    [secretSalt]; [trapdoor] under it is [digest] with no options, that is
    with the salt "DEFAULT-SALT". *)
Theorem trapdoor_without_secretSalt (secret : option jsstring) (options : Main.KeyOptions)
    (rnd : random_source) (k : KeyObject) (query : data) :
  fst (CryptoJs.generateSecretKey secret options rnd) = Ok k ->
  Main.trapdoor query k = Main.digest query Main.no_options
  /\ Main.trapdoor query k
     = Ok (hex_encode (subtle_digest SHA256
                         (hashed_bytes query ++ utf8_encode (js "DEFAULT-SALT")))).
Proof.
  intro H. apply generateSecretKey_secretSalt in H.
  unfold Main.trapdoor. rewrite H. split; [reflexivity|]. now rewrite digest_spec by reflexivity.
Qed.

Lemma trapdoor_without_secretSalt_witness :
  Main.trapdoor (Str (js "a")) sample_legacy_key = Main.digest (Str (js "a")) Main.no_options.
Proof.
  refine (proj1 (trapdoor_without_secretSalt (Some (js "00")) (sample_options None)
                   zeros_source sample_legacy_key (Str (js "a")) _)).
  vm_compute. reflexivity.
Defined.

(** X7.  Under key material returned by [genSecretKey] the trapdoor of a query
    is the SHA-256 digest of the query followed by 32 zero bytes: the
    [secretSalt], a raw [ArrayBuffer], reaches [abConcat] as it is.  Two
    generated keys, whatever passphrase, options and random bytes they come
    from, give every query the same trapdoor. *)
Theorem trapdoor_independent_of_generated_key (query : data)
    (secret secret' : option jsstring) (options options' : Main.KeyOptions)
    (rnd rnd' : random_source) (k k' : KeyObject) :
  fst (Main.genSecretKey secret options rnd) = Ok k ->
  fst (Main.genSecretKey secret' options' rnd') = Ok k' ->
  Main.trapdoor query k
    = Ok (hex_encode (subtle_digest SHA256 (hashed_bytes query ++ repeat x00 32)))
  /\ Main.trapdoor query k' = Main.trapdoor query k.
Proof.
  intros H H'.
  destruct (generated_secretSalt _ _ _ _ H) as (s & Hs & Hl).
  destruct (generated_secretSalt _ _ _ _ H') as (s' & Hs' & Hl').
  rewrite (trapdoor_of_generated_key query k s Hs Hl),
    (trapdoor_of_generated_key query k' s' Hs' Hl'). split; reflexivity.
Qed.

Lemma trapdoor_independent_of_generated_key_witness :
  Main.trapdoor (Str (js "a")) sample_generated_key_ones
  = Main.trapdoor (Str (js "a")) sample_generated_key.
Proof.
  refine (proj2 (trapdoor_independent_of_generated_key (Str (js "a"))
                   (Some (js "00")) (Some (js "01")) (sample_options None) (sample_options None)
                   zeros_source ones_source sample_generated_key sample_generated_key_ones _ _)).
  - vm_compute. reflexivity.
  - vm_compute. reflexivity.
Defined.

(** X8.  [buildIndex] with an extractor returns, for every collection, the table
    whose keys are the trapdoors of the visited keywords in order of first
    occurrence, each with the pointers of the documents it was met in, in
    order of visit (a pointer once per occurrence of the keyword); a
    trapdoor that was not met has no entry. *)
Theorem buildIndex_is_table_of (docs : list Document) (k : KeyObject)
    (getKeywords : data -> list data) :
  let entries := index_entries k getKeywords docs in
  Main.buildIndex docs k (Some getKeywords) = Ok (table_of entries)
  /\ List.map fst (table_of entries) = new_Set (List.map fst entries)
  /\ (forall t, lookup (table_of entries) t
                = match pointers_at t entries with [] => None | ps => Some ps end)
  /\ (forall w, Main.trapdoor w k = Ok (trapdoor_text k w)).
Proof.
  cbv zeta. split; [apply buildIndex_table|]. split; [apply table_of_keys|].
  split; [intro t; apply lookup_table_of | intro w; apply trapdoor_total].
Qed.

(** X9.  Searching the table: the list at a trapdoor holds the pointer of every
    document that has a keyword with this trapdoor, and every pointer in it
    is the pointer of such a document. *)
Theorem buildIndex_search (docs : list Document) (k : KeyObject)
    (f : data -> list data) (table : IndexTable) :
  Main.buildIndex docs k (Some f) = Ok table ->
  (forall doc w t, In doc docs -> In w (f (doc_data doc)) -> Main.trapdoor w k = Ok t ->
     exists ps, lookup table t = Some ps /\ In (pointer doc) ps)
  /\ (forall t ps p, lookup table t = Some ps -> In p ps ->
        exists doc w, In doc docs /\ In w (f (doc_data doc))
                      /\ pointer doc = p /\ Main.trapdoor w k = Ok t).
Proof.
  rewrite buildIndex_table. intro E. injection E as <-. split.
  - intros doc w t Hd Hw Ht.
    assert (H : In (pointer doc) (pointers_at t (index_entries k f docs))).
    { apply in_pointers_at, in_index_entries. now exists doc, w. }
    rewrite lookup_table_of. destruct (pointers_at t _) as [|p0 ps]; [destruct H|].
    now exists (p0 :: ps).
  - intros t ps p Hl Hp. apply in_index_entries, in_pointers_at.
    rewrite lookup_table_of in Hl.
    destruct (pointers_at t _) as [|p0 ps0]; [discriminate Hl|].
    injection Hl as <-. exact Hp.
Qed.

Lemma buildIndex_search_witness :
  exists ps, lookup sample_table sample_tb = Some ps /\ In (js "p2") ps.
Proof.
  refine (proj1 (buildIndex_search sample_documents sample_key split_keywords sample_table _)
            (MkDocument (js "p2") (Str (js "b c"))) (Str (js "b")) sample_tb _ _ _).
  - vm_compute. reflexivity.
  - right. left. reflexivity.
  - left. reflexivity.
  - vm_compute. reflexivity.
Defined.

(** X10.  The table that [buildIndex] returns has distinct keys, each of 64
    lower-case hexadecimal digits, no empty list, and as many pointers in
    all as keywords were extracted. *)
Theorem buildIndex_table_invariants (docs : list Document) (k : KeyObject)
    (f : data -> list data) (table : IndexTable) :
  Main.buildIndex docs k (Some f) = Ok table ->
  NoDup (List.map fst table)
  /\ Forall (fun e => length (fst e) = 64%nat /\ lower_hex (fst e) = true /\ snd e <> []) table
  /\ length (concat (List.map snd table))
     = length (flat_map (fun doc => f (doc_data doc)) docs).
Proof.
  rewrite buildIndex_table. intro E. injection E as <-.
  destruct (new_Set_spec (List.map fst (index_entries k f docs))) as [ND I].
  split; [rewrite table_of_keys; exact ND|]. split.
  - apply Forall_forall. intros [t ps] H. unfold table_of in H.
    apply in_map_iff in H. destruct H as (t' & E & H). injection E as -> <-.
    apply I in H. cbn [fst snd]. split; [|split].
    + apply in_map_iff in H. destruct H as ([t0 p] & <- & H). cbn [fst].
      unfold index_entries in H. apply in_flat_map in H. destruct H as (doc & _ & H).
      apply in_map_iff in H. destruct H as (w & E & _). injection E as <- _.
      apply trapdoor_text_format.
    + apply in_map_iff in H. destruct H as ([t0 p] & <- & H). cbn [fst].
      unfold index_entries in H. apply in_flat_map in H. destruct H as (doc & _ & H).
      apply in_map_iff in H. destruct H as (w & E & _). injection E as <- _.
      apply trapdoor_text_format.
    + now apply pointers_at_present.
  - rewrite concat_pointers_length. unfold index_entries. clear ND I.
    induction docs as [|doc docs IH]; [reflexivity|].
    cbn [flat_map]. rewrite !length_app, length_map, IH. reflexivity.
Qed.

Lemma buildIndex_table_invariants_witness :
  NoDup (List.map fst sample_table)
  /\ Forall (fun e => length (fst e) = 64%nat /\ lower_hex (fst e) = true /\ snd e <> [])
       sample_table
  /\ length (concat (List.map snd sample_table))
     = length (flat_map (fun doc => split_keywords (doc_data doc)) sample_documents).
Proof.
  apply (buildIndex_table_invariants sample_documents sample_key split_keywords sample_table).
  vm_compute. reflexivity.
Defined.

(** X11.  When every document holds a string, [buildIndex] without [getKeywords]
    is [buildIndex] with the extractor [(e) => new Set(e.split(" "))]
    passed explicitly. *)
Theorem buildIndex_fallback (docs : list Document) (k : KeyObject) :
  forallb (fun doc => is_string (doc_data doc)) docs = true ->
  Main.buildIndex docs k None = Main.buildIndex docs k (Some split_keywords)
  /\ Main.buildIndex docs k None = Ok (table_of (index_entries k split_keywords docs)).
Proof.
  intro H. rewrite buildIndex_table.
  assert (E : Main.buildIndex docs k None
              = Ok (table_of (index_entries k split_keywords docs))); [|now rewrite E].
  destruct docs as [|doc docs]; [reflexivity|].
  unfold Main.buildIndex. cbn [Main.resolve_getKeywords].
  assert (Hd : is_string (doc_data doc) = true)
    by (cbn [forallb] in H; now apply andb_prop in H).
  rewrite Hd, (documents_fold k _ split_keywords) by (apply all_strings_keywords, H).
  now rewrite fold_add_pointer.
Qed.

Lemma buildIndex_fallback_witness :
  Main.buildIndex sample_documents sample_key None
  = Main.buildIndex sample_documents sample_key (Some split_keywords).
Proof. exact (proj1 (buildIndex_fallback sample_documents sample_key eq_refl)). Defined.

(** X12.  The fallback is chosen by looking at the first document only: when
    the first documents hold strings and a later one does not, [buildIndex]
    without [getKeywords] fails at that document with the [TypeError] of
    calling [split] on it, and returns no table. *)
Theorem buildIndex_mixed (pre : list Document) (d : Document) (post : list Document)
    (k : KeyObject) :
  pre <> [] ->
  forallb (fun doc => is_string (doc_data doc)) pre = true ->
  is_string (doc_data d) = false ->
  Main.buildIndex (pre ++ d :: post) k None = Throw (TypeError "e.split is not a function").
Proof.
  intros Hne Hpre Hd. destruct pre as [|doc pre]; [congruence|].
  unfold Main.buildIndex. cbn [Main.resolve_getKeywords app].
  assert (H0 : is_string (doc_data doc) = true)
    by (cbn [forallb] in Hpre; now apply andb_prop in Hpre).
  rewrite H0.
  change (doc :: pre ++ d :: post) with ((doc :: pre) ++ d :: post).
  rewrite fold_left_app.
  rewrite (documents_fold k _ split_keywords) by (apply all_strings_keywords, Hpre).
  cbn [fold_left bind]. unfold Main.index_document at 2.
  destruct (doc_data d); [discriminate Hd|]. cbn [Main.default_getKeywords bind].
  apply fold_throw.
Qed.

Lemma buildIndex_mixed_witness :
  Main.buildIndex
    ([MkDocument (js "p1") (Str (js "a b"))]
       ++ MkDocument (js "p2") (Buf (Uint8Array [x01])) :: [MkDocument (js "p3") (Str (js "c"))])
    sample_key None
  = Throw (TypeError "e.split is not a function").
Proof.
  apply (buildIndex_mixed [MkDocument (js "p1") (Str (js "a b"))]
           (MkDocument (js "p2") (Buf (Uint8Array [x01])))
           [MkDocument (js "p3") (Str (js "c"))] sample_key);
    [discriminate | reflexivity | reflexivity].
Defined.

(** X13.  The fallback extractor: the keywords of a string are the distinct
    pieces between single spaces, of which there is at least one; no
    keyword contains a space,
    joining the pieces with spaces gives the string back, and there is one
    piece more than there are spaces. *)
Theorem default_getKeywords_spec (s : jsstring) :
  exists ws,
    Main.default_getKeywords (Str s) = Ok (List.map Str ws)
    /\ NoDup ws /\ ws <> []
    /\ (forall w, In w ws <-> In w (split_spaces [] s))
    /\ join_spaces (split_spaces [] s) = s
    /\ Forall (fun w => ~ In 32 w) ws
    /\ length (split_spaces [] s) = S (count_occ Z.eq_dec s 32).
Proof.
  exists (new_Set (split_spaces [] s)).
  destruct (new_Set_spec (split_spaces [] s)) as [ND I].
  split; [reflexivity|]. split; [exact ND|]. split.
  - destruct (split_spaces_cons [] s) as (w & l & E). rewrite E.
    destruct (new_Set_cons w l) as [l' ->]. discriminate.
  - split; [exact I|]. split; [apply (split_spaces_join s [])|]. split.
    + apply Forall_forall. intros w Hw. apply I in Hw.
      pose proof (split_spaces_no_space s [] (fun x => x)) as F.
      rewrite Forall_forall in F. now apply F.
    + apply split_spaces_length.
Qed.

(** X14.  [encrypt] with a valid key never fails; with the encoding omitted the
    ciphertext is text in lower-case hexadecimal that stands for
    [16 * (n / 16 + 1)] bytes, [n] being the length of the text in UTF-8:
    PKCS#7 padding always adds between 1 and 16 bytes. *)
Theorem encrypt_ciphertext_length (m : jsstring) (k : KeyObject) :
  valid_key k = true ->
  exists c,
    Main.encrypt m k None = Ok c
    /\ lower_hex c = true
    /\ length c = (32 * S (length (utf8_encode m) / 16))%nat
    /\ byteLength (Main.str2ab c None) = (16 * S (length (utf8_encode m) / 16))%nat.
Proof.
  intro H. rewrite encrypt_spec by exact H. cbn [default Buffer_toString].
  eexists. split; [reflexivity|]. split; [apply hex_encode_lower|]. split.
  - rewrite hex_encode_length, aes_cbc_encrypt_length. lia.
  - rewrite str2ab_spec. unfold byteLength. cbn [contents default Buffer_from].
    rewrite hex_decode_encode. apply aes_cbc_encrypt_length.
Qed.

Lemma encrypt_ciphertext_length_witness :
  exists c,
    Main.encrypt (js "hello") sample_key None = Ok c
    /\ lower_hex c = true
    /\ length c = (32 * S (length (utf8_encode (js "hello")) / 16))%nat
    /\ byteLength (Main.str2ab c None) = (16 * S (length (utf8_encode (js "hello")) / 16))%nat.
Proof. exact (encrypt_ciphertext_length (js "hello") sample_key eq_refl). Defined.

(** X15.  [decrypt] accepts the ciphertext as a binary value, typed array or raw
    [ArrayBuffer], and then ignores the encoding; with the bytes that
    [str2ab] reads from what [encrypt] returned it gives the text back (lone
    surrogates replaced by U+FFFD), as it does from the text itself. *)
Theorem decrypt_raw_ciphertext (m : jsstring) (k : KeyObject) (e e' : option Encoding)
    (c : jsstring) :
  code_units m = true -> valid_key k = true ->
  e = None \/ e = Some Hex \/ e = Some Base64 ->
  Main.encrypt m k e = Ok c ->
  Main.decrypt (Buf (Main.str2ab c e)) k e' = Ok (toWellFormed m)
  /\ Main.decrypt (Buf (ArrayBuffer (contents (Main.str2ab c e)))) k e' = Ok (toWellFormed m)
  /\ Main.decrypt (Str c) k e = Ok (toWellFormed m).
Proof.
  intros Hm Hk He Hc. rewrite encrypt_spec in Hc by exact Hk. injection Hc as <-.
  rewrite !decrypt_spec by exact Hk. rewrite str2ab_spec. cbn [contents].
  rewrite codec_roundtrip by (destruct He as [He|[He|He]]; subst e; cbn [default]; tauto).
  rewrite aes_cbc_roundtrip. cbn [bind]. rewrite utf8_text_roundtrip by exact Hm.
  repeat split.
Qed.

Lemma decrypt_raw_ciphertext_witness :
  Main.decrypt (Buf (Main.str2ab sample_ciphertext None)) sample_key (Some Ascii)
  = Ok (toWellFormed (js "hello")).
Proof.
  refine (proj1 (decrypt_raw_ciphertext (js "hello") sample_key None (Some Ascii)
                   sample_ciphertext eq_refl eq_refl (or_introl eq_refl) _)).
  vm_compute. reflexivity.
Defined.

(** X16.  [decrypt] fails with an [OperationError] on a ciphertext that is empty
    or whose length is not a multiple of 16 bytes; in particular on text of
    which [str2ab] decodes nothing. *)
Theorem decrypt_rejects_bad_length (k : KeyObject) (c : data) (e : option Encoding) :
  valid_key k = true ->
  let dataBuffer := match c with Str s => Main.str2ab s e | Buf b => b end in
  (byteLength dataBuffer mod 16 <> 0)%nat \/ byteLength dataBuffer = 0%nat ->
  Main.decrypt c k e = Throw OperationError.
Proof.
  intros Hk dataBuffer H. destruct (valid_key_checks k Hk) as (_ & H2 & H3).
  unfold Main.decrypt, subtle_decrypt. fold dataBuffer. rewrite H2, H3. cbn [bind negb].
  unfold aes_cbc_decrypt. fold (byteLength dataBuffer).
  destruct H as [H|H].
  - apply Nat.eqb_neq in H. rewrite H. cbn [negb]. now rewrite orb_true_r.
  - rewrite H. reflexivity.
Qed.

Lemma decrypt_rejects_bad_length_witness :
  Main.decrypt (Str (js "zz")) sample_key None = Throw OperationError.
Proof.
  apply (decrypt_rejects_bad_length sample_key (Str (js "zz")) None);
    [reflexivity | right; reflexivity].
Defined.

(** X17.  The initialisation vector is part of the key material, so [encrypt] is
    not randomised: the ciphertexts of two texts that start with the same
    [16 * n] bytes start with the same [32 * n] hexadecimal digits. *)
Theorem encrypt_shared_prefix (s : jsstring) (k : KeyObject) (n : nat) :
  valid_key k = true -> well_formed s = true ->
  length (utf8_encode s) = (16 * n)%nat ->
  exists prefix,
    length prefix = (32 * n)%nat
    /\ forall t, exists rest, Main.encrypt (s ++ t) k None = Ok (prefix ++ rest).
Proof.
  intros Hk Hs Hn.
  destruct (aes_cbc_encrypt_prefix (key_data (key k)) (contents (iv k)) (utf8_encode s) n Hn)
    as (pre & Hl & H).
  exists (hex_encode pre). split; [rewrite hex_encode_length; lia|].
  intro t. rewrite encrypt_spec by exact Hk. rewrite utf8_encode_app by exact Hs.
  destruct (H (utf8_encode t)) as [rest E]. rewrite E.
  cbn [default Buffer_toString]. rewrite hex_encode_app. eexists. reflexivity.
Qed.

Lemma encrypt_shared_prefix_witness :
  exists prefix,
    length prefix = (32 * 1)%nat
    /\ forall t, exists rest,
         Main.encrypt (js "0123456789abcdef" ++ t) sample_key None = Ok (prefix ++ rest).
Proof.
  exact (encrypt_shared_prefix (js "0123456789abcdef") sample_key 1 eq_refl eq_refl eq_refl).
Defined.

(** X18.  Key material returned by [genSecretKey] is accepted by [encrypt] and
    [decrypt], and decrypting what was encrypted under it gives the text
    back (lone surrogates replaced by U+FFFD) when the encoding is omitted,
    'hex' or 'base64'. *)
Theorem generated_key_roundtrip (secret : option jsstring) (options : Main.KeyOptions)
    (rnd : random_source) (k : KeyObject) (m : jsstring) (e : option Encoding) :
  fst (Main.genSecretKey secret options rnd) = Ok k ->
  code_units m = true ->
  e = None \/ e = Some Hex \/ e = Some Base64 ->
  roundtrip m k e = Ok (toWellFormed m).
Proof.
  intros H Hm He. apply generated_key_valid in H. unfold roundtrip.
  rewrite encrypt_spec by exact H. cbn [bind].
  rewrite decrypt_spec by exact H.
  rewrite codec_roundtrip by (destruct He as [He|[He|He]]; subst e; cbn [default]; tauto).
  rewrite aes_cbc_roundtrip. cbn [bind]. now rewrite utf8_text_roundtrip.
Qed.

Lemma generated_key_roundtrip_witness :
  roundtrip (js "hello") sample_generated_key None = Ok (toWellFormed (js "hello")).
Proof.
  refine (generated_key_roundtrip (Some (js "00")) (sample_options None) zeros_source
            sample_generated_key (js "hello") None _ eq_refl (or_introl eq_refl)).
  vm_compute. reflexivity.
Defined.

(** X19.  [encrypt] and [decrypt] of [src/crypto.js] read and write the plain
    text in the encoding of the ciphertext: for text that is the 'hex' or
    'base64' form of some bytes, [decrypt(encrypt(text, k, e), k, e)] is
    [text], and the ciphertext is that of the bytes. *)
Theorem crypto_js_roundtrip (b : bytes) (k : KeyObject) (e : option Encoding) :
  valid_key k = true ->
  e = None \/ e = Some Hex \/ e = Some Base64 ->
  let text := CryptoJs.ab2str (Uint8Array b) e in
  exists c,
    CryptoJs.encrypt text k e = Ok c
    /\ CryptoJs.decrypt c k e = Ok text
    /\ c = CryptoJs.ab2str
             (ArrayBuffer (aes_cbc_encrypt (key_data (key k)) (contents (iv k)) b)) e.
Proof.
  intros Hk He. cbv zeta.
  destruct (valid_key_checks k Hk) as (H1 & H2 & H3).
  assert (C : forall x, Buffer_from (Buffer_toString x (default Hex e)) (default Hex e) = x)
    by (intro x; apply codec_roundtrip; destruct He as [He|[He|He]]; subst e; cbn; tauto).
  unfold CryptoJs.encrypt, CryptoJs.decrypt, CryptoJs.str2ab, CryptoJs.ab2str,
    subtle_encrypt, subtle_decrypt.
  rewrite H1, H2, H3. cbn [bind negb]. rewrite !str2ab_spec. unfold Main.ab2str.
  cbn [contents]. rewrite C. eexists. split; [reflexivity|].
  rewrite str2ab_spec. cbn [contents]. rewrite C, aes_cbc_roundtrip. cbn [bind contents].
  split; reflexivity.
Qed.

Lemma crypto_js_roundtrip_witness :
  exists c,
    CryptoJs.encrypt (CryptoJs.ab2str (Uint8Array [x68; x69]) None) sample_key None = Ok c
    /\ CryptoJs.decrypt c sample_key None = Ok (CryptoJs.ab2str (Uint8Array [x68; x69]) None)
    /\ c = CryptoJs.ab2str
             (ArrayBuffer
                (aes_cbc_encrypt (key_data (key sample_key)) (contents (iv sample_key))
                   [x68; x69])) None.
Proof.
  exact (crypto_js_roundtrip [x68; x69] sample_key None eq_refl (or_introl eq_refl)).
Defined.

(** X20.  Whenever [genSecretKey] returns key material, [generateSecretKey] of
    [src/crypto.js] returns, for the same arguments and random bytes, the
    same key and the same iv, without a [secretSalt]. *)
Theorem generateSecretKey_agrees (secret : option jsstring) (options : Main.KeyOptions)
    (rnd : random_source) (k : KeyObject) :
  fst (Main.genSecretKey secret options rnd) = Ok k ->
  fst (CryptoJs.generateSecretKey secret options rnd) = Ok (MkKeyObject (key k) (iv k) None).
Proof.
  rewrite genSecretKey_unfold, generateSecretKey_unfold. cbv zeta.
  destruct (importKey _ PBKDF2 _ _) as [dk|e]; cbn [bind]; [|discriminate].
  destruct (deriveBits _ dk (inject_Z _ * 8)%Q) as [derived|e]; cbn [bind]; [|discriminate].
  destruct (importKey (slice derived 0 32) _ _ _) as [sk|e]; cbn [bind]; [|discriminate].
  destruct (deriveBits _ dk (32 * 8)%Q) as [salt|e]; cbn [bind]; [|discriminate].
  intro H. injection H as <-. reflexivity.
Qed.

Lemma generateSecretKey_agrees_witness :
  fst (CryptoJs.generateSecretKey (Some (js "00")) (sample_options None) zeros_source)
  = Ok (MkKeyObject (key sample_generated_key) (iv sample_generated_key) None).
Proof.
  apply (generateSecretKey_agrees (Some (js "00")) (sample_options None) zeros_source
           sample_generated_key).
  vm_compute. reflexivity.
Defined.

(** X21.  The passphrase is read as hexadecimal: two passphrases with the same
    leading pairs of hexadecimal digits give the same key material, and one
    that does not start with two hexadecimal digits gives the key material of
    the default passphrase, which is read as no bytes at all. *)
Theorem passphrase_is_hex_decoded (s1 s2 : jsstring) (options : Main.KeyOptions)
    (rnd : random_source) :
  hex_decode s1 = hex_decode s2 ->
  Main.genSecretKey (Some s1) options rnd = Main.genSecretKey (Some s2) options rnd
  /\ CryptoJs.generateSecretKey (Some s1) options rnd
     = CryptoJs.generateSecretKey (Some s2) options rnd
  /\ (hex_decode s1 = [] ->
      Main.genSecretKey (Some s1) options rnd = Main.genSecretKey None options rnd).
Proof.
  intro H.
  assert (E : Main.str2ab s1 None = Main.str2ab s2 None)
    by (rewrite !str2ab_spec; cbn [default Buffer_from]; now rewrite H).
  unfold Main.genSecretKey, CryptoJs.generateSecretKey, CryptoJs.str2ab. cbn [default].
  rewrite E. split; [reflexivity|]. split; [reflexivity|].
  intro H0.
  assert (E0 : Main.str2ab s2 None = Main.str2ab (js "PASSPHRASE") None)
    by (rewrite !str2ab_spec; cbn [default Buffer_from]; now rewrite <- H, H0).
  now rewrite E0.
Qed.

Lemma passphrase_is_hex_decoded_witness :
  Main.genSecretKey (Some (js "hello")) Main.default_options zeros_source
  = Main.genSecretKey (Some (js "PASSPHRASE")) Main.default_options zeros_source.
Proof.
  exact (proj1 (passphrase_is_hex_decoded (js "hello") (js "PASSPHRASE")
                  Main.default_options zeros_source eq_refl)).
Defined.

(** X22.  A salt given as a string is read as hexadecimal too: it gives the key
    material of the typed array of its decoded bytes. *)
Theorem salt_text_is_hex_decoded (secret : option jsstring) (h : option jsstring)
    (s : jsstring) (it klb : option Z) (rnd : random_source) :
  Main.genSecretKey secret (Main.MkKeyOptions h (Some (Str s)) it klb) rnd
  = Main.genSecretKey secret
      (Main.MkKeyOptions h (Some (Buf (Uint8Array (hex_decode s)))) it klb) rnd.
Proof.
  unfold Main.genSecretKey. cbn [Main.opt_salt Main.opt_hash Main.opt_iterations
                                   Main.opt_keyLengthByte].
  now rewrite (str2ab_spec s None).
Qed.

(** X23.  The failures of [genSecretKey] for a positive [keyLengthByte] of less
    than 2^29.  With the hash omitted or named by a supported name: an
    iteration count outside [0, 2^32 - 1] is a [TypeError]; a count of zero
    an [OperationError]; a [keyLengthByte] other than 16, 24 or at least 32 a
    [DataError]; a count of one an [OperationError] again, because half of
    it rounds to zero iterations for the [secretSalt], while
    [generateSecretKey] of [src/crypto.js] returns; from two iterations on
    both return.  With any other hash name of ASCII characters and an
    iteration count in [1, 2^32 - 1], both fail with a [NotSupportedError]. *)
Theorem genSecretKey_failures (secret : option jsstring) (options : Main.KeyOptions)
    (rnd : random_source) :
  let name := default (js "SHA-256") (Main.opt_hash options) in
  let iterations := default 999 (Main.opt_iterations options) in
  let keyLengthByte := default 48 (Main.opt_keyLengthByte options) in
  let accepted := (keyLengthByte =? 16) || (keyLengthByte =? 24) || (32 <=? keyLengthByte) in
  let r := fst (Main.genSecretKey secret options rnd) in
  let r' := fst (CryptoJs.generateSecretKey secret options rnd) in
  0 < keyLengthByte -> keyLengthByte * 8 < 2 ^ 32 ->
  ((exists alg, normalize_hash name = Ok alg) ->
   (iterations < 0 \/ 2 ^ 32 - 1 < iterations ->
    r = Throw (TypeError "unsigned long") /\ r' = r)
   /\ (iterations = 0 -> r = Throw OperationError /\ r' = r)
   /\ (1 <= iterations <= 2 ^ 32 - 1 -> accepted = false ->
       r = Throw DataError /\ r' = r)
   /\ (iterations = 1 -> accepted = true -> r = Throw OperationError /\ is_ok r' = true)
   /\ (2 <= iterations <= 2 ^ 32 - 1 -> accepted = true ->
       is_ok r = true /\ is_ok r' = true))
  /\ (ascii_text name = true -> normalize_hash name = Throw NotSupportedError ->
      1 <= iterations <= 2 ^ 32 - 1 ->
      r = Throw NotSupportedError /\ r' = r).
Proof.
  cbv zeta. intros Hk0 Hk8.
  rewrite genSecretKey_unfold, generateSecretKey_unfold. cbv zeta.
  set (it := default 999 (Main.opt_iterations options)) in *.
  set (klb := default 48 (Main.opt_keyLengthByte options)) in *.
  set (name := default (js "SHA-256") (Main.opt_hash options)) in *.
  rewrite str2ab_spec.
  change (importKey (Uint8Array ?b) PBKDF2 false [deriveBits_usage])
    with (Ok (MkCryptoKey PBKDF2 false [deriveBits_usage] b)).
  cbn [bind contents default].
  split.
  2:{ intros _ Hn Hit.
      rewrite (deriveBits_unsupported name _ _ (inject_Z it))
        by first [exact Hn | rewrite IntegerPart_Z; lia].
      split; reflexivity. }
  intros [alg Hn].
  destruct ((it <? 0) || (2 ^ 32 - 1 <? it)) eqn:R.
  { rewrite (deriveBits_range _ _ _ (inject_Z it)) by (rewrite IntegerPart_Z; lia).
    cbn [bind]. split; [intros; split; reflexivity|].
    split; [lia|]. split; [lia|]. split; lia. }
  destruct (Z.eqb_spec it 0) as [Z0|Z0].
  { rewrite (deriveBits_zero name alg _ _ (inject_Z it))
      by first [exact Hn | rewrite IntegerPart_Z; exact Z0].
    cbn [bind]. split; [lia|]. split; [intros; split; reflexivity|].
    split; [lia|]. split; lia. }
  rewrite (deriveBits_ok name alg _ _ (inject_Z it) _ (Z.to_nat klb))
    by first [exact Hn | rewrite ?IntegerPart_Z, ?IntegerPart_bytes; lia].
  cbn [bind]. rewrite IntegerPart_Z.
  set (derived := pbkdf2 _ _ _ _ (Z.to_nat klb)).
  assert (Hd : length derived = Z.to_nat klb) by apply pbkdf2_length.
  unfold slice, slice_last, byteLength. cbn [importKey contents skipn Nat.sub].
  rewrite length_firstn, Hd, min32_accepted by lia.
  destruct ((klb =? 16) || (klb =? 24) || (32 <=? klb)) eqn:A; cbn [bind].
  - split; [lia|]. split; [lia|]. split; [intros _ X; discriminate X|]. split.
    + intros E1 _. rewrite (deriveBits_zero name alg _ _ (inject_Z it / 2)%Q);
        [split; reflexivity | exact Hn | rewrite IntegerPart_half, E1; reflexivity].
    + intros Hit _.
      rewrite (deriveBits_ok name alg _ _ (inject_Z it / 2)%Q _ 32);
        [split; reflexivity | exact Hn | | |];
        rewrite ?IntegerPart_half; try reflexivity; try lia.
      pose proof (Z.quot_le_mono 2 it 2 ltac:(lia) ltac:(lia)).
      pose proof (Z.quot_le_upper_bound it 2 it ltac:(lia) ltac:(lia)).
      change (Z.quot 2 2) with 1 in *. lia.
  - split; [lia|]. split; [lia|]. split; [intros; split; reflexivity|].
    split; intros _ X; discriminate X.
Qed.

Lemma genSecretKey_failures_witness :
  fst (Main.genSecretKey (Some (js "00"))
         (Main.MkKeyOptions None (Some (Buf (Uint8Array [x01; x02; x03]))) (Some 1) None)
         zeros_source)
  = Throw OperationError
  /\ is_ok (fst (CryptoJs.generateSecretKey (Some (js "00"))
                   (Main.MkKeyOptions None (Some (Buf (Uint8Array [x01; x02; x03]))) (Some 1) None)
                   zeros_source)) = true.
Proof.
  refine (proj1 (proj2 (proj2 (proj2
            (proj1 (genSecretKey_failures (Some (js "00"))
               (Main.MkKeyOptions None (Some (Buf (Uint8Array [x01; x02; x03]))) (Some 1) None)
               zeros_source _ _) (ex_intro _ SHA256 eq_refl))))) eq_refl eq_refl).
  - cbn. lia.
  - cbn. lia.
Defined.

(** X24.  With a supported hash, the default [keyLengthByte] of 48 and at
    least two iterations, the key material is the output of one PBKDF2
    derivation cut in two: the 32 bytes of the key followed by the 16 bytes
    of the iv are the 48 derived bytes. *)
Theorem genSecretKey_default_layout (secret : option jsstring) (options : Main.KeyOptions)
    (rnd : random_source) (alg : HashAlg) :
  let hash := default (js "SHA-256") (Main.opt_hash options) in
  let iterations := default 999 (Main.opt_iterations options) in
  normalize_hash hash = Ok alg ->
  Main.opt_keyLengthByte options = None \/ Main.opt_keyLengthByte options = Some 48 ->
  2 <= iterations <= 2 ^ 32 - 1 ->
  exists k,
    fst (Main.genSecretKey secret options rnd) = Ok k
    /\ key_data (key k) ++ contents (iv k)
       = pbkdf2 alg (hex_decode (default (js "PASSPHRASE") secret))
           (contents (main_salt options rnd)) (Z.to_nat iterations) 48
    /\ length (key_data (key k)) = 32%nat /\ byteLength (iv k) = 16%nat
    /\ valid_key k = true.
Proof.
  cbv zeta. intros Hn Hk Hit.
  pose proof (genSecretKey_result secret options rnd alg) as G. cbv zeta in G.
  assert (E : default 48 (Main.opt_keyLengthByte options) = 48)
    by (destruct Hk as [-> | ->]; reflexivity).
  rewrite E in G. specialize (G Hn Hit ltac:(lia) ltac:(lia)).
  replace ((48 =? 16) || (48 =? 24) || (32 <=? 48)) with true in G by reflexivity.
  replace (Z.to_nat 48 - 16)%nat with 32%nat in G by reflexivity.
  replace (Z.to_nat 48) with 48%nat in G by reflexivity.
  rewrite G. eexists. split; [reflexivity|].
  set (derived := pbkdf2 _ _ _ _ 48).
  assert (Hd : length derived = 48%nat) by apply pbkdf2_length.
  unfold valid_key, byteLength. cbn [key iv key_data contents].
  rewrite length_firstn, length_skipn, Hd.
  split; [apply firstn_skipn|]. repeat split.
Qed.

Lemma genSecretKey_default_layout_witness :
  exists k,
    fst (Main.genSecretKey (Some (js "00")) (sample_options None) zeros_source) = Ok k
    /\ key_data (key k) ++ contents (iv k)
       = pbkdf2 SHA256 (hex_decode (js "00")) [x01; x02; x03] (Z.to_nat 2) 48
    /\ length (key_data (key k)) = 32%nat /\ byteLength (iv k) = 16%nat
    /\ valid_key k = true.
Proof.
  refine (genSecretKey_default_layout (Some (js "00")) (sample_options None) zeros_source
            SHA256 eq_refl (or_introl eq_refl) _).
  cbn. lia.
Defined.
